(** * Vector error correction models: a shallow embedding of
      [statsmodels/tsa/vecm/vecm.py]

    The development follows the layout of the Python module:

    - exceptions and the result monad the numerical code runs in;
    - the scalar interface (NumPy's float64 arithmetic, kept abstract) and
      two-dimensional arrays as lists of rows, with the NumPy operations
      the module uses ([dot], slicing, [hstack], [vstack], ...);
    - the builder [_endog_matrices], the helpers [_r_matrices] and [_sij];
    - the model class [VECM] with [fit] and its three estimators;
    - the container [VECMResults] and its derived quantities;
    - a sample instance over the rationals, on which the model runs, and
      one in binary64 arithmetic for diagonal matrices;
    - the properties of the specification;
    - the names and sections of the JMulTi reference files
      ([tests/results_JMulTi/parse_jmulti_output.py]), and further
      properties of the builder, the estimators and the container.

    Conventions.  Python [int]s are [Z]; array positions are [nat].  A
    two-dimensional array is the list of its rows; an array with no row
    therefore carries no column count, which is the one place where the
    list model is coarser than a NumPy shape: the transpose of an array
    with rows but no column is a list without rows.  The estimators are
    therefore studied where every array they form has a row and a
    column: for a series with at least one variable and a cointegration
    rank of at least one (below the number of variables for EGLS, which
    forms [r1[r:]]).  The module is read with Python 3 semantics ([/] is
    true division). *)

From Stdlib Require Import String Ascii ZArith QArith Qabs Qreduction Bool Lia List.
From Stdlib Require PrimFloat Uint63.
Import ListNotations.
Close Scope Q_scope.

Set Implicit Arguments.

(* ================================================================== *)
(** * Exceptions and results *)

Inductive exn : Type :=
| ValueError (msg : string)
| TypeError (msg : string)
| IndexError (msg : string)
| AttributeError (msg : string)
| ZeroDivisionError
| LinAlgError.

Inductive res (A : Type) : Type :=
| Ok (a : A)
| Raise (e : exn).

Arguments Ok {A} a.
Arguments Raise {A} e.

Definition bind {A B : Type} (c : res A) (k : A -> res B) : res B :=
  match c with
  | Ok a => k a
  | Raise e => Raise e
  end.

Declare Scope res_scope.
Delimit Scope res_scope with res.
Notation "x <- c ;; k" := (bind c (fun x => k))
  (at level 61, c at next level, right associativity) : res_scope.
Notation "' pat <- c ;; k" := (bind c (fun x => match x with pat => k end))
  (at level 61, pat pattern, c at next level, right associativity) : res_scope.
Open Scope res_scope.

Definition is_ok {A : Type} (c : res A) : bool :=
  match c with Ok _ => true | Raise _ => false end.

(* ================================================================== *)
(** * Python sequences: slicing and membership *)

Section PySeq.
Variable A : Type.

(** Index clamping of [a[start:stop]] for a sequence of length [n]. *)
Definition clamp_index (n i : Z) : Z :=
    if (i <? 0)%Z then Z.max (i + n) 0 else Z.min i n.

(** [l[start:stop]], either bound possibly omitted or negative. *)
Definition py_slice (start stop : option Z) (l : list A) : list A :=
    let n := Z.of_nat (length l) in
    let lo := match start with None => 0%Z | Some i => clamp_index n i end in
    let hi := match stop with None => n | Some i => clamp_index n i end in
    firstn (Z.to_nat (hi - lo)) (skipn (Z.to_nat lo) l).

(** Index clamping of [a[start:stop:-1]]. *)
Definition clamp_index_rev (n i : Z) : Z :=
    if (i <? 0)%Z then (if (i + n <? 0)%Z then (-1)%Z else (i + n)%Z)
    else Z.min i (n - 1).

(** [l[start:stop:-1]]: positions [start, start-1, ..., stop+1]. *)
Definition py_slice_rev (start : Z) (stop : option Z) (l : list A) : list A :=
    let n := Z.of_nat (length l) in
    let s := clamp_index_rev n start in
    let e := match stop with None => (-1)%Z | Some i => clamp_index_rev n i end in
    rev (firstn (Z.to_nat (s - e)) (skipn (Z.to_nat (e + 1)) l)).

(** [l[start::step] = v] on a one-dimensional array, [0 <= start]. *)
Fixpoint assign_stride_from (pos start step : nat) (v : A) (l : list A) : list A :=
    match l with
    | [] => []
    | x :: l' =>
        (if (start <=? pos) && ((pos - start) mod step =? 0) then v else x)
          :: assign_stride_from (S pos) start step v l'
    end.

Definition assign_stride (start step : nat) (v : A) (l : list A) : list A :=
    assign_stride_from 0 start step v l.

(** [l[i] = v] for an index that is in range. *)
Fixpoint assign_nth (i : nat) (v : A) (l : list A) : list A :=
    match l, i with
    | [], _ => []
    | _ :: l', O => v :: l'
    | x :: l', S i' => x :: assign_nth i' v l'
    end.

Fixpoint zip_with (B C : Type) (f : A -> B -> C) (l : list A) (m : list B) : list C :=
    match l, m with
    | x :: l', y :: m' => f x y :: zip_with f l' m'
    | _, _ => []
    end.
End PySeq.

(** [sub in s] on Python strings. *)
Fixpoint str_in (sub s : string) : bool :=
  if String.prefix sub s then true
  else match s with
       | EmptyString => false
       | String _ s' => str_in sub s'
       end.

(* ================================================================== *)
(** * Scalars

    The entries of the arrays are NumPy float64 values.  Their arithmetic
    is kept abstract: the definitions and the general theorems below are
    stated for an arbitrary interpretation of the operations, binary64
    with its rounding included. *)

Class Scalar : Type := {
  R : Type;
  rofZ : Z -> R;                (* int -> float *)
  radd : R -> R -> R;
  rsub : R -> R -> R;
  rmul : R -> R -> R;
  rdiv : R -> R -> R;
  ropp : R -> R;
  rabs : R -> R;
  rpi : R;                      (* math.pi *)
  np_sqrt : R -> R;             (* np.sqrt, total (nan outside its domain) *)
  np_log : R -> R;              (* np.log, total *)
  math_log : R -> res R;        (* math.log, raises outside its domain *)
  norm_cdf : R -> R;            (* scipy.stats.norm.cdf *)
  rtruth : R -> bool            (* bool(x): x != 0 *)
}.

Definition rzero {S : Scalar} : R := rofZ 0.
Definition rone {S : Scalar} : R := rofZ 1.

(* ================================================================== *)
(** * Two-dimensional arrays *)

Section Arrays.
Context {S : Scalar}.

Definition vector : Type := list R.
Definition matrix : Type := list (list R).

Definition shape0 (M : matrix) : nat := length M.
Definition shape1 (M : matrix) : nat :=
    match M with [] => 0 | row :: _ => length row end.
Definition msize (M : matrix) : nat := length (concat M).

(** All rows have [w] entries. *)
Definition rect (w : nat) (M : matrix) : Prop :=
    Forall (fun row => length row = w) M.
Definition rectb (w : nat) (M : matrix) : bool :=
    forallb (fun row => length row =? w) M.

Definition value_error {A : Type} (msg : string) : res A := Raise (ValueError msg).

(** ** Constructors *)

(** [np.zeros((r, c))], [r] and [c] Python ints. *)
Definition np_zeros (r c : Z) : res matrix :=
    if ((r <? 0) || (c <? 0))%Z
    then value_error "negative dimensions are not allowed"
    else Ok (repeat (repeat rzero (Z.to_nat c)) (Z.to_nat r)).

Definition np_ones (n : nat) : vector := repeat rone n.

Definition identity (n : nat) : matrix :=
    map (fun i => map (fun j => if i =? j then rone else rzero) (seq 0 n)) (seq 0 n).

(** [np.arange(T) + 1], viewed as floats. *)
Definition arange_plus_1 (T : nat) : vector :=
    map (fun j => rofZ (Z.of_nat j + 1)) (seq 0 T).

(** [np.diag] of a one-dimensional array. *)
Definition diag_of_vector (v : vector) : matrix :=
    map (fun i => map (fun j => if i =? j then nth i v rzero else rzero)
                      (seq 0 (length v)))
        (seq 0 (length v)).

(** [np.diag] of a two-dimensional array: its main diagonal. *)
Definition diag_of_matrix (M : matrix) : vector :=
    map (fun i => nth i (nth i M []) rzero) (seq 0 (Nat.min (shape0 M) (shape1 M))).

(** ** Views *)

Definition col (j : nat) (M : matrix) : vector := map (fun row => nth j row rzero) M.

(** [M.T] *)
Definition transpose (M : matrix) : matrix :=
    map (fun j => col j M) (seq 0 (shape1 M)).

(** [M[a:b]] and [M[:, a:b]] *)
Definition rows_slice (a b : option Z) (M : matrix) : matrix := py_slice a b M.
Definition cols_slice (a b : option Z) (M : matrix) : matrix := map (py_slice a b) M.

(** [M[:, a:b:-1]] *)
Definition cols_slice_rev (a : Z) (b : option Z) (M : matrix) : matrix :=
    map (py_slice_rev a b) M.

(** [np.vsplit(M, [k])] and [np.hsplit(M, [k])]: the two sub-arrays
      [M[0:k]] and [M[k:n]]. *)
Definition np_vsplit (M : matrix) (k : Z) : matrix * matrix :=
    (rows_slice (Some 0%Z) (Some k) M,
     rows_slice (Some k) (Some (Z.of_nat (shape0 M))) M).
Definition np_hsplit (M : matrix) (k : Z) : matrix * matrix :=
    (cols_slice (Some 0%Z) (Some k) M,
     map (fun row => py_slice (Some k) (Some (Z.of_nat (length row))) row) M).

(** ** Stacking *)

(** [np.vstack((A, B))]: the column counts must agree.  A list without
      rows has no column count of its own and stacks with anything. *)
Definition vstack (A B : matrix) : res matrix :=
    if (shape0 A =? 0) || (shape0 B =? 0) || (shape1 A =? shape1 B)
    then Ok (A ++ B)
    else value_error "all the input array dimensions except for the concatenation axis must match exactly".

(** [np.hstack((A, B))]: the row counts must agree. *)
Definition hstack (A B : matrix) : res matrix :=
    if shape0 A =? shape0 B
    then Ok (zip_with (@app R) A B)
    else value_error "all the input array dimensions except for the concatenation axis must match exactly".

(** ** Arithmetic *)

(** Python's [sum] and NumPy's reductions: a left fold from [0]. *)
Definition rsum (v : vector) : R := fold_left radd v rzero.

Definition vdot (u v : vector) : R := rsum (zip_with rmul u v).

(** [A.dot(B)]: the inner dimensions must agree. *)
Definition dot (A B : matrix) : res matrix :=
    if rectb (shape0 B) A
    then Ok (map (fun row => map (fun c => vdot row c) (transpose B)) A)
    else value_error "shapes not aligned".

(** [chain_dot(A, B, C, ...)]: [reduce(np.dot, ...)]. *)
Definition chain_dot (A : matrix) (Bs : list matrix) : res matrix :=
    fold_left (fun acc B => X <- acc ;; dot X B) Bs (Ok A).

(** Broadcasting of two axis lengths. *)
Definition bcast_len (a b : nat) : option nat :=
    if a =? b then Some a
    else if a =? 1 then Some b
    else if b =? 1 then Some a
    else None.

Definition stretch (A : Type) (n : nat) (l : list A) : list A :=
    match l with
    | [x] => repeat x n
    | _ => l
    end.

(** Elementwise binary operation with broadcasting. *)
Definition elementwise (f : R -> R -> R) (A B : matrix) : res matrix :=
    match bcast_len (shape0 A) (shape0 B), bcast_len (shape1 A) (shape1 B) with
    | Some r, Some c =>
        Ok (zip_with (fun ra rb => zip_with f (stretch c ra) (stretch c rb))
                     (stretch r A) (stretch r B))
    | _, _ => value_error "operands could not be broadcast together"
    end.

Definition madd : matrix -> matrix -> res matrix := elementwise radd.
Definition msub : matrix -> matrix -> res matrix := elementwise rsub.
Definition mdiv : matrix -> matrix -> res matrix := elementwise rdiv.

Definition mmap (f : R -> R) (M : matrix) : matrix := map (map f) M.
Definition mneg : matrix -> matrix := mmap ropp.

(** [np.diff(y)]: first differences along the last axis. *)
Fixpoint diff1 (v : vector) : vector :=
    match v with
    | a :: ((b :: _) as v') => rsub b a :: diff1 v'
    | _ => []
    end.
Definition np_diff (M : matrix) : matrix := map diff1 M.

(** [np.kron(A, B)] *)
Definition kron (A B : matrix) : matrix :=
    flat_map (fun ra => map (fun rb => flat_map (fun a => map (rmul a) rb) ra) B) A.

(** [scipy.linalg.block_diag(A, B)] *)
Definition block_diag (A B : matrix) : matrix :=
    map (fun ra => ra ++ repeat rzero (shape1 B)) A
    ++ map (fun rb => repeat rzero (shape1 A) ++ rb) B.

(** [v.reshape((r, c), order="F")] of a one-dimensional array. *)
Definition reshape_F (v : vector) (r c : nat) : res matrix :=
    if length v =? r * c
    then Ok (map (fun i => map (fun j => nth (i + j * r) v rzero) (seq 0 c)) (seq 0 r))
    else value_error "cannot reshape array".

(** [M.T.reshape(n)]: the columns of [M] one after the other. *)
Definition transpose_reshape (M : matrix) (n : Z) : res vector :=
    let flat := concat (transpose M) in
    if (Z.of_nat (length flat) =? n)%Z then Ok flat
    else value_error "cannot reshape array".

(** [M[:, j] = v] *)
Definition assign_col (j : nat) (v : vector) (M : matrix) : res matrix :=
    if length v =? shape0 M
    then Ok (zip_with (fun row x => assign_nth j x row) M v)
    else value_error "could not broadcast input array".
End Arrays.

(** A Python [for] loop whose body may raise. *)
Fixpoint for_each (A St : Type) (l : list A) (body : A -> St -> res St) (s : St) : res St :=
  match l with
  | [] => Ok s
  | a :: l' => s' <- body a s ;; for_each l' body s'
  end.

(* ================================================================== *)
(** * The deterministic-term matrix builder *)

Section Builder.
Context {S : Scalar}.

(** [np.identity(n)] for a Python int [n]. *)
Definition np_identity (n : Z) : res matrix :=
    if (n <? 0)%Z then value_error "negative dimensions are not allowed"
    else Ok (identity (Z.to_nat n)).

(** Column [j] of [delta_x]:
      [delta_y[:, j+p-2 : None if j-1 < 0 else j-1 : -1].T.reshape(K*(p-1))]. *)
Definition lagged_differences (delta_y : matrix) (K p : Z) (j : nat) : res vector :=
    let jz := Z.of_nat j in
    transpose_reshape
      (cols_slice_rev (jz + p - 2)
                      (if (jz - 1 <? 0)%Z then None else Some (jz - 1)%Z)
                      delta_y)
      (K * (p - 1)).

(** The rows [seasons[i, i::num_of_seas] = 1] for [i < num_of_seas - 1],
      then the rotation [hstack((seasons[:, 1:4], seasons[:, :-3]))]
      and the centring [seasons - 1 / num_of_seas]. *)
Definition seasonal_rows (T : nat) : res matrix :=
    let num_of_seas := 4%Z in
    seasons <- np_zeros (num_of_seas - 1) (Z.of_nat T) ;;
    seasons <- for_each (seq 0 (Z.to_nat (num_of_seas - 1)))
                 (fun i M => Ok (assign_nth i
                                   (assign_stride i (Z.to_nat num_of_seas) rone (nth i M []))
                                   M))
                 seasons ;;
    seasons <- hstack (cols_slice (Some 1%Z) (Some 4%Z) seasons)
                      (cols_slice None (Some (-3)%Z) seasons) ;;
    Ok (mmap (fun x => rsub x (rdiv (rofZ 1) (rofZ num_of_seas))) seasons).

(** [_endog_matrices(endog_tot, diff_lags, deterministic)].  The column
      count [delta_x.shape[1]] is [T] throughout: [delta_x] is created
      with [T] columns and only ever gains rows. *)
Definition _endog_matrices (endog_tot : matrix) (diff_lags : Z) (deterministic : string)
    : res (matrix * matrix * matrix * matrix) :=
    let p := (diff_lags + 1)%Z in
    let y := endog_tot in
    let K := Z.of_nat (shape0 y) in
    let y_1_T := cols_slice (Some p) None y in
    let T := shape1 y_1_T in
    let delta_y := np_diff y in
    let delta_y_1_T := cols_slice (Some (p - 1)%Z) None delta_y in
    let y_min1 := cols_slice (Some (p - 1)%Z) (Some (-1)%Z) y in
    y_min1 <- (if str_in "cc" deterministic
               then vstack y_min1 [np_ones T]
               else Ok y_min1) ;;
    delta_x <- np_zeros (diff_lags * K) (Z.of_nat T) ;;
    delta_x <- for_each (seq 0 T)
                 (fun j dx => v <- lagged_differences delta_y K p j ;;
                              assign_col j v dx)
                 delta_x ;;
    delta_x <- (if str_in "co" deterministic
                then vstack delta_x [np_ones T]
                else Ok delta_x) ;;
    delta_x <- (if str_in "s" deterministic
                then seasons <- seasonal_rows T ;; vstack delta_x seasons
                else Ok delta_x) ;;
    delta_x <- (if str_in "lt" deterministic
                then vstack delta_x [arange_plus_1 T]
                else Ok delta_x) ;;
    Ok (y_1_T, delta_y_1_T, y_min1, delta_x).
End Builder.

(* ================================================================== *)
(** * Linear-algebra routines

    [numpy.linalg.inv], [svd], [eig] and [det] are library routines; the
    module only calls them.  They are taken as an interface.  Each may
    raise ([LinAlgError] on a singular or non-square argument). *)

Class LinAlg {S : Scalar} : Type := {
  inv : matrix -> res matrix;
  svd : matrix -> res (matrix * vector * matrix);   (* full_matrices=False *)
  eig : matrix -> res (vector * matrix);            (* eigenvalues, eigenvectors *)
  det : matrix -> res R
}.

Section Moments.
Context {S : Scalar} {L : LinAlg}.

(** [mat_sqrt(_2darray)] *)
Definition mat_sqrt (_2darray : matrix) : res matrix :=
    '(u_, s_, v_) <- svd _2darray ;;
    let s_ := map np_sqrt s_ in
    chain_dot u_ [diag_of_vector s_; v_].

(** [_block_matrix_ymin1_deltax(y_min1, delta_x)] *)
Definition _block_matrix_ymin1_deltax (y_min1 delta_x : matrix) : res matrix :=
    b <- dot y_min1 (transpose delta_x) ;;
    yy <- dot y_min1 (transpose y_min1) ;;
    top <- hstack yy b ;;
    xx <- dot delta_x (transpose delta_x) ;;
    bottom <- hstack (transpose b) xx ;;
    blocks <- vstack top bottom ;;
    inv blocks.

(** [_r_matrices(T, delta_x, delta_y_1_T, y_min1)] *)
Definition _r_matrices (T : nat) (delta_x delta_y_1_T y_min1 : matrix)
    : res (matrix * matrix) :=
    xx <- dot delta_x (transpose delta_x) ;;
    xx_inv <- inv xx ;;
    proj <- dot (transpose delta_x) xx_inv ;;
    proj <- dot proj delta_x ;;
    m <- msub (identity T) proj ;;
    r0 <- dot delta_y_1_T m ;;
    r1 <- dot y_min1 m ;;
    Ok (r0, r1).

(** [Ri.dot(Rj.T)/T] *)
Definition moment (T : nat) (Ri Rj : matrix) : res matrix :=
    M <- dot Ri (transpose Rj) ;;
    Ok (mmap (fun x => rdiv x (rofZ (Z.of_nat T))) M).

(** [_sij(delta_x, delta_y_1_T, y_min1)] *)
Definition _sij (delta_x delta_y_1_T y_min1 : matrix)
    : res (matrix * matrix * matrix * matrix * matrix * vector * matrix) :=
    let T := shape1 y_min1 in
    '(r0, r1) <- _r_matrices T delta_x delta_y_1_T y_min1 ;;
    s00 <- moment T r0 r0 ;;
    s01 <- moment T r0 r1 ;;
    s10 <- moment T r1 r0 ;;
    s11 <- moment T r1 r1 ;;
    s11_sqrt <- mat_sqrt s11 ;;
    s11_ <- inv s11_sqrt ;;
    s00_inv <- inv s00 ;;
    prod <- chain_dot s11_ [s10; s00_inv; s01; s11_] ;;
    '(lambd, v) <- eig prod ;;
    Ok (s00, s01, s10, s11, s11_, lambd, v).
End Moments.

(* ================================================================== *)
(** * The results container *)

Module VECMResults.
Section Container.
Context {S : Scalar} {L : LinAlg}.

(** The attributes set by [__init__].  The three derived matrices are
      stored as they were passed, so each may hold [None]. *)
Record t : Type := {
    y_all : matrix;
    K : Z;
    p : Z;
    deterministic : string;
    r : Z;
    alpha : matrix;
    beta : matrix;
    det_coef_coint : matrix;
    gamma : matrix;
    det_coef : matrix;
    sigma_u : matrix;
    delta_y_1_T : option matrix;
    y_min1 : option matrix;
    delta_x : option matrix;
    T : Z
  }.

(** [bool(a)] for an array [a]. *)
Definition array_truth (a : matrix) : res bool :=
    match concat a with
    | [] => Ok false
    | [x] => Ok (rtruth x)
    | _ => value_error "The truth value of an array with more than one element is ambiguous. Use a.any() or a.all()"
    end.

(** Truth value of an argument that is [None] or an array. *)
Definition py_truth (o : option matrix) : res bool :=
    match o with
    | None => Ok false
    | Some a => array_truth a
    end.

Definition is_not_None (A : Type) (o : option A) : bool :=
    match o with Some _ => true | None => false end.

(** Attribute access on a value that may be [None]. *)
Definition attr_of (o : option matrix) : res matrix :=
    match o with
    | Some a => Ok a
    | None => Raise (AttributeError "'NoneType' object has no attribute")
    end.

(** [y_min1 is not None or delta_x is not None or delta_y_1_T] *)
Definition matrices_supplied (delta_y_1_T y_min1 delta_x : option matrix) : res bool :=
    if is_not_None y_min1 then Ok true
    else if is_not_None delta_x then Ok true
    else py_truth delta_y_1_T.

(** [VECMResults.__init__] *)
Definition __init__ (endog_tot : matrix) (level_var_lag_order coint_rank : Z)
             (alpha beta gamma sigma_u : matrix) (deterministic : string)
             (delta_y_1_T y_min1 delta_x : option matrix) : res t :=
    let K := Z.of_nat (shape0 endog_tot) in
    let p := level_var_lag_order in
    let '(beta, det_coef_coint) := np_vsplit beta K in
    let '(gamma, det_coef) := np_hsplit gamma (K * (p - 1)) in
    supplied <- matrices_supplied delta_y_1_T y_min1 delta_x ;;
    '(delta_y_1_T, y_min1, delta_x) <-
       (if supplied
        then Ok (delta_y_1_T, y_min1, delta_x)
        else '(_y_1_T, dy, ym, dx) <-
               _endog_matrices endog_tot level_var_lag_order deterministic ;;
             Ok (Some dy, Some ym, Some dx)) ;;
    ym <- attr_of y_min1 ;;
    Ok {| y_all := endog_tot; K := K; p := p; deterministic := deterministic;
          r := coint_rank; alpha := alpha; beta := beta;
          det_coef_coint := det_coef_coint; gamma := gamma; det_coef := det_coef;
          sigma_u := sigma_u; delta_y_1_T := delta_y_1_T; y_min1 := y_min1;
          delta_x := delta_x; T := Z.of_nat (shape1 ym) |}.

Section Derived.
Variable self : t.

(** [llf] *)
Definition llf : res R :=
      let K := self.(K) in
      let T := self.(T) in
      let r := self.(r) in
      dx <- attr_of self.(delta_x) ;;
      dy <- attr_of self.(delta_y_1_T) ;;
      ym <- attr_of self.(y_min1) ;;
      '(s00, _, _, _, _, lambd, _) <- _sij dx dy ym ;;
      log_2pi <- math_log (rmul (rofZ 2) rpi) ;;
      d <- det s00 ;;
      log_det <- math_log d ;;
      let logs := py_slice None (Some r) (map (fun l => np_log (rsub (rofZ 1) l)) lambd) in
      Ok (rsub (rsub (rdiv (rmul (rofZ (- K * T)) log_2pi) (rofZ 2))
                     (rdiv (rmul (rofZ T) (radd log_det (rsum logs))) (rofZ 2)))
               (rdiv (rofZ (K * T)) (rofZ 2))).

(** [num_det_coef_coint] *)
Definition num_det_coef_coint : Z :=
      (0 + (if str_in "cc" self.(deterministic) then 1 else 0))%Z.

(** [cov_params] *)
Definition cov_params : res matrix :=
      let beta := self.(beta) in
      let dt := self.(deterministic) in
      let num_det := ((if str_in "co" dt then 1 else 0)
                      + 3 * (if str_in "s" dt then 1 else 0)
                      + (if str_in "lt" dt then 1 else 0))%Z in
      id_block <- np_identity (self.(K) * (self.(p) - 1) + num_det) ;;
      let b_id := block_diag beta id_block in
      y_min1 <- attr_of self.(y_min1) ;;
      let y_min1 := if (num_det_coef_coint >? 0)%Z
                    then rows_slice None (Some (- num_det_coef_coint)%Z) y_min1
                    else y_min1 in
      b_y <- dot (transpose beta) y_min1 ;;
      omega11 <- dot b_y (transpose b_y) ;;
      dx <- attr_of self.(delta_x) ;;
      omega12 <- dot b_y (transpose dx) ;;
      let omega21 := transpose omega12 in
      omega22 <- dot dx (transpose dx) ;;
      top <- hstack omega11 omega12 ;;
      bottom <- hstack omega21 omega22 ;;
      omega <- vstack top bottom ;;
      omega_inv <- inv omega ;;
      mat1 <- dot b_id omega_inv ;;
      mat1 <- dot mat1 (transpose b_id) ;;
      Ok (kron mat1 self.(sigma_u)).

(** [stderr_params] *)
Definition stderr_params : res vector :=
      c <- cov_params ;;
      Ok (map np_sqrt (diag_of_matrix c)).

(** [v.reshape(shape, order="F")] with a shape of Python ints. *)
Definition reshape_F_Z (v : vector) (rows cols : Z) : res matrix :=
      if ((rows <? 0) || (cols <? 0))%Z then value_error "cannot reshape array"
      else reshape_F v (Z.to_nat rows) (Z.to_nat cols).

(** [M.reshape(N.shape, order="F")] of a two-dimensional array. *)
Definition reshape_F_like (M N : matrix) : res matrix :=
      reshape_F (concat (transpose M)) (shape0 N) (shape1 N).

(** [stderr_coint] *)
Definition stderr_coint : res matrix :=
      dx <- attr_of self.(delta_x) ;;
      dy <- attr_of self.(delta_y_1_T) ;;
      ym <- attr_of self.(y_min1) ;;
      '(_, r1) <- _r_matrices (Z.to_nat self.(T)) dx dy ym ;;
      let r12 := rows_slice (Some self.(r)) None r1 in
      rr <- dot r12 (transpose r12) ;;
      mat1 <- inv rr ;;
      let det := Z.of_nat (shape0 self.(det_coef_coint)) in
      id_block <- np_identity (self.(K) - self.(r) + det) ;;
      su_inv <- inv self.(sigma_u) ;;
      asa <- chain_dot (transpose self.(alpha)) [su_inv; self.(alpha)] ;;
      asa_inv <- inv asa ;;
      let mat2 := kron id_block asa_inv in
      first_rows <- np_zeros self.(r) self.(r) ;;
      prod <- dot mat1 mat2 ;;
      let last_rows_1d := map np_sqrt (diag_of_matrix prod) in
      last_rows <- reshape_F_Z last_rows_1d (self.(K) - self.(r) + det) self.(r) ;;
      vstack first_rows last_rows.

(** [stderr_alpha] *)
Definition stderr_alpha : res matrix :=
      sp <- stderr_params ;;
      let ret_1dim := py_slice None (Some (Z.of_nat (msize self.(alpha)))) sp in
      reshape_F ret_1dim (shape0 self.(alpha)) (shape1 self.(alpha)).

(** [stderr_beta] *)
Definition stderr_beta : res matrix :=
      sc <- stderr_coint ;;
      let ret_1dim := rows_slice None (Some (Z.of_nat (msize self.(beta)))) sc in
      reshape_F_like ret_1dim self.(beta).

(** [stderr_det_coef_coint] *)
Definition stderr_det_coef_coint : res matrix :=
      if msize self.(det_coef_coint) =? 0 then Ok self.(det_coef_coint)
      else
        sc <- stderr_coint ;;
        let ret_1dim := rows_slice (Some (Z.of_nat (msize self.(beta)))) None sc in
        reshape_F_like ret_1dim self.(det_coef_coint).

(** [stderr_gamma] *)
Definition stderr_gamma : res matrix :=
      let start := Z.of_nat (shape0 self.(alpha)
                             * (shape0 self.(beta) + shape0 self.(det_coef_coint))) in
      sp <- stderr_params ;;
      let ret_1dim :=
        py_slice (Some start) (Some (start + Z.of_nat (msize self.(gamma)))%Z) sp in
      reshape_F ret_1dim (shape0 self.(gamma)) (shape1 self.(gamma)).

(** [stderr_det_coef] *)
Definition stderr_det_coef : res matrix :=
      if msize self.(det_coef) =? 0 then Ok self.(det_coef)
      else
        sp <- stderr_params ;;
        let ret1_1dim := py_slice (Some (- Z.of_nat (msize self.(det_coef)))%Z) None sp in
        reshape_F ret1_1dim (shape0 self.(det_coef)) (shape1 self.(det_coef)).

(** [tvalues_alpha] *)
Definition tvalues_alpha : res matrix :=
      se <- stderr_alpha ;; mdiv self.(alpha) se.

(** [tvalues_beta] *)
Definition tvalues_beta : res matrix :=
      first_rows <- np_zeros self.(r) self.(r) ;;
      se <- stderr_beta ;;
      last_rows <- mdiv (rows_slice (Some self.(r)) None self.(beta))
                        (rows_slice (Some self.(r)) None se) ;;
      vstack first_rows last_rows.

(** [tvalues_det_coef_coint] *)
Definition tvalues_det_coef_coint : res matrix :=
      if msize self.(det_coef_coint) =? 0 then Ok self.(det_coef_coint)
      else se <- stderr_det_coef_coint ;; mdiv self.(det_coef_coint) se.

(** [tvalues_gamma] *)
Definition tvalues_gamma : res matrix :=
      se <- stderr_gamma ;; mdiv self.(gamma) se.

(** [tvalues_det_coef] *)
Definition tvalues_det_coef : res matrix :=
      if msize self.(det_coef) =? 0 then Ok self.(det_coef)
      else se <- stderr_det_coef ;; mdiv self.(det_coef) se.

(** [(1 - scipy.stats.norm.cdf(abs(t))) * 2] *)
Definition two_sided (t : matrix) : matrix :=
      mmap (fun x => rmul (rsub (rofZ 1) (norm_cdf (rabs x))) (rofZ 2)) t.

(** [pvalues_alpha] *)
Definition pvalues_alpha : res matrix :=
      t <- tvalues_alpha ;; Ok (two_sided t).

(** [pvalues_beta] *)
Definition pvalues_beta : res matrix :=
      first_rows <- np_zeros self.(r) self.(r) ;;
      t <- tvalues_beta ;;
      let tval_last := rows_slice (Some self.(r)) None t in
      vstack first_rows (two_sided tval_last).

(** [pvalues_det_coef_coint] *)
Definition pvalues_det_coef_coint : res matrix :=
      if msize self.(det_coef_coint) =? 0 then Ok self.(det_coef_coint)
      else t <- tvalues_det_coef_coint ;; Ok (two_sided t).

(** [pvalues_gamma] *)
Definition pvalues_gamma : res matrix :=
      t <- tvalues_gamma ;; Ok (two_sided t).

(** [pvalues_det_coef] *)
Definition pvalues_det_coef : res matrix :=
      if msize self.(det_coef) =? 0 then Ok self.(det_coef)
      else t <- tvalues_det_coef ;; Ok (two_sided t).

(** [A[i] = M] for a slot of shape [(K, K)] of [A = np.zeros((p, K, K))]:
        [M] is broadcast to the slot. *)
Definition assign_slot (i : Z) (M : matrix) (A : list matrix) : res (list matrix) :=
      let n := Z.of_nat (length A) in
      if ((i <? - n) || (n <=? i))%Z then Raise (IndexError "index out of bounds")
      else
        let i := Z.to_nat (if (i <? 0)%Z then i + n else i)%Z in
        let k := Z.to_nat self.(K) in
        if ((shape0 M =? k) || (shape0 M =? 1)) && ((shape1 M =? k) || (shape1 M =? 1))
        then Ok (assign_nth i (map (stretch k) (stretch k M)) A)
        else value_error "could not broadcast input array".

(** [var_repr] *)
Definition var_repr : res (list matrix) :=
      pi <- dot self.(alpha) (transpose self.(beta)) ;;
      let gamma := self.(gamma) in
      let K := self.(K) in
      let p := self.(p) in
      slot <- np_zeros K K ;;
      A <- (if (p <? 0)%Z then value_error "negative dimensions are not allowed"
            else Ok (repeat slot (Z.to_nat p))) ;;
      id_K <- np_identity K ;;
      pi_id <- madd pi id_K ;;
      A0 <- madd pi_id (cols_slice None (Some K) gamma) ;;
      A <- assign_slot 0 A0 A ;;
      A <- assign_slot (p - 1) (mneg (cols_slice (Some (K * (p - 2))%Z) None gamma)) A ;;
      for_each (seq 1 (Z.to_nat (p - 1 - 1)))
        (fun i A =>
           let i := Z.of_nat i in
           Ai <- msub (cols_slice (Some (K * i)%Z) (Some (K * (i + 1))%Z) gamma)
                      (cols_slice (Some (K * (i - 1))%Z) (Some (K * i)%Z) gamma) ;;
           assign_slot i Ai A)
        A.
End Derived.
End Container.
End VECMResults.

(* ================================================================== *)
(** * The model class *)

Module VECM.
Section Model.
Context {S : Scalar} {L : LinAlg}.

(** The attributes of a model object: [y] and [neqs] are set by
      [__init__], [p] by [fit] (absent until the first call). *)
Record t : Type := {
    y : matrix;
    neqs : Z;
    p : option Z
  }.

(** What [fit] returns: a dictionary of arrays or a results object. *)
Inductive fitted : Type :=
  | Dict (items : list (string * matrix))
  | Results (est : VECMResults.t).

(** [VECM.__init__] for a two-dimensional [endog] (observations in rows). *)
Definition __init__ (endog : matrix) : t :=
    {| y := transpose endog; neqs := Z.of_nat (shape1 endog); p := None |}.

(** [1/(T-K*p)] on Python ints. *)
Definition inv_dof (T K p : Z) : res R :=
    if (T - K * p =? 0)%Z then Raise ZeroDivisionError
    else Ok (rdiv (rofZ 1) (rofZ (T - K * p))).

(** [_ls_pi_gamma] *)
Definition _ls_pi_gamma (delta_y_1_T y_min1 delta_x : matrix) (diff_lags : Z)
             (deterministic : string) : res (matrix * matrix * matrix) :=
    let K := Z.of_nat (shape0 delta_y_1_T) in
    let T := Z.of_nat (shape1 delta_y_1_T) in
    m11 <- dot delta_y_1_T (transpose y_min1) ;;
    m12 <- dot delta_y_1_T (transpose delta_x) ;;
    mat1 <- hstack m11 m12 ;;
    mat2 <- _block_matrix_ymin1_deltax y_min1 delta_x ;;
    est_pi_gamma <- dot mat1 mat2 ;;
    let pi_cols := K in
    let pi_cols := if str_in "cc" deterministic then (pi_cols + 1)%Z else pi_cols in
    let pi_cols := if str_in "lt" deterministic then (pi_cols + 1)%Z else pi_cols in
    let '(pi_hat, gamma_hat) := np_hsplit est_pi_gamma pi_cols in
    py <- dot pi_hat y_min1 ;;
    _A <- msub delta_y_1_T py ;;
    gx <- dot gamma_hat delta_x ;;
    _A <- msub _A gx ;;
    let p := (diff_lags + 1)%Z in
    c <- inv_dof T K p ;;
    AA <- dot _A (transpose _A) ;;
    let sigma_u_hat := mmap (rmul c) AA in
    Ok (pi_hat, gamma_hat, sigma_u_hat).

Section Methods.
Variable self : t.

(** [_estimate_vecm_ls] *)
Definition _estimate_vecm_ls (diff_lags : Z) (deterministic : string) : res fitted :=
      '(y_1_T, delta_y_1_T, y_min1, delta_x) <-
         _endog_matrices self.(y) diff_lags deterministic ;;
      '(pi_hat, gamma_hat, sigma_u_hat) <-
         _ls_pi_gamma delta_y_1_T y_min1 delta_x diff_lags deterministic ;;
      Ok (Dict [("Pi_hat"%string, pi_hat); ("Gamma_hat"%string, gamma_hat);
                ("Sigma_u_hat"%string, sigma_u_hat)]).

(** [_estimate_vecm_egls].  For [r <= 0] and [r >= K] the code forms the
      arrays [r1[:r]] or [r1[r:]] without rows; the lists below do not keep
      their column count, so the definition is meant for [1 <= r < K]. *)
Definition _estimate_vecm_egls (diff_lags : Z) (deterministic : string) (r : Z)
      : res fitted :=
      '(y_1_T, delta_y_1_T, y_min1, delta_x) <-
         _endog_matrices self.(y) diff_lags deterministic ;;
      let T := shape1 y_1_T in
      '(pi_hat, _gamma_hat, sigma_u_hat) <-
         _ls_pi_gamma delta_y_1_T y_min1 delta_x diff_lags deterministic ;;
      let alpha_hat := cols_slice None (Some r) pi_hat in
      '(r0, r1) <- _r_matrices T delta_x delta_y_1_T y_min1 ;;
      let r11 := rows_slice None (Some r) r1 in
      let r12 := rows_slice (Some r) None r1 in
      su_inv <- inv sigma_u_hat ;;
      _alpha_Sigma <- dot (transpose alpha_hat) su_inv ;;
      asa <- dot _alpha_Sigma alpha_hat ;;
      asa_inv <- inv asa ;;
      b <- dot asa_inv _alpha_Sigma ;;
      ar <- dot alpha_hat r11 ;;
      resid <- msub r0 ar ;;
      b <- dot b resid ;;
      b <- dot b (transpose r12) ;;
      rr <- dot r12 (transpose r12) ;;
      rr_inv <- inv rr ;;
      b <- dot b rr_inv ;;
      let beta_hhat := transpose b in
      id_r <- np_identity r ;;
      beta_hhat <- vstack id_r beta_hhat ;;
      Ok (Dict [("alpha"%string, alpha_hat); ("beta"%string, beta_hhat);
                ("Gamma"%string, _gamma_hat); ("Sigma_u"%string, sigma_u_hat)]).

(** [_estimate_vecm_ml].  For [r = 0] the code forms arrays without
      columns, whose transposes the lists below do not represent; the
      definition is meant for [r >= 1]. *)
Definition _estimate_vecm_ml (diff_lags : Z) (deterministic : string) (r : Z)
      : res fitted :=
      '(y_1_T, delta_y_1_T, y_min1, delta_x) <-
         _endog_matrices self.(y) diff_lags deterministic ;;
      let T := shape1 y_1_T in
      '(s00, s01, s10, s11, s11_, _, v) <- _sij delta_x delta_y_1_T y_min1 ;;
      vs <- dot (transpose (cols_slice None (Some r) v)) s11_ ;;
      let beta_tilde := transpose vs in
      lead_inv <- inv (rows_slice None (Some r) beta_tilde) ;;
      beta_tilde <- dot beta_tilde lead_inv ;;
      sb <- dot s01 beta_tilde ;;
      bs <- dot (transpose beta_tilde) s11 ;;
      bsb <- dot bs beta_tilde ;;
      bsb_inv <- inv bsb ;;
      alpha_tilde <- dot sb bsb_inv ;;
      ab <- dot alpha_tilde (transpose beta_tilde) ;;
      aby <- dot ab y_min1 ;;
      resid <- msub delta_y_1_T aby ;;
      g <- dot resid (transpose delta_x) ;;
      xx <- dot delta_x (transpose delta_x) ;;
      xx_inv <- inv xx ;;
      gamma_tilde <- dot g xx_inv ;;
      gx <- dot gamma_tilde delta_x ;;
      temp <- msub resid gx ;;
      tt <- dot temp (transpose temp) ;;
      let sigma_u_tilde := mmap (fun x => rdiv x (rofZ (Z.of_nat T))) tt in
      p <- match self.(p) with
           | Some p => Ok p
           | None => Raise (AttributeError "'VECM' object has no attribute 'p'")
           end ;;
      est <- VECMResults.__init__ self.(y) p r alpha_tilde beta_tilde gamma_tilde
               sigma_u_tilde deterministic (Some delta_y_1_T) (Some y_min1)
               (Some delta_x) ;;
      Ok (Results est).
End Methods.

(** The message of the [ValueError] raised by [fit]:
      ["%s not recognized, must be among %s" % (method, ("ls", "egls", "ml"))]. *)
Definition not_recognized (method : string) : string :=
    (method ++ " not recognized, must be among ('ls', 'egls', 'ml')")%string.

(** [fit(self, diff_lags=None, method="ml", deterministic="", coint_rank=1)].
      The call returns its value or exception together with the model
      object as the call leaves it. *)
Definition fit (self : t) (diff_lags : option Z) (method deterministic : string)
             (coint_rank : option Z) : res fitted * t :=
    match diff_lags with
    | None => (Raise (TypeError "unsupported operand type(s) for +: 'NoneType' and 'int'"),
               self)
    | Some diff_lags =>
        let self := {| y := self.(y); neqs := self.(neqs); p := Some (diff_lags + 1)%Z |} in
        if String.eqb method "ls" then
          (_estimate_vecm_ls self diff_lags deterministic, self)
        else if String.eqb method "egls" then
          let coint_rank := match coint_rank with None => 1%Z | Some r => r end in
          (_estimate_vecm_egls self diff_lags deterministic coint_rank, self)
        else if String.eqb method "ml" then
          let coint_rank := match coint_rank with None => 1%Z | Some r => r end in
          (_estimate_vecm_ml self diff_lags deterministic coint_rank, self)
        else
          (Raise (ValueError (not_recognized method)), self)
    end.
End Model.
End VECM.

(* ================================================================== *)
(** * A sample instance over the rationals

    Exact rational arithmetic, every result reduced to lowest terms so
    that equal numbers are equal terms.  The transcendental functions are
    rational approximations.  The matrix inverse is computed by
    Gauss-Jordan elimination and checked before it is returned; the
    decompositions are the exact ones of diagonal matrices and raise on
    any other argument.  The instance serves to run the model. *)

Module Sample.
Local Open Scope Q_scope.

Definition qadd (a b : Q) : Q := Qred (a + b).
Definition qsub (a b : Q) : Q := Qred (a - b).
Definition qmul (a b : Q) : Q := Qred (a * b).
Definition qdiv (a b : Q) : Q := Qred (a / b).
Definition qopp (a : Q) : Q := Qred (- a).
Definition qabs (a : Q) : Q := Qred (Qabs a).

(** Square root to six decimal places (exact on squares of such numbers). *)
Definition qsqrt (a : Q) : Q :=
    if Qle_bool a 0 then 0
    else Qred (Z.sqrt (Qnum a * Zpos (Qden a) * 10 ^ 12) # (Qden a * 10 ^ 6)).

(** Two terms of [ln a = 2 (z + z^3/3 + ...)], [z = (a-1)/(a+1)]. *)
Definition qlog (a : Q) : Q :=
    if Qle_bool a 0 then - (1000000 # 1)
    else let z := (a - 1) / (a + 1) in Qred (2 * (z + z * z * z / 3)).

Definition qmath_log (a : Q) : res Q :=
    if Qle_bool a 0 then Raise (ValueError "math domain error") else Ok (qlog a).

(** A rational sigmoid in place of the normal distribution function. *)
Definition qnorm_cdf (a : Q) : Q := Qred ((1 # 2) + a / (2 * (1 + Qabs a))).

Definition QScalar : Scalar :=
    {| R := Q; rofZ := inject_Z; radd := qadd; rsub := qsub; rmul := qmul;
       rdiv := qdiv; ropp := qopp; rabs := qabs; rpi := 355 # 113;
       np_sqrt := qsqrt; np_log := qlog; math_log := qmath_log;
       norm_cdf := qnorm_cdf; rtruth := fun a => negb (Qeq_bool a 0) |}.

(** Equality of reduced rationals, of rows and of matrices. *)
Definition q_eqb (a b : Q) : bool :=
    (Qnum a =? Qnum b)%Z && (Qden a =? Qden b)%positive.

Fixpoint list_eqb (A : Type) (eqb : A -> A -> bool) (l m : list A) : bool :=
    match l, m with
    | [], [] => true
    | x :: l', y :: m' => eqb x y && list_eqb eqb l' m'
    | _, _ => false
    end.

Definition matrix_eqb (M N : list (list Q)) : bool := list_eqb (list_eqb q_eqb) M N.

(** ** Gauss-Jordan elimination on [[M | I]] *)

Fixpoint find_pivot (k : nat) (rows : list (list Q))
    : option (list Q * list (list Q)) :=
    match rows with
    | [] => None
    | row :: rest =>
        if Qeq_bool (nth k row 0) 0
        then match find_pivot k rest with
             | Some (pr, others) => Some (pr, row :: others)
             | None => None
             end
        else Some (row, rest)
    end.

Fixpoint gauss_jordan (cols : list nat) (done todo : list (list Q))
    : option (list (list Q)) :=
    match cols with
    | [] => Some done
    | k :: cols' =>
        match find_pivot k todo with
        | None => None
        | Some (pr, others) =>
            let pr := map (fun x => Qred (x / nth k pr 0)) pr in
            let elim row := zip_with (fun x y => Qred (x - nth k row 0 * y)) row pr in
            gauss_jordan cols' (map elim done ++ [pr]) (map elim others)
        end
    end.

Definition q_inv (M : @matrix QScalar) : res (@matrix QScalar) :=
    let n := length M in
    if negb (@rectb QScalar n M) then Raise LinAlgError
    else match gauss_jordan (seq 0 n) [] (zip_with (@app Q) M (@identity QScalar n)) with
         | None => Raise LinAlgError
         | Some rows =>
             let X := map (skipn n) rows in
             match @dot QScalar M X with
             | Ok P => if matrix_eqb P (@identity QScalar n) && (length X =? n)%nat
                       then Ok X else Raise LinAlgError
             | Raise e => Raise e
             end
         end.

(** Determinant by expansion along the first row. *)
Fixpoint drop_nth (A : Type) (j : nat) (l : list A) : list A :=
    match l, j with
    | [], _ => []
    | _ :: l', O => l'
    | x :: l', Datatypes.S j' => x :: drop_nth j' l'
    end.

Fixpoint laplace (fuel : nat) (M : list (list Q)) : Q :=
    match fuel, M with
    | Datatypes.S fuel', row :: rest =>
        fold_left qadd
          (map (fun j => qmul (qmul (if Nat.even j then 1 else - (1)) (nth j row 0))
                              (laplace fuel' (map (drop_nth j) rest)))
               (seq 0 (length row)))
          0
    | _, _ => 1
    end.

Definition q_det (M : @matrix QScalar) : res Q :=
    if @rectb QScalar (length M) M then Ok (laplace (length M) M) else Raise LinAlgError.

(** Diagonal matrices are their own decompositions. *)
Definition is_diagonal (M : list (list Q)) : bool :=
    let n := length M in
    @rectb QScalar n M
    && forallb (fun i => forallb (fun j => (i =? j)%nat || Qeq_bool (nth j (nth i M []) 0) 0)
                                 (seq 0 n))
               (seq 0 n).

Definition q_svd (M : @matrix QScalar)
    : res (@matrix QScalar * @vector QScalar * @matrix QScalar) :=
    if is_diagonal M
    then Ok (@identity QScalar (length M), @diag_of_matrix QScalar M,
             @identity QScalar (length M))
    else Raise LinAlgError.

Definition q_eig (M : @matrix QScalar) : res (@vector QScalar * @matrix QScalar) :=
    if is_diagonal M
    then Ok (@diag_of_matrix QScalar M, @identity QScalar (length M))
    else Raise LinAlgError.

Definition QLinAlg : @LinAlg QScalar :=
    {| inv := q_inv; svd := q_svd; eig := q_eig; det := q_det |}.

(** A bivariate series of eight observations (observations in rows). *)
Definition endog8 : @matrix QScalar :=
    map (map inject_Z)
        [[-2; -2]; [-1; -1]; [2; -1]; [0; 0]; [1; 2]; [1; -1]; [2; -2]; [-1; 1]]%Z.

Definition model8 : @VECM.t QScalar := @VECM.__init__ QScalar endog8.
End Sample.

(* ================================================================== *)
(** * Definitions for the statements *)

Section StatementDefs.
Context {S : Scalar}.
Local Open Scope string_scope.
Local Open Scope list_scope.

(** The assignments [A[i] = f i] for the indices [i] of [l], in order. *)
Definition assign_all (f : nat -> matrix) (l : list nat) (A : list matrix)
  : list matrix :=
  fold_left (fun B i => assign_nth i (f i) B) l A.

(** The seasonal indicator of row [i] at column [j], after the rotation. *)
Definition indicator (i j : nat) : R :=
  if ((j + 1) mod 4 =? i)%nat then rone else rzero.

(** The rows the builder appends for the seasonal terms. *)
Definition seasonal_pattern (T : nat) : matrix :=
  map (fun i => map (fun j => rsub (indicator i j) (rdiv (rofZ 1) (rofZ 4))) (seq 0 T))
      [0; 1; 2].

(** The optional rows of a deterministic specification. *)
Definition cc_rows (deterministic : string) (T : nat) : matrix :=
  if str_in "cc" deterministic then [np_ones T] else [].
Definition co_rows (deterministic : string) (T : nat) : matrix :=
  if str_in "co" deterministic then [np_ones T] else [].
Definition s_rows (deterministic : string) (T : nat) : matrix :=
  if str_in "s" deterministic then seasonal_pattern T else [].
Definition lt_rows (deterministic : string) (T : nat) : matrix :=
  if str_in "lt" deterministic then [arange_plus_1 T] else [].

(** The closed form of the specification:
    [- K T log(2 pi) / 2 - T (log det S00 + sum_i log(1 - lambda_i)) / 2 - K T / 2],
    the sum running over the eigenvalues [eigs]. *)
Definition llf_closed_form (K T : Z) (log_2pi log_det : R) (eigs : vector) : R :=
  rsub (rsub (rdiv (rmul (rofZ (- K * T)) log_2pi) (rofZ 2))
             (rdiv (rmul (rofZ T)
                         (radd log_det
                               (rsum (map (fun l => np_log (rsub (rofZ 1) l)) eigs))))
                   (rofZ 2)))
       (rdiv (rofZ (K * T)) (rofZ 2)).

(** The derived matrices a constructed container holds. *)
Definition held (v : res VECMResults.t)
  : option (option matrix * option matrix * option matrix) :=
  match v with
  | Ok est => Some (VECMResults.delta_y_1_T est, VECMResults.y_min1 est,
                    VECMResults.delta_x est)
  | Raise _ => None
  end.

(** The derived matrices the builder returns. *)
Definition built (v : res (matrix * matrix * matrix * matrix))
  : option (option matrix * option matrix * option matrix) :=
  match v with
  | Ok (_, dy, ym, dx) => Some (Some dy, Some ym, Some dx)
  | Raise _ => None
  end.

End StatementDefs.

(** What the routines of the rational sample provide, in exact
    arithmetic: a returned inverse is a right inverse of its argument
    and has as many rows; the first factor of a singular-value
    decomposition has as many rows as its argument; the eigenvectors of
    a matrix with [n] rows form an [n x n] matrix.  The first of these
    is not a property of binary64 routines, which round; the general
    theorems assume shapes only ([ShapedLinAlg] below). *)
Record ExactLinAlg {S : Scalar} (L : LinAlg) : Prop := {
  inv_right : forall M X, inv M = Ok X -> dot M X = Ok (identity (length M));
  inv_rows : forall M X, inv M = Ok X -> length X = length M;
  svd_rows : forall M u s v, svd M = Ok (u, s, v) -> length u = length M;
  eig_shape : forall M lambd v,
      eig M = Ok (lambd, v) -> length v = length M /\ rect (length M) v
}.

(** The entries of a seasonal row: [3/4] at its season, [-1/4] elsewhere. *)
Definition seasonal_entry (i j : nat) : Q :=
  if ((j + 1) mod 4 =? i)%nat then (3 # 4)%Q else (- 1 # 4)%Q.

(* ================================================================== *)
(** * The sample model and what is observed of it *)

Module Run.
Import Sample.
Local Open Scope string_scope.

(** The estimate [fit(1, "ml", "", 1)] returns on the sample series. *)
Definition est8 : @VECMResults.t QScalar :=
  {| VECMResults.y_all := VECM.y model8;
     VECMResults.K := 2;
     VECMResults.p := 2;
     VECMResults.deterministic := "";
     VECMResults.r := 1;
     VECMResults.alpha := [[-7 # 6]; [7 # 12]]%Q;
     VECMResults.beta := [[1]; [0]]%Q;
     VECMResults.det_coef_coint := [];
     VECMResults.gamma := [[1 # 12; -1 # 24]; [-17 # 48; -5 # 48]]%Q;
     VECMResults.det_coef := [[]; []];
     VECMResults.sigma_u := [[65 # 36; -65 # 72]; [-65 # 72; 1003 # 288]]%Q;
     VECMResults.delta_y_1_T := Some [[3; -2; 1; 0; 1; -3]; [0; 1; 2; -3; -1; 3]]%Q;
     VECMResults.y_min1 := Some [[-1; 2; 0; 1; 1; 2]; [-1; -1; 0; 2; -1; -2]]%Q;
     VECMResults.delta_x := Some [[1; 3; -2; 1; 0; 1]; [1; 0; 1; 2; -3; -1]]%Q;
     VECMResults.T := 6 |}.

(** The keys of a returned dictionary. *)
Definition dict_keys (v : res (@VECM.fitted QScalar)) : option (list string) :=
  match v with
  | Ok (VECM.Dict items) => Some (map fst items)
  | _ => None
  end.

Definition is_results (v : res (@VECM.fitted QScalar)) : bool :=
  match v with
  | Ok (VECM.Results _) => true
  | _ => false
  end.

(** The exception of a call that raised. *)
Definition raised (A : Type) (v : res A) : option exn :=
  match v with
  | Raise e => Some e
  | Ok _ => None
  end.

(** The entry of a returned dictionary under a key. *)
Fixpoint lookup (key : string) (items : list (string * @matrix QScalar))
  : option (@matrix QScalar) :=
  match items with
  | [] => None
  | (k, M) :: items' => if String.eqb k key then Some M else lookup key items'
  end.

Definition dict_entry (key : string) (v : res (@VECM.fitted QScalar))
  : option (@matrix QScalar) :=
  match v with
  | Ok (VECM.Dict items) => lookup key items
  | _ => None
  end.

(** [alpha.dot(beta.T)] of a returned results object. *)
Definition pi_of_results (v : res (@VECM.fitted QScalar)) : option (@matrix QScalar) :=
  match v with
  | Ok (VECM.Results est) =>
      match @dot QScalar (VECMResults.alpha est)
                 (@transpose QScalar (VECMResults.beta est)) with
      | Ok M => Some M
      | Raise _ => None
      end
  | _ => None
  end.
End Run.

Module RunInit.
Import Sample.
Local Open Scope string_scope.

Definition rows_of_delta_x
           (h : option (option (@matrix QScalar) * option (@matrix QScalar)
                        * option (@matrix QScalar))) : option nat :=
  match h with
  | Some (_, _, Some dx) => Some (@shape0 QScalar dx)
  | _ => None
  end.

(** The container of [Run.est8], built again from its estimates with the
    derived matrices omitted. *)
Definition rebuilt (level_var_lag_order : Z) (deterministic : string)
  : res (@VECMResults.t QScalar) :=
  @VECMResults.__init__ QScalar (VECM.y model8) level_var_lag_order 1
     [[-7 # 6]; [7 # 12]]%Q [[1]; [0]]%Q
     [[1 # 12; -1 # 24]; [-17 # 48; -5 # 48]]%Q
     [[65 # 36; -65 # 72]; [-65 # 72; 1003 # 288]]%Q
     deterministic None None None.
End RunInit.

Module RunVar.
Import Sample.
Local Open Scope string_scope.

(** A container with two equations, rank one and VAR order three. *)
Definition est_p3 : @VECMResults.t QScalar :=
  {| VECMResults.y_all := VECM.y model8;
     VECMResults.K := 2;
     VECMResults.p := 3;
     VECMResults.deterministic := "";
     VECMResults.r := 1;
     VECMResults.alpha := [[-1 # 2]; [1 # 4]]%Q;
     VECMResults.beta := [[1]; [-2]]%Q;
     VECMResults.det_coef_coint := [];
     VECMResults.gamma := [[1; 2; 3; 4]; [5; 6; 7; 8]]%Q;
     VECMResults.det_coef := [[]; []];
     VECMResults.sigma_u := [[1; 0]; [0; 1]]%Q;
     VECMResults.delta_y_1_T := None;
     VECMResults.y_min1 := Some [[0; 0; 0; 0; 0]; [0; 0; 0; 0; 0]]%Q;
     VECMResults.delta_x := None;
     VECMResults.T := 5 |}.

Definition var_matrices (v : res (list (@matrix QScalar))) : list (@matrix QScalar) :=
  match v with
  | Ok A => A
  | Raise _ => []
  end.
End RunVar.

Module RunLlf.
Import Sample.

(** The eigenvalues [_sij] returns for the matrices of a container. *)
Definition eigenvalues (self : @VECMResults.t QScalar) : option (@vector QScalar) :=
  match VECMResults.delta_x self, VECMResults.delta_y_1_T self,
        VECMResults.y_min1 self with
  | Some dx, Some dy, Some ym =>
      match @_sij QScalar QLinAlg dx dy ym with
      | Ok (_, _, _, _, _, lambd, _) => Some lambd
      | Raise _ => None
      end
  | _, _, _ => None
  end.

Definition log_2pi : Q := qlog (qmul 2 (355 # 113)).
Definition log_det_s00 : Q := qlog (5529 # 576).
End RunLlf.

(* ================================================================== *)
(** * A sample instance in binary64 arithmetic

    The entries of the arrays as they are at run time: IEEE 754 binary64
    numbers with the correctly rounded addition, subtraction,
    multiplication, division and square root of the processor.  The
    logarithm and the normal distribution function are computed by the C
    library and by SciPy, with digits that the arithmetic does not
    determine; the instance answers [nan] for them, and nothing below
    evaluates them.

    The library routines are given for diagonal matrices, where the
    arithmetic determines what LAPACK returns.  The LU factorisation of
    a diagonal matrix eliminates nothing, so its inverse holds the
    quotients [1/d] on the diagonal.  A diagonal matrix is its own
    bidiagonal form: when its entries are non-negative and in descending
    order they are its singular values, with identity factors.  It is
    also its own Schur form: its entries are its eigenvalues, in order,
    with the unit vectors as eigenvectors.  For other matrices the
    digits returned depend on the LAPACK build, and the instance raises;
    it raises for determinants too, which NumPy computes through
    logarithms. *)

Module Binary64.
Local Open Scope string_scope.

(** [float(z)] for a Python int below [2^63]. *)
Definition f_ofZ (z : Z) : PrimFloat.float :=
    if (z <? 0)%Z then PrimFloat.opp (PrimFloat.of_uint63 (Uint63.of_Z (- z)))
    else PrimFloat.of_uint63 (Uint63.of_Z z).

Definition FScalar : Scalar :=
    {| R := PrimFloat.float; rofZ := f_ofZ;
       radd := PrimFloat.add; rsub := PrimFloat.sub;
       rmul := PrimFloat.mul; rdiv := PrimFloat.div;
       ropp := PrimFloat.opp; rabs := PrimFloat.abs;
       (* math.pi = 884279719003555 * 2^-48 *)
       rpi := PrimFloat.div (f_ofZ 884279719003555) (f_ofZ 281474976710656);
       np_sqrt := PrimFloat.sqrt;
       np_log := fun _ => PrimFloat.nan;
       math_log := fun _ => Ok PrimFloat.nan;
       norm_cdf := fun _ => PrimFloat.nan;
       rtruth := fun x => negb (PrimFloat.eqb x PrimFloat.zero) |}.

(** Equality of arrays entry by entry, with the equality of the
      arithmetic ([np.array_equal]). *)
Definition matrix_eqb (M N : list (list PrimFloat.float)) : bool :=
    Sample.list_eqb (Sample.list_eqb PrimFloat.eqb) M N.

Definition is_diagonal (M : @matrix FScalar) : bool :=
    let n := length M in
    @rectb FScalar n M
    && forallb (fun i =>
                  forallb (fun j => (i =? j)%nat
                                    || PrimFloat.eqb (nth j (nth i M []) PrimFloat.zero)
                                                     PrimFloat.zero)
                          (seq 0 n))
               (seq 0 n).

Fixpoint descending (l : list PrimFloat.float) : bool :=
    match l with
    | x :: (y :: _) as t => PrimFloat.leb y x && descending t
    | _ => true
    end.

Definition f_inv (M : @matrix FScalar) : res (@matrix FScalar) :=
    let d := @diag_of_matrix FScalar M in
    if is_diagonal M && forallb (fun x => negb (PrimFloat.eqb x PrimFloat.zero)) d
    then Ok (@diag_of_vector FScalar (map (PrimFloat.div PrimFloat.one) d))
    else Raise LinAlgError.

Definition f_svd (M : @matrix FScalar)
    : res (@matrix FScalar * @vector FScalar * @matrix FScalar) :=
    let d := @diag_of_matrix FScalar M in
    if is_diagonal M && forallb (PrimFloat.leb PrimFloat.zero) d && descending d
    then Ok (@identity FScalar (length M), d, @identity FScalar (length M))
    else Raise LinAlgError.

Definition f_eig (M : @matrix FScalar) : res (@vector FScalar * @matrix FScalar) :=
    if is_diagonal M
    then Ok (@diag_of_matrix FScalar M, @identity FScalar (length M))
    else Raise LinAlgError.

Definition f_det (M : @matrix FScalar) : res PrimFloat.float := Raise LinAlgError.

Definition FLinAlg : @LinAlg FScalar :=
    {| inv := f_inv; svd := f_svd; eig := f_eig; det := f_det |}.

(** A bivariate series of eighteen observations (observations in rows):
      a spike in the first variable, then a pulse in the second. *)
Definition endog18 : @matrix FScalar :=
    map (map f_ofZ)
        [[0; 0]; [0; 0]; [4; 0]; [0; 0]; [0; 0]; [0; 0]; [0; 0]; [0; 1]; [0; 1];
         [0; 1]; [0; 1]; [0; 1]; [0; 1]; [0; 1]; [0; 1]; [0; 0]; [0; 0]; [0; 0]]%Z.

Definition model18 : @VECM.t FScalar := @VECM.__init__ FScalar endog18.

(** The [beta] of a returned results object. *)
Definition beta_of (v : res (@VECM.fitted FScalar))
    : option (list (list PrimFloat.float)) :=
    match v with
    | Ok (VECM.Results est) => Some (VECMResults.beta est)
    | _ => None
    end.

(** The moment matrix [s11], its inverse square root [s11_] and the
      eigenvectors, as [_sij] returns them for the matrices of a series. *)
Definition s11_of (y : @matrix FScalar) (diff_lags : Z) (deterministic : string)
    : option (list (list PrimFloat.float) * list (list PrimFloat.float)
              * list (list PrimFloat.float)) :=
    match @_endog_matrices FScalar y diff_lags deterministic with
    | Ok (_, dy, ym, dx) =>
        match @_sij FScalar FLinAlg dx dy ym with
        | Ok (_, _, _, s11, s11_, _, v) => Some (s11, s11_, v)
        | Raise _ => None
        end
    | Raise _ => None
    end.
End Binary64.

(** The sample series with its first variable doubled: the leading block
    of the unnormalised [beta] is then [1/2]. *)
Module RunNorm.
Import Sample.

Definition endog8_doubled : @matrix QScalar :=
    map (map inject_Z)
        [[-4; -2]; [-2; -1]; [4; -1]; [0; 0]; [2; 2]; [2; -1]; [4; -2]; [-2; 1]]%Z.

Definition model8_doubled : @VECM.t QScalar :=
    {| VECM.y := @transpose QScalar endog8_doubled; VECM.neqs := 2;
       VECM.p := Some 2%Z |}.
End RunNorm.

(* ================================================================== *)
(** * The reader of the JMulTi reference output

    [tests/results_JMulTi/parse_jmulti_output.py] names the reference
    files after the deterministic terms of a model and decides which
    sections of a file it will read. *)

Module JMulTi.
Local Open Scope string_scope.
Local Open Scope list_scope.

(** [s[a:b]] on a Python string. *)
Definition str_slice (a b : option Z) (s : string) : string :=
  string_of_list_ascii (py_slice a b (list_ascii_of_string s)).

(** [dt_s_tup_to_string(dt_s_tup)]: the tuple holds the deterministic
    terms and the number of seasons. *)
Definition dt_s_tup_to_string (dt_s_tup : string * Z) : string :=
  let dt_string := fst dt_s_tup in
  if (snd dt_s_tup >? 0)%Z then
    if str_in "co" dt_string || str_in "ci" dt_string || str_in "nc" dt_string
    then ((str_slice None (Some 2%Z) dt_string ++ "s")
            ++ str_slice (Some 2%Z) None dt_string)%string
    else ("s" ++ dt_string)%string
  else dt_string.

(** [del l[i]] *)
Definition py_del (A : Type) (i : Z) (l : list A) : res (list A) :=
  let n := Z.of_nat (length l) in
  if ((i <? - n) || (n <=? i))%Z
  then Raise (IndexError "list assignment index out of range")
  else let i := Z.to_nat (if (i <? 0)%Z then i + n else i)%Z in
       Ok (firstn i l ++ skipn (Datatypes.S i) l).

(** The two lists [load_results_jmulti] sets up for a file before it
    reads it: the headers of the sections of the JMulTi output, and the
    keys under which the values of each section are stored. *)
Definition section_lists (dt_string : string) : res (list string * list string) :=
  let section_header := ["Lagged endogenous term";
                         "Deterministic term";
                         "Loading coefficients";
                         "Estimated cointegration relation";
                         "Legend";
                         "Lagged endogenous term";
                         "Deterministic term"] in
  let sections := ["Gamma"; "C"; "alpha"; "beta"; "Legend"; "VAR A";
                   "VAR deterministic"] in
  if negb (str_in "co" dt_string) && negb (str_in "lo" dt_string)
     && negb (str_in "s" dt_string)
  then
    section_header <- py_del 1 section_header ;;
    sections <- py_del 1 sections ;;
    if negb (str_in "ci" dt_string) && negb (str_in "li" dt_string)
    then
      section_header <- py_del (-1) section_header ;;
      sections <- py_del (-1) sections ;;
      Ok (section_header, sections)
    else Ok (section_header, sections)
  else Ok (section_header, sections).
End JMulTi.

(* ================================================================== *)
(** * Further sample inputs *)

Module Sample6.
Import Sample.

(** The first six observations of the sample series: with one lagged
    difference four sample columns remain, as many as there are
    regressors. *)
Definition endog6 : @matrix QScalar := firstn 6 endog8.
Definition model6 : @VECM.t QScalar := @VECM.__init__ QScalar endog6.
End Sample6.

Module RunCoint.
Import Sample.
Local Open Scope string_scope.

(** A container of two equations and rank two whose cointegration
    relation holds a constant: [beta] is the identity, and
    [det_coef_coint] has one row. *)
Definition est_cc : @VECMResults.t QScalar :=
  {| VECMResults.y_all := VECM.y model8;
     VECMResults.K := 2;
     VECMResults.p := 2;
     VECMResults.deterministic := "cc";
     VECMResults.r := 2;
     VECMResults.alpha := [[-1 # 2; 0]; [1 # 4; -1]]%Q;
     VECMResults.beta := [[1; 0]; [0; 1]]%Q;
     VECMResults.det_coef_coint := [[1 # 3; -2]]%Q;
     VECMResults.gamma := [[1; 2]; [3; 4]]%Q;
     VECMResults.det_coef := [[]; []];
     VECMResults.sigma_u := [[1; 0]; [0; 1]]%Q;
     VECMResults.delta_y_1_T := Some [[3; -2; 1; 0; 1; -3]; [0; 1; 2; -3; -1; 3]]%Q;
     VECMResults.y_min1 :=
       Some [[-1; 2; 0; 1; 1; 2]; [-1; -1; 0; 2; -1; -2]; [1; 1; 1; 1; 1; 1]]%Q;
     VECMResults.delta_x := Some [[1; 3; -2; 1; 0; 1]; [1; 0; 1; 2; -3; -1]]%Q;
     VECMResults.T := 6 |}.
End RunCoint.

Module RunOrder1.
Import Sample.
Local Open Scope string_scope.

(** A container of VAR order one: no lagged differences, so [gamma] has
    no column. *)
Definition est_p1 : @VECMResults.t QScalar :=
  {| VECMResults.y_all := VECM.y model8;
     VECMResults.K := 2;
     VECMResults.p := 1;
     VECMResults.deterministic := "";
     VECMResults.r := 1;
     VECMResults.alpha := [[-1 # 2]; [1 # 4]]%Q;
     VECMResults.beta := [[1]; [-2]]%Q;
     VECMResults.det_coef_coint := [];
     VECMResults.gamma := [[]; []];
     VECMResults.det_coef := [[]; []];
     VECMResults.sigma_u := [[1; 0]; [0; 1]]%Q;
     VECMResults.delta_y_1_T := None;
     VECMResults.y_min1 := Some [[0; 0; 0; 0; 0]; [0; 0; 0; 0; 0]]%Q;
     VECMResults.delta_x := None;
     VECMResults.T := 5 |}.
End RunOrder1.

(* ================================================================== *)
(** * The shapes the linear-algebra routines return

    Whatever the arithmetic, [numpy.linalg.inv] returns a matrix with as
    many rows and columns as its argument has rows, the first factor of
    a reduced singular-value decomposition has the rows of its argument,
    and the eigenvectors of a matrix with [n] rows form an [n x n]
    matrix. *)
Record ShapedLinAlg {S : Scalar} (L : LinAlg) : Prop := {
  inv_shape : forall M X : matrix,
      inv M = Ok X -> length X = length M /\ shape1 X = length M;
  svd_shape : forall (M u v : matrix) (s : vector),
      svd M = Ok (u, s, v) -> length u = length M;
  eig_vectors : forall (M v : matrix) (lambd : vector),
      eig M = Ok (lambd, v) -> length v = length M /\ rect (length M) v
}.

(* ================================================================== *)
(** * Results and binds *)

Lemma bind_Ok : forall (A B : Type) (c : res A) (k : A -> res B) (b : B),
    bind c k = Ok b -> exists a, c = Ok a /\ k a = Ok b.
Proof.
  intros A B [a | e] k b H; simpl in H.
  - exists a; split; [reflexivity | exact H].
  - discriminate H.
Qed.

(** [Run.est8] is what [fit(1, "ml", "", 1)] returns on the sample series. *)
Lemma fit_ml_est8 :
  fst (@VECM.fit Sample.QScalar Sample.QLinAlg Sample.model8
         (Some 1%Z) "ml"%string ""%string (Some 1%Z))
  = Ok (VECM.Results Run.est8).
Proof. reflexivity. Qed.

(* ================================================================== *)
(** * Slices, lengths and shapes *)

Section SliceFacts.
Variable A : Type.
Implicit Types l : list A.

Lemma firstn_ge_length : forall l n, length l <= n -> firstn n l = l.
Proof.
    induction l as [| x l IH]; intros [| n] H; simpl in *; try reflexivity; try lia.
    f_equal. apply IH. lia.
Qed.

Lemma skipn_ge_length : forall l n, length l <= n -> skipn n l = [].
Proof.
    induction l as [| x l IH]; intros [| n] H; simpl in *; try reflexivity; try lia.
    apply IH. lia.
Qed.

Lemma py_slice_nat : forall l (a b : nat),
      py_slice (Some (Z.of_nat a)) (Some (Z.of_nat b)) l = firstn (b - a) (skipn a l).
Proof.
    intros l a b. unfold py_slice, clamp_index.
    destruct (Z.ltb_spec (Z.of_nat a) 0) as [Ha | Ha]; [lia |].
    destruct (Z.ltb_spec (Z.of_nat b) 0) as [Hb | Hb]; [lia |].
    destruct (Nat.le_gt_cases a (length l)) as [Hal | Hal].
    - replace (Z.to_nat (Z.min (Z.of_nat a) (Z.of_nat (length l)))) with a by lia.
      destruct (Nat.le_gt_cases b (length l)) as [Hbl | Hbl].
      + f_equal. lia.
      + rewrite !firstn_ge_length; try reflexivity; rewrite length_skipn; lia.
    - replace (Z.to_nat (Z.min (Z.of_nat a) (Z.of_nat (length l)))) with (length l) by lia.
      rewrite !skipn_ge_length by lia. now rewrite !firstn_nil.
Qed.

Lemma py_slice_to : forall l (r : Z),
      (0 <= r)%Z -> py_slice None (Some r) l = firstn (Z.to_nat r) l.
Proof.
    intros l r Hr. unfold py_slice, clamp_index.
    destruct (Z.ltb_spec r 0) as [H | H]; [lia |]. simpl skipn.
    destruct (Z.le_gt_cases r (Z.of_nat (length l))) as [Hl | Hl].
    - f_equal. lia.
    - rewrite !firstn_ge_length; try reflexivity; lia.
Qed.

Lemma py_slice_from : forall l (a : Z),
      (0 <= a)%Z -> py_slice (Some a) None l = skipn (Z.to_nat a) l.
Proof.
    intros l a Ha. unfold py_slice, clamp_index.
    destruct (Z.ltb_spec a 0) as [H | H]; [lia |].
    destruct (Z.le_gt_cases a (Z.of_nat (length l))) as [Hl | Hl].
    - replace (Z.to_nat (Z.min a (Z.of_nat (length l)))) with (Z.to_nat a) by lia.
      apply firstn_ge_length. rewrite length_skipn. lia.
    - replace (Z.to_nat (Z.min a (Z.of_nat (length l)))) with (length l) by lia.
      rewrite !skipn_ge_length by lia. apply firstn_nil.
Qed.

Lemma py_slice_range : forall l (a b : Z),
      (0 <= a)%Z -> (0 <= b)%Z ->
      py_slice (Some a) (Some b) l = firstn (Z.to_nat b - Z.to_nat a) (skipn (Z.to_nat a) l).
Proof.
    intros l a b Ha Hb.
    rewrite <- (Z2Nat.id a Ha) at 1. rewrite <- (Z2Nat.id b Hb) at 1.
    apply py_slice_nat.
Qed.

(** The last [k] entries, [l[-k:]], of a list that has at least [k]. *)
Lemma py_slice_last : forall l (k : nat),
      0 < k -> k <= length l ->
      py_slice (Some (- Z.of_nat k)%Z) None l = skipn (length l - k) l.
Proof.
    intros l k Hk Hl. unfold py_slice, clamp_index.
    destruct (Z.ltb_spec (- Z.of_nat k) 0) as [H | H]; [| lia].
    replace (Z.to_nat (Z.max (- Z.of_nat k + Z.of_nat (length l)) 0))
      with (length l - k) by lia.
    apply firstn_ge_length. rewrite length_skipn. lia.
Qed.

Lemma length_py_slice_range : forall l (a b : Z),
      (0 <= a <= b)%Z -> (b <= Z.of_nat (length l))%Z ->
      length (py_slice (Some a) (Some b) l) = Z.to_nat (b - a).
Proof.
    intros l a b Hab Hb. rewrite py_slice_range by lia.
    rewrite length_firstn, length_skipn. lia.
Qed.

Lemma length_assign_nth : forall l i (v : A), length (assign_nth i v l) = length l.
Proof.
    induction l as [| x l IH]; intros [| i] v; simpl; try reflexivity.
    now rewrite IH.
Qed.

Lemma nth_assign_nth_eq : forall l i (v d : A),
      i < length l -> nth i (assign_nth i v l) d = v.
Proof.
    induction l as [| x l IH]; intros [| i] v d H; simpl in *; try lia; try reflexivity.
    apply IH. lia.
Qed.

Lemma nth_assign_nth_neq : forall l i j (v d : A),
      i <> j -> nth j (assign_nth i v l) d = nth j l d.
Proof.
    induction l as [| x l IH]; intros [| i] [| j] v d H; simpl; try reflexivity; try lia.
    apply IH. lia.
Qed.

Lemma stretch_same : forall (n : nat) l, length l = n -> stretch n l = l.
Proof.
    intros n [| x [| y l]] H; simpl in *; try reflexivity. now subst n.
Qed.
End SliceFacts.

(* ================================================================== *)
(** * Running the sample model *)

(* ================================================================== *)
(** * Properties of [fit] *)

(** Inversion of a successful chain of binds. *)
Ltac inv_bind H :=
  repeat first
    [ let x := fresh "x" in
      let E := fresh "E" in
      apply bind_Ok in H; destruct H as (x & E & H)
    | match type of H with
      | context [match ?q with pair _ _ => _ end] => destruct q
      end ].

Section FitFacts.
Context {S : Scalar} {L : LinAlg}.
Local Open Scope string_scope.

Lemma str_in_cons : forall sub c s,
    str_in sub (String c s)
    = if String.prefix sub (String c s) then true else str_in sub s.
Proof. reflexivity. Qed.

Lemma str_in_app_r : forall sub pre s,
    str_in sub s = true -> str_in sub (pre ++ s) = true.
Proof.
  intros sub pre s H. induction pre as [| c pre IH].
  - exact H.
  - change (String c pre ++ s) with (String c (pre ++ s)).
    rewrite str_in_cons.
    destruct (String.prefix sub (String c (pre ++ s))); [reflexivity | exact IH].
Qed.

(** The least-squares estimator returns a dictionary of three arrays. *)
Lemma ls_returns_dict : forall (self : VECM.t) diff_lags deterministic v,
    VECM._estimate_vecm_ls self diff_lags deterministic = Ok v ->
    exists pi_hat gamma_hat sigma_u_hat,
      v = VECM.Dict [("Pi_hat", pi_hat); ("Gamma_hat", gamma_hat);
                     ("Sigma_u_hat", sigma_u_hat)].
Proof.
  intros self diff_lags deterministic v H.
  unfold VECM._estimate_vecm_ls in H. inv_bind H.
  injection H as <-. eauto.
Qed.

(** The EGLS estimator returns a dictionary of four arrays, never a
    results object. *)
Lemma egls_returns_dict : forall (self : VECM.t) diff_lags deterministic r v,
    VECM._estimate_vecm_egls self diff_lags deterministic r = Ok v ->
    exists a b g s,
      v = VECM.Dict [("alpha", a); ("beta", b); ("Gamma", g); ("Sigma_u", s)].
Proof.
  intros self diff_lags deterministic r v H.
  unfold VECM._estimate_vecm_egls in H. inv_bind H.
  injection H as <-. eauto.
Qed.

(** The maximum-likelihood estimator returns a results object. *)
Lemma ml_returns_results : forall (self : VECM.t) diff_lags deterministic r v,
    VECM._estimate_vecm_ml self diff_lags deterministic r = Ok v ->
    exists est, v = VECM.Results est.
Proof.
  intros self diff_lags deterministic r v H.
  unfold VECM._estimate_vecm_ml in H. inv_bind H.
  injection H as <-. eauto.
Qed.
End FitFacts.

(* ================================================================== *)
(** * What [fit] returns, and what it leaves behind *)

Section FitClaims.
Local Open Scope string_scope.

(** C1 (the code departs from the claim).  On the sample series
    [fit(1, "egls", "", 1)] returns a plain dictionary with the four keys
    [alpha], [beta], [Gamma], [Sigma_u], not a results object; the same
    call with ["ml"] returns a results object and with ["ls"] a
    dictionary with the three keys [Pi_hat], [Gamma_hat], [Sigma_u_hat]. *)
Theorem fit_egls_returns_plain_mapping :
  Run.dict_keys (fst (@VECM.fit Sample.QScalar Sample.QLinAlg Sample.model8
                        (Some 1%Z) "egls" "" (Some 1%Z)))
  = Some ["alpha"; "beta"; "Gamma"; "Sigma_u"]
  /\ Run.is_results (fst (@VECM.fit Sample.QScalar Sample.QLinAlg Sample.model8
                            (Some 1%Z) "egls" "" (Some 1%Z))) = false
  /\ Run.is_results (fst (@VECM.fit Sample.QScalar Sample.QLinAlg Sample.model8
                            (Some 1%Z) "ml" "" (Some 1%Z))) = true
  /\ Run.dict_keys (fst (@VECM.fit Sample.QScalar Sample.QLinAlg Sample.model8
                           (Some 1%Z) "ls" "" (Some 1%Z)))
     = Some ["Pi_hat"; "Gamma_hat"; "Sigma_u_hat"].
Proof. repeat split; vm_compute; reflexivity. Qed.

(** C3 (the code departs from the claim).  With a linear trend the
    least-squares estimator raises: it splits [Pi] one column too wide
    and the product [pi_hat.dot(y_min1)] has mismatched shapes, so there
    is no least-squares [Pi] to compare with.  Without deterministic
    terms and at full rank, [alpha . beta^T] of the maximum-likelihood
    estimate is the least-squares [Pi_hat]. *)
Theorem ls_linear_trend_raises :
  Run.raised (fst (@VECM.fit Sample.QScalar Sample.QLinAlg Sample.model8
                     (Some 1%Z) "ls" "lt" (Some 2%Z)))
  = Some (ValueError "shapes not aligned")
  /\ Run.pi_of_results (fst (@VECM.fit Sample.QScalar Sample.QLinAlg Sample.model8
                               (Some 1%Z) "ml" "" (Some 2%Z)))
     = Run.dict_entry "Pi_hat" (fst (@VECM.fit Sample.QScalar Sample.QLinAlg
                                       Sample.model8 (Some 1%Z) "ls" "" (Some 2%Z)))
  /\ Run.pi_of_results (fst (@VECM.fit Sample.QScalar Sample.QLinAlg Sample.model8
                               (Some 1%Z) "ml" "" (Some 2%Z)))
     = Some [[-7 # 6; 0]; [7 # 12; -41 # 24]]%Q.
Proof. repeat split; vm_compute; reflexivity. Qed.

Context {S : Scalar} {L : LinAlg}.

(** C6, as amended.  A call of [fit] with an integer lag count and a
    method name outside ["ls"], ["egls"], ["ml"] raises a [ValueError]
    whose message names the allowed set; the data attributes [y] and
    [neqs] of the model are unchanged, and its attribute [p] has been set
    to [diff_lags + 1] before the failure. *)
Theorem fit_unknown_method :
  forall (self : VECM.t) (diff_lags : Z) (method deterministic : string)
         (coint_rank : option Z),
    method <> "ls" -> method <> "egls" -> method <> "ml" ->
    let '(outcome, self') := VECM.fit self (Some diff_lags) method deterministic coint_rank in
    outcome = Raise (ValueError (VECM.not_recognized method))
    /\ str_in "('ls', 'egls', 'ml')" (VECM.not_recognized method) = true
    /\ VECM.y self' = VECM.y self
    /\ VECM.neqs self' = VECM.neqs self
    /\ VECM.p self' = Some (diff_lags + 1)%Z.
Proof.
  intros self diff_lags method deterministic coint_rank Hls Hegls Hml.
  unfold VECM.fit.
  destruct (String.eqb_spec method "ls") as [E | _]; [contradiction |].
  destruct (String.eqb_spec method "egls") as [E | _]; [contradiction |].
  destruct (String.eqb_spec method "ml") as [E | _]; [contradiction |].
  repeat split.
  unfold VECM.not_recognized.
  apply (str_in_app_r "('ls', 'egls', 'ml')" method
           " not recognized, must be among ('ls', 'egls', 'ml')").
  reflexivity.
Qed.
End FitClaims.

Lemma fit_unknown_method_witness :
  let '(outcome, self') :=
    @VECM.fit Sample.QScalar Sample.QLinAlg Sample.model8 (Some 2%Z) "gls" "" None in
  outcome = Raise (ValueError (VECM.not_recognized "gls"))
  /\ str_in "('ls', 'egls', 'ml')" (VECM.not_recognized "gls") = true
  /\ VECM.y self' = VECM.y Sample.model8
  /\ VECM.neqs self' = VECM.neqs Sample.model8
  /\ VECM.p self' = Some (2 + 1)%Z.
Proof.
  apply (@fit_unknown_method Sample.QScalar Sample.QLinAlg Sample.model8 2%Z
           "gls" "" None); discriminate.
Defined.

(** C6 as stated fails: the failed call has changed the model object. *)
Lemma fit_unknown_method_mutates_p :
  Run.raised (fst (@VECM.fit Sample.QScalar Sample.QLinAlg Sample.model8
                     (Some 2%Z) "gls" "" None))
  = Some (ValueError "gls not recognized, must be among ('ls', 'egls', 'ml')")
  /\ snd (@VECM.fit Sample.QScalar Sample.QLinAlg Sample.model8 (Some 2%Z) "gls" "" None)
     <> Sample.model8.
Proof.
  split; [vm_compute; reflexivity |].
  intro H. apply (f_equal (@VECM.p Sample.QScalar)) in H. discriminate H.
Qed.

(* ================================================================== *)
(** * The container: construction and zero-size blocks *)

(** Constructed without the derived matrices, the container holds what
    the builder returns when it is given the VAR order
    [level_var_lag_order] as its lag count. *)
Lemma init_omitted_holds_builder_output :
  forall (S : Scalar) (endog_tot : matrix) (level_var_lag_order coint_rank : Z)
         (alpha beta gamma sigma_u : matrix) (deterministic : string),
    held (VECMResults.__init__ endog_tot level_var_lag_order coint_rank
            alpha beta gamma sigma_u deterministic None None None)
    = built (_endog_matrices endog_tot level_var_lag_order deterministic).
Proof.
  intros S endog_tot level_var_lag_order coint_rank alpha beta gamma sigma_u
         deterministic.
  unfold VECMResults.__init__, np_vsplit, np_hsplit.
  cbn [VECMResults.matrices_supplied VECMResults.is_not_None VECMResults.py_truth bind].
  destruct (_endog_matrices endog_tot level_var_lag_order deterministic)
    as [[[[y_1_T dy] ym] dx] | e]; reflexivity.
Qed.

(** C4 (the code departs from the claim).  The estimate [Run.est8] was
    computed with one VEC lag, hence VAR order [p = 2].  Constructed
    without the derived matrices, the container passes the VAR order [2]
    to the builder as its VEC lag count: it holds the builder's matrices
    for two lags (four rows of lagged differences, five columns), not
    those for the one lag the estimator used (two rows, six columns). *)
Theorem init_recomputes_with_var_order :
  @held Sample.QScalar (RunInit.rebuilt 2 "")
  = @built Sample.QScalar (@_endog_matrices Sample.QScalar (VECM.y Sample.model8) 2 "")
  /\ @held Sample.QScalar (RunInit.rebuilt 2 "")
     <> @built Sample.QScalar (@_endog_matrices Sample.QScalar (VECM.y Sample.model8) 1 "")
  /\ RunInit.rows_of_delta_x (@held Sample.QScalar (RunInit.rebuilt 2 "")) = Some 4
  /\ RunInit.rows_of_delta_x
       (@built Sample.QScalar (@_endog_matrices Sample.QScalar (VECM.y Sample.model8) 1 ""))
     = Some 2
  /\ @built Sample.QScalar (@_endog_matrices Sample.QScalar (VECM.y Sample.model8) 1 "")
     = Some (VECMResults.delta_y_1_T Run.est8, VECMResults.y_min1 Run.est8,
             VECMResults.delta_x Run.est8).
Proof.
  repeat split; try (vm_compute; reflexivity).
  intro H.
  apply (f_equal RunInit.rows_of_delta_x) in H.
  vm_compute in H. discriminate H.
Qed.

Section ContainerClaims.
Context {S : Scalar} {L : LinAlg}.
Local Open Scope string_scope.

Lemma array_truth_ambiguous : forall a : matrix,
    1 < msize a ->
    VECMResults.array_truth a
    = value_error "The truth value of an array with more than one element is ambiguous. Use a.any() or a.all()".
Proof.
  intros a H. unfold VECMResults.array_truth, msize in *.
  destruct (concat a) as [| x [| y l]]; simpl in H; try lia. reflexivity.
Qed.

(** C10, as amended.  With [y_min1] and [delta_x] omitted and
    [delta_y_1_T] an array of more than one element, construction raises
    the [ValueError] of the array's truth value.  With all three matrices
    supplied construction succeeds and stores them.  With all three
    omitted the test passes and the matrices are recomputed by the
    builder from the series and the deterministic terms, for a lag count
    taken from the VAR order ([p - 1] or [p]; which of the two is left
    open here): construction succeeds with the builder's matrices when
    that call returns, and raises the builder's exception when it
    raises. *)
Theorem init_supplied_matrices_test :
  forall (endog_tot : matrix) (level_var_lag_order coint_rank : Z)
         (alpha beta gamma sigma_u : matrix) (deterministic : string),
    let init := VECMResults.__init__ endog_tot level_var_lag_order coint_rank
                  alpha beta gamma sigma_u deterministic in
    (forall delta_y_1_T : matrix,
        1 < msize delta_y_1_T ->
        init (Some delta_y_1_T) None None
        = Raise (ValueError "The truth value of an array with more than one element is ambiguous. Use a.any() or a.all()"))
    /\ (forall delta_y_1_T y_min1 delta_x : matrix,
           exists est,
             init (Some delta_y_1_T) (Some y_min1) (Some delta_x) = Ok est
             /\ VECMResults.delta_y_1_T est = Some delta_y_1_T
             /\ VECMResults.y_min1 est = Some y_min1
             /\ VECMResults.delta_x est = Some delta_x)
    /\ (exists lags : Z,
           (level_var_lag_order - 1 <= lags <= level_var_lag_order)%Z
           /\ (forall y_1_T delta_y_1_T y_min1 delta_x : matrix,
                  _endog_matrices endog_tot lags deterministic
                  = Ok (y_1_T, delta_y_1_T, y_min1, delta_x) ->
                  exists est,
                    init None None None = Ok est
                    /\ VECMResults.delta_y_1_T est = Some delta_y_1_T
                    /\ VECMResults.y_min1 est = Some y_min1
                    /\ VECMResults.delta_x est = Some delta_x)
           /\ (forall e,
                  _endog_matrices endog_tot lags deterministic = Raise e ->
                  init None None None = Raise e)).
Proof.
  intros endog_tot level_var_lag_order coint_rank alpha beta gamma sigma_u
         deterministic init.
  subst init. unfold VECMResults.__init__, np_vsplit, np_hsplit.
  split; [| split].
  - intros dy Hdy. cbn [VECMResults.matrices_supplied VECMResults.is_not_None
                        VECMResults.py_truth].
    rewrite (array_truth_ambiguous _ Hdy). reflexivity.
  - intros dy ym dx. eexists. cbn. repeat split.
  - exists level_var_lag_order. split; [lia |]. split.
    + intros y1 dy ym dx Hb.
      cbn [VECMResults.matrices_supplied VECMResults.is_not_None
           VECMResults.py_truth bind].
      rewrite Hb. eexists. cbn. repeat split.
    + intros e Hb.
      cbn [VECMResults.matrices_supplied VECMResults.is_not_None
           VECMResults.py_truth bind].
      rewrite Hb. reflexivity.
Qed.

(** C9.  When the block of deterministic terms outside the cointegration
    relation has size zero, its standard errors, t-values and p-values
    are that size-zero block itself, returned without any computation;
    likewise for the block of deterministic terms inside the
    cointegration relation. *)
Theorem zero_size_blocks :
  forall self : VECMResults.t,
    (msize (VECMResults.det_coef self) = 0 ->
     VECMResults.stderr_det_coef self = Ok (VECMResults.det_coef self)
     /\ VECMResults.tvalues_det_coef self = Ok (VECMResults.det_coef self)
     /\ VECMResults.pvalues_det_coef self = Ok (VECMResults.det_coef self))
    /\ (msize (VECMResults.det_coef_coint self) = 0 ->
        VECMResults.stderr_det_coef_coint self = Ok (VECMResults.det_coef_coint self)
        /\ VECMResults.tvalues_det_coef_coint self = Ok (VECMResults.det_coef_coint self)
        /\ VECMResults.pvalues_det_coef_coint self = Ok (VECMResults.det_coef_coint self)).
Proof.
  intro self. split; intro H.
  - unfold VECMResults.stderr_det_coef, VECMResults.tvalues_det_coef,
      VECMResults.pvalues_det_coef.
    rewrite H. repeat split.
  - unfold VECMResults.stderr_det_coef_coint, VECMResults.tvalues_det_coef_coint,
      VECMResults.pvalues_det_coef_coint.
    rewrite H. repeat split.
Qed.
End ContainerClaims.

Lemma zero_size_blocks_witness :
  (@msize Sample.QScalar (VECMResults.det_coef Run.est8) = 0
   /\ @msize Sample.QScalar (VECMResults.det_coef_coint Run.est8) = 0)
  /\ @VECMResults.stderr_det_coef Sample.QScalar Sample.QLinAlg Run.est8
     = Ok (VECMResults.det_coef Run.est8)
  /\ @VECMResults.pvalues_det_coef_coint Sample.QScalar Sample.QLinAlg Run.est8
     = Ok (VECMResults.det_coef_coint Run.est8).
Proof.
  destruct (@zero_size_blocks Sample.QScalar Sample.QLinAlg Run.est8) as [H1 H2].
  split; [split; reflexivity |].
  split; [apply H1; reflexivity | apply H2; reflexivity].
Defined.

Lemma init_supplied_matrices_test_witness :
  1 < @msize Sample.QScalar [[1; 2]]%Q
  /\ @VECMResults.__init__ Sample.QScalar (VECM.y Sample.model8) 2 1
       [[-7 # 6]; [7 # 12]]%Q [[1]; [0]]%Q [] [] ""%string
       (Some [[1; 2]]%Q) None None
     = Raise (ValueError "The truth value of an array with more than one element is ambiguous. Use a.any() or a.all()").
Proof.
  split; [vm_compute; lia |].
  apply (@init_supplied_matrices_test Sample.QScalar (VECM.y Sample.model8) 2 1
           [[-7 # 6]; [7 # 12]]%Q [[1]; [0]]%Q [] [] ""%string).
  vm_compute. lia.
Defined.

(** C10 as stated fails: with all three matrices omitted, a seasonal
    specification and VAR order 5 on the eight observations of the sample
    series, construction raises.  The builder cannot stack the seasonal
    rows for five lags (two columns are left) nor for four (three
    columns), so the failure does not hang on the lag count. *)
Lemma init_omitted_can_raise :
  is_ok (RunInit.rebuilt 5 "s") = false
  /\ Run.raised (RunInit.rebuilt 5 "s")
     = Some (ValueError "all the input array dimensions except for the concatenation axis must match exactly")
  /\ is_ok (@_endog_matrices Sample.QScalar (VECM.y Sample.model8) 4 "s") = false
  /\ is_ok (@_endog_matrices Sample.QScalar (VECM.y Sample.model8) 5 "s") = false.
Proof. repeat split; vm_compute; reflexivity. Qed.

(* ================================================================== *)
(** * Shapes of the array operations *)

Section ShapeFacts.
Context {S : Scalar}.
Implicit Types A B M : matrix.

Lemma Forall_firstn_rows : forall (X : Type) (P : X -> Prop) (n : nat) (l : list X),
    Forall P l -> Forall P (firstn n l).
Proof.
  intros X P n l H. revert n. induction H as [| x l Hx Hl IH]; intros [| n]; simpl;
    try constructor; auto.
Qed.

Lemma Forall_skipn_rows : forall (X : Type) (P : X -> Prop) (n : nat) (l : list X),
    Forall P l -> Forall P (skipn n l).
Proof.
  intros X P n l H. revert n. induction H as [| x l Hx Hl IH]; intros [| n]; simpl;
    try constructor; auto.
Qed.

Lemma rectb_rect : forall w M, rectb w M = true <-> rect w M.
Proof.
  intros w M. unfold rectb, rect. rewrite forallb_forall, Forall_forall.
  split; intros H row Hin; specialize (H row Hin).
  - now apply Nat.eqb_eq.
  - now apply Nat.eqb_eq.
Qed.

Lemma shape1_rect : forall w M, rect w M -> M <> [] -> shape1 M = w.
Proof.
  intros w [| row M] H Hne; [contradiction |]. simpl. now inversion H.
Qed.

Lemma length_zip_with : forall (X Y Z : Type) (f : X -> Y -> Z) l m,
    length (zip_with f l m) = Nat.min (length l) (length m).
Proof.
  intros X Y Z f. induction l as [| x l IH]; intros [| y m]; simpl; try reflexivity.
  now rewrite IH.
Qed.

Lemma zip_with_ext_rows : forall (f g : list R -> list R -> list R) (c : nat) A B,
    (forall ra rb, length ra = c -> length rb = c -> f ra rb = g ra rb) ->
    rect c A -> rect c B -> zip_with f A B = zip_with g A B.
Proof.
  intros f g c A. induction A as [| ra A IH]; intros [| rb B] Hfg HA HB; simpl;
    try reflexivity.
  inversion HA as [| ? ? Hra HA']; inversion HB as [| ? ? Hrb HB'].
  f_equal; [apply Hfg | apply IH]; assumption.
Qed.

Lemma rect_zip_with : forall (f : R -> R -> R) (c : nat) A B,
    rect c A -> rect c B -> rect c (zip_with (zip_with f) A B).
Proof.
  intros f c A. induction A as [| ra A IH]; intros [| rb B] HA HB; simpl;
    try constructor.
  - inversion HA; inversion HB; subst. rewrite length_zip_with. lia.
  - inversion HA; inversion HB; subst. now apply IH.
Qed.

(** On arrays of one shape the elementwise operations act entry by entry. *)
Lemma elementwise_same_shape : forall (f : R -> R -> R) (c : nat) A B,
    length A = length B -> rect c A -> rect c B ->
    elementwise f A B = Ok (zip_with (zip_with f) A B).
Proof.
  intros f c A B Hlen HA HB. unfold elementwise, shape0.
  assert (H1 : shape1 A = shape1 B).
  { destruct A as [| ra A], B as [| rb B]; simpl in *; try discriminate; try reflexivity.
    inversion HA; inversion HB; subst. congruence. }
  rewrite Hlen, H1. unfold bcast_len. rewrite !Nat.eqb_refl.
  rewrite !stretch_same by congruence.
  f_equal. destruct A as [| ra A].
  - reflexivity.
  - assert (Hc : shape1 B = c).
    { rewrite <- H1. simpl. now inversion HA. }
    rewrite Hc. apply zip_with_ext_rows with (c := c); try assumption.
    intros x y Hx Hy. now rewrite !stretch_same.
Qed.

Lemma length_col : forall j M, length (col j M) = length M.
Proof. intros j M. unfold col. apply length_map. Qed.

Lemma length_transpose : forall M, length (transpose M) = shape1 M.
Proof. intro M. unfold transpose. now rewrite length_map, length_seq. Qed.

Lemma rect_transpose : forall M, rect (length M) (transpose M).
Proof.
  intro M. unfold rect, transpose. apply Forall_forall. intros row Hin.
  apply in_map_iff in Hin. destruct Hin as (j & <- & _). apply length_col.
Qed.

Lemma shape1_transpose : forall M, 0 < shape1 M -> shape1 (transpose M) = length M.
Proof.
  intros M H. apply shape1_rect; [apply rect_transpose |].
  intro E. apply (f_equal (@length _)) in E. rewrite length_transpose in E.
  simpl in E. lia.
Qed.

(** [dot]: when it returns, and the shape of what it returns. *)
Lemma dot_ok : forall A B,
    rect (length B) A ->
    dot A B = Ok (map (fun row => map (fun c => vdot row c) (transpose B)) A).
Proof.
  intros A B H. unfold dot, shape0. apply rectb_rect in H. now rewrite H.
Qed.

Lemma dot_inv : forall A B C,
    dot A B = Ok C ->
    rect (length B) A /\ C = map (fun row => map (fun c => vdot row c) (transpose B)) A.
Proof.
  intros A B C H. unfold dot, shape0 in H.
  destruct (rectb (length B) A) eqn:E; [| discriminate].
  apply rectb_rect in E. injection H as <-. now split.
Qed.

Lemma dot_shape : forall A B C,
    dot A B = Ok C -> length C = length A /\ rect (shape1 B) C.
Proof.
  intros A B C H. apply dot_inv in H. destruct H as [_ ->]. split.
  - apply length_map.
  - apply Forall_forall. intros row Hin. apply in_map_iff in Hin.
    destruct Hin as (ra & <- & _). now rewrite length_map, length_transpose.
Qed.

(** Row slices commute with multiplication on the right. *)
Lemma dot_firstn : forall (n : nat) A B C,
    dot A B = Ok C -> dot (firstn n A) B = Ok (firstn n C).
Proof.
  intros n A B C H. apply dot_inv in H. destruct H as [HA ->].
  rewrite dot_ok.
  - now rewrite firstn_map.
  - unfold rect in *. now apply Forall_firstn_rows.
Qed.

Lemma length_mmap : forall (f : R -> R) M, length (mmap f M) = length M.
Proof. intros f M. apply length_map. Qed.

Lemma rect_mmap : forall (f : R -> R) (c : nat) M, rect c M -> rect c (mmap f M).
Proof.
  intros f c M H. unfold mmap, rect in *. apply Forall_map.
  eapply Forall_impl; [| exact H]. intros row Hr. now rewrite length_map.
Qed.

Lemma length_cols_slice : forall a b M, length (cols_slice a b M) = length M.
Proof. intros a b M. apply length_map. Qed.

Lemma rect_cols_slice_range : forall (w : nat) (a b : Z) M,
    rect w M -> (0 <= a <= b)%Z -> (b <= Z.of_nat w)%Z ->
    rect (Z.to_nat (b - a)) (cols_slice (Some a) (Some b) M).
Proof.
  intros w a b M H Hab Hb. unfold cols_slice, rect in *. apply Forall_map.
  eapply Forall_impl; [| exact H]. intros row Hr. cbv beta in Hr.
  apply length_py_slice_range; [assumption | lia].
Qed.

Lemma rect_cols_slice_to : forall (w : nat) (b : Z) M,
    rect w M -> (0 <= b <= Z.of_nat w)%Z ->
    rect (Z.to_nat b) (cols_slice None (Some b) M).
Proof.
  intros w b M H Hb. unfold cols_slice, rect in *. apply Forall_map.
  eapply Forall_impl; [| exact H]. intros row Hr. cbv beta in Hr.
  rewrite py_slice_to by lia. rewrite length_firstn. lia.
Qed.

Lemma rect_cols_slice_from : forall (w : nat) (a : Z) M,
    rect w M -> (0 <= a <= Z.of_nat w)%Z ->
    rect (w - Z.to_nat a) (cols_slice (Some a) None M).
Proof.
  intros w a M H Ha. unfold cols_slice, rect in *. apply Forall_map.
  eapply Forall_impl; [| exact H]. intros row Hr. cbv beta in Hr.
  rewrite py_slice_from by lia. rewrite length_skipn. lia.
Qed.

(** The last [k] columns, [M[:, -k:]], are the columns from [w - k] on. *)
Lemma cols_slice_last : forall (w k : nat) M,
    rect w M -> 0 < k -> k <= w ->
    cols_slice (Some (- Z.of_nat k)%Z) None M
    = cols_slice (Some (Z.of_nat (w - k))) None M.
Proof.
  intros w k M H Hk Hkw. unfold cols_slice. apply map_ext_in. intros row Hin.
  unfold rect in H. rewrite Forall_forall in H. specialize (H row Hin).
  rewrite py_slice_last by lia. rewrite py_slice_from by lia.
  f_equal. lia.
Qed.

Lemma length_identity : forall n, length (identity n) = n.
Proof. intro n. unfold identity. now rewrite length_map, length_seq. Qed.

Lemma rect_identity : forall n, rect n (identity n).
Proof.
  intro n. unfold rect, identity. apply Forall_forall. intros row Hin.
  apply in_map_iff in Hin. destruct Hin as (i & <- & _).
  now rewrite length_map, length_seq.
Qed.

Lemma map_stretch_rect : forall (k : nat) M,
    length M = k -> rect k M -> map (stretch k) (stretch k M) = M.
Proof.
  intros k M Hl Hr. rewrite (stretch_same M Hl).
  rewrite <- (map_id M) at 2. apply map_ext_in. intros row Hin.
  unfold rect in Hr. rewrite Forall_forall in Hr. apply stretch_same. now apply Hr.
Qed.
End ShapeFacts.

(* ================================================================== *)
(** * The level-VAR representation *)

Section VarRepr.
Context {S : Scalar}.

Lemma np_zeros_nat : forall a b : nat,
    np_zeros (Z.of_nat a) (Z.of_nat b) = Ok (repeat (repeat rzero b) a).
Proof.
  intros a b. unfold np_zeros.
  destruct (Z.ltb_spec (Z.of_nat a) 0); [lia |].
  destruct (Z.ltb_spec (Z.of_nat b) 0); [lia |].
  simpl. now rewrite !Nat2Z.id.
Qed.

Lemma np_identity_nat : forall n : nat, np_identity (Z.of_nat n) = Ok (identity n).
Proof.
  intro n. unfold np_identity.
  destruct (Z.ltb_spec (Z.of_nat n) 0); [lia |]. now rewrite Nat2Z.id.
Qed.

Lemma assign_slot_ok :
  forall (self : VECMResults.t) (k i : nat) (M : matrix) (A : list matrix),
    VECMResults.K self = Z.of_nat k -> length M = k -> rect k M -> i < length A ->
    VECMResults.assign_slot self (Z.of_nat i) M A = Ok (assign_nth i M A).
Proof.
  intros self k i M A HK Hl Hr Hi. unfold VECMResults.assign_slot.
  destruct (Z.ltb_spec (Z.of_nat i) (- Z.of_nat (length A))) as [E | _]; [lia |].
  destruct (Z.leb_spec (Z.of_nat (length A)) (Z.of_nat i)) as [E | _]; [lia |].
  destruct (Z.ltb_spec (Z.of_nat i) 0) as [E | _]; [lia |].
  cbn [orb]. rewrite HK, !Nat2Z.id.
  assert (H1 : shape1 M = k).
  { destruct M as [| row M]; [simpl in *; congruence |].
    apply shape1_rect; [assumption | discriminate]. }
  unfold shape0. rewrite Hl, H1, Nat.eqb_refl. cbn [orb andb].
  now rewrite map_stretch_rect.
Qed.

Section Loop.
Variable f : nat -> matrix.

Lemma length_assign_all : forall l A, length (assign_all f l A) = length A.
Proof.
  induction l as [| i l IH]; intro A; simpl; [reflexivity |].
  unfold assign_all in *. simpl. rewrite IH. apply length_assign_nth.
Qed.

Lemma nth_assign_all_notin : forall l A j d,
    ~ In j l -> nth j (assign_all f l A) d = nth j A d.
Proof.
  induction l as [| i l IH]; intros A j d Hj; [reflexivity |].
  unfold assign_all in *. simpl. rewrite IH.
  - apply nth_assign_nth_neq. intro E. apply Hj. now left.
  - intro Hin. apply Hj. now right.
Qed.

Lemma nth_assign_all_in : forall l A j d,
    In j l -> j < length A -> nth j (assign_all f l A) d = f j.
Proof.
  induction l as [| i l IH]; intros A j d Hj Hlt; [contradiction |].
  unfold assign_all in *. simpl.
  destruct (in_dec Nat.eq_dec j l) as [Hin | Hnin].
  - apply IH; [assumption | now rewrite length_assign_nth].
  - destruct Hj as [-> | Hj]; [| contradiction].
    fold (assign_all f l (assign_nth j (f j) A)).
    rewrite nth_assign_all_notin by assumption.
    now apply nth_assign_nth_eq.
Qed.

Lemma for_each_assign :
  forall (n : nat) (body : nat -> list matrix -> res (list matrix)) l A,
    length A = n ->
    (forall i B, In i l -> length B = n -> body i B = Ok (assign_nth i (f i) B)) ->
    for_each l body A = Ok (assign_all f l A).
Proof.
  intros n body. induction l as [| i l IH]; intros A HA Hbody; [reflexivity |].
  simpl. rewrite Hbody; [| now left | assumption]. cbn [bind].
  unfold assign_all. simpl. apply IH.
  - now rewrite length_assign_nth.
  - intros j B Hj HB. apply Hbody; [now right | assumption].
Qed.
End Loop.
End VarRepr.

Section VarReprClaim.
Context {S : Scalar}.

Lemma rect_Kcols :
  forall (K lags : nat) (gamma : matrix) (a b : Z),
    rect (K * lags) gamma -> (0 <= a)%Z -> (b = a + Z.of_nat K)%Z ->
    (b <= Z.of_nat (K * lags))%Z ->
    rect K (cols_slice (Some a) (Some b) gamma).
Proof.
  intros K lags gamma a b H Ha Hb Hle.
  replace K with (Z.to_nat (b - a)) at 1 by lia.
  eapply rect_cols_slice_range; [exact H | lia | lia].
Qed.

(** C7.  For a container with [K] equations, VAR order [p = lags + 1]
    with [lags >= 1], [alpha] and [beta] of shape [K x r] and [gamma] of
    shape [K x K*lags], [var_repr] returns exactly [p] matrices of shape
    [K x K]: the first is [Pi + I + gamma[:, :K]] with
    [Pi = alpha . beta^T], the last is [-gamma[:, -K:]], and for
    [0 < i < p - 1] the [i]-th is
    [gamma[:, K*i:K*(i+1)] - gamma[:, K*(i-1):K*i]]. *)
Theorem var_repr_level_VAR :
  forall (self : VECMResults.t) (K r lags : nat),
    1 <= K -> 1 <= r -> 1 <= lags ->
    VECMResults.K self = Z.of_nat K ->
    VECMResults.p self = (Z.of_nat lags + 1)%Z ->
    length (VECMResults.alpha self) = K -> rect r (VECMResults.alpha self) ->
    length (VECMResults.beta self) = K -> rect r (VECMResults.beta self) ->
    length (VECMResults.gamma self) = K -> rect (K * lags) (VECMResults.gamma self) ->
    let gamma := VECMResults.gamma self in
    let Kz := Z.of_nat K in
    exists (Pi : matrix) (A : list matrix),
      dot (VECMResults.alpha self) (transpose (VECMResults.beta self)) = Ok Pi
      /\ VECMResults.var_repr self = Ok A
      /\ length A = lags + 1
      /\ (forall i, i < lags + 1 -> length (nth i A []) = K /\ rect K (nth i A []))
      /\ (X <- madd Pi (identity K) ;; madd X (cols_slice None (Some Kz) gamma))
         = Ok (nth 0 A [])
      /\ nth lags A [] = mneg (cols_slice (Some (- Kz)%Z) None gamma)
      /\ (forall i, 0 < i < lags ->
                    msub (cols_slice (Some (Kz * Z.of_nat i)%Z)
                                     (Some (Kz * (Z.of_nat i + 1))%Z) gamma)
                         (cols_slice (Some (Kz * (Z.of_nat i - 1))%Z)
                                     (Some (Kz * Z.of_nat i)%Z) gamma)
                    = Ok (nth i A [])).
Proof.
  intros self K r lags HK Hr Hlags HselfK Hp Hla Hra Hlb Hrb Hlg Hrg gamma Kz.
  (* Pi *)
  assert (Hb1 : shape1 (VECMResults.beta self) = r).
  { apply shape1_rect; [assumption |]. intro E. rewrite E in Hlb. simpl in Hlb. lia. }
  set (Pi := map (fun row => map (fun c => vdot row c)
                                 (transpose (transpose (VECMResults.beta self))))
                 (VECMResults.alpha self)).
  assert (HPi : dot (VECMResults.alpha self) (transpose (VECMResults.beta self)) = Ok Pi).
  { apply dot_ok. now rewrite length_transpose, Hb1. }
  assert (HPil : length Pi = K) by (unfold Pi; now rewrite length_map).
  assert (HPir : rect K Pi).
  { destruct (dot_shape _ _ HPi) as [_ H]. rewrite shape1_transpose in H by lia.
    now rewrite Hlb in H. }
  (* Pi + I *)
  set (X := zip_with (zip_with radd) Pi (identity K)).
  assert (HX : madd Pi (identity K) = Ok X).
  { apply elementwise_same_shape with (c := K);
      [now rewrite length_identity | assumption | apply rect_identity]. }
  assert (HXl : length X = K).
  { unfold X. rewrite length_zip_with, length_identity. lia. }
  assert (HXr : rect K X) by (apply rect_zip_with; [assumption | apply rect_identity]).
  (* the first K columns of gamma *)
  set (G0 := cols_slice None (Some Kz) gamma).
  assert (HG0l : length G0 = K) by (unfold G0; now rewrite length_cols_slice).
  assert (HG0r : rect K G0).
  { unfold G0, Kz. rewrite <- (Nat2Z.id K) at 1.
    apply rect_cols_slice_to with (w := K * lags); [assumption | nia]. }
  set (A0 := zip_with (zip_with radd) X G0).
  assert (HA0 : madd X G0 = Ok A0).
  { apply elementwise_same_shape with (c := K); [congruence | assumption | assumption]. }
  assert (HA0l : length A0 = K) by (unfold A0; rewrite length_zip_with; lia).
  assert (HA0r : rect K A0) by (now apply rect_zip_with).
  (* the last K columns of gamma *)
  set (Gl := mneg (cols_slice (Some (Kz * (Z.of_nat lags + 1 - 2))%Z) None gamma)).
  assert (HGleq : Gl = mneg (cols_slice (Some (- Kz)%Z) None gamma)).
  { unfold Gl, Kz. f_equal.
    rewrite (@cols_slice_last S (K * lags) K gamma Hrg); [| lia | nia].
    do 2 f_equal. nia. }
  assert (HGll : length Gl = K).
  { unfold Gl, mneg. now rewrite length_mmap, length_cols_slice. }
  assert (HGlr : rect K Gl).
  { unfold Gl, mneg. apply rect_mmap.
    replace K with (K * lags - Z.to_nat (Kz * (Z.of_nat lags + 1 - 2))) at 1
      by (unfold Kz; nia).
    apply rect_cols_slice_from; [assumption | unfold Kz; nia]. }
  (* the blocks in between *)
  set (f := fun i : nat =>
              zip_with (zip_with rsub)
                       (cols_slice (Some (Kz * Z.of_nat i)%Z)
                                   (Some (Kz * (Z.of_nat i + 1))%Z) gamma)
                       (cols_slice (Some (Kz * (Z.of_nat i - 1))%Z)
                                   (Some (Kz * Z.of_nat i)%Z) gamma)).
  assert (Hsl1 : forall i, 0 < i < lags ->
                           rect K (cols_slice (Some (Kz * Z.of_nat i)%Z)
                                              (Some (Kz * (Z.of_nat i + 1))%Z) gamma)).
  { intros i Hi. apply rect_Kcols with (lags := lags); [assumption | | | ]; unfold Kz; nia. }
  assert (Hsl2 : forall i, 0 < i < lags ->
                           rect K (cols_slice (Some (Kz * (Z.of_nat i - 1))%Z)
                                              (Some (Kz * Z.of_nat i)%Z) gamma)).
  { intros i Hi. apply rect_Kcols with (lags := lags); [assumption | | | ]; unfold Kz; nia. }
  assert (Hf : forall i, 0 < i < lags ->
                         msub (cols_slice (Some (Kz * Z.of_nat i)%Z)
                                          (Some (Kz * (Z.of_nat i + 1))%Z) gamma)
                              (cols_slice (Some (Kz * (Z.of_nat i - 1))%Z)
                                          (Some (Kz * Z.of_nat i)%Z) gamma)
                         = Ok (f i)).
  { intros i Hi. apply elementwise_same_shape with (c := K);
      [now rewrite !length_cols_slice | now apply Hsl1 | now apply Hsl2]. }
  assert (Hfl : forall i, 0 < i < lags -> length (f i) = K).
  { intros i Hi. unfold f. rewrite length_zip_with, !length_cols_slice.
    fold gamma in Hlg. lia. }
  assert (Hfr : forall i, 0 < i < lags -> rect K (f i)).
  { intros i Hi. unfold f. apply rect_zip_with; [now apply Hsl1 | now apply Hsl2]. }
  (* the array A *)
  set (slot := (repeat (repeat rzero K) K : matrix)).
  set (A1 := assign_nth lags Gl (assign_nth 0 A0 (repeat slot (lags + 1)))).
  assert (HA1l : length A1 = lags + 1).
  { unfold A1. now rewrite !length_assign_nth, repeat_length. }
  set (A := assign_all f (seq 1 (lags - 1)) A1).
  assert (HAl : length A = lags + 1) by (unfold A; now rewrite length_assign_all).
  assert (Hin : forall i, In i (seq 1 (lags - 1)) <-> 0 < i < lags).
  { intro i. rewrite in_seq. lia. }
  assert (Hrun : VECMResults.var_repr self = Ok A).
  { unfold VECMResults.var_repr. rewrite HPi. cbn [bind].
    rewrite HselfK, Hp. rewrite np_zeros_nat. cbn [bind].
    destruct (Z.ltb_spec (Z.of_nat lags + 1) 0) as [E | _]; [lia |]. cbn [bind].
    rewrite np_identity_nat. cbn [bind]. rewrite HX. cbn [bind].
    fold gamma. fold Kz. fold G0. rewrite HA0. cbn [bind].
    replace (Z.to_nat (Z.of_nat lags + 1)) with (lags + 1) by lia. fold slot.
    pose proof (@assign_slot_ok S self K 0 A0 (repeat slot (lags + 1))
                  HselfK HA0l HA0r) as Hs0.
    cbn [Z.of_nat] in Hs0. rewrite Hs0 by (rewrite repeat_length; lia).
    cbn [bind].
    replace (Z.of_nat lags + 1 - 1)%Z with (Z.of_nat lags) by lia.
    fold Gl.
    rewrite (@assign_slot_ok S self K lags Gl _ HselfK HGll HGlr)
      by (rewrite length_assign_nth, repeat_length; lia).
    fold A1.
    replace (Z.to_nat (Z.of_nat lags - 1)) with (lags - 1) by lia.
    apply for_each_assign with (n := lags + 1); [exact HA1l |].
    intros i B Hi HB. apply Hin in Hi. cbv zeta.
    rewrite (Hf i Hi). cbn [bind].
    apply assign_slot_ok with (k := K); [assumption | now apply Hfl | now apply Hfr | lia]. }
  assert (Hn0 : nth 0 A [] = A0).
  { unfold A. rewrite nth_assign_all_notin by (rewrite Hin; lia).
    unfold A1. rewrite nth_assign_nth_neq by lia.
    apply nth_assign_nth_eq. rewrite repeat_length. lia. }
  assert (Hnl : nth lags A [] = Gl).
  { unfold A. rewrite nth_assign_all_notin by (rewrite Hin; lia).
    unfold A1. apply nth_assign_nth_eq. rewrite length_assign_nth, repeat_length. lia. }
  assert (Hni : forall i, 0 < i < lags -> nth i A [] = f i).
  { intros i Hi. unfold A. apply nth_assign_all_in; [now apply Hin | lia]. }
  exists Pi, A. repeat split; try assumption.
  - destruct (Nat.eq_dec i 0) as [-> | Hi0]; [now rewrite Hn0 |].
    destruct (Nat.eq_dec i lags) as [-> | Hil]; [now rewrite Hnl |].
    rewrite Hni by lia. apply Hfl. lia.
  - destruct (Nat.eq_dec i 0) as [-> | Hi0]; [now rewrite Hn0 |].
    destruct (Nat.eq_dec i lags) as [-> | Hil]; [now rewrite Hnl |].
    rewrite Hni by lia. apply Hfr. lia.
  - rewrite HX. cbn [bind]. fold G0. now rewrite HA0, Hn0.
  - now rewrite Hnl.
  - intros i Hi. rewrite Hf by assumption. now rewrite Hni.
Qed.
End VarReprClaim.

(* ================================================================== *)
(** * The seasonal rows of the builder *)

Section Seasonal.
Context {S : Scalar}.

Lemma stride_mod : forall i j,
    i < 4 -> ((i <=? j) && ((j - i) mod 4 =? 0)) = (j mod 4 =? i).
Proof.
  intros i j Hi.
  pose proof (Nat.div_mod_eq j 4) as E1.
  pose proof (Nat.mod_upper_bound j 4 ltac:(lia)) as B1.
  pose proof (Nat.div_mod_eq (j - i) 4) as E2.
  pose proof (Nat.mod_upper_bound (j - i) 4 ltac:(lia)) as B2.
  destruct (Nat.leb_spec i j) as [Hle | Hgt]; cbn [andb].
  - destruct (Nat.eqb_spec ((j - i) mod 4) 0) as [H0 | H0];
      destruct (Nat.eqb_spec (j mod 4) i) as [H1 | H1]; try reflexivity; exfalso; lia.
  - destruct (Nat.eqb_spec (j mod 4) i) as [H1 | H1]; try reflexivity; exfalso; lia.
Qed.

Lemma mod4_shift : forall j, (j + 3 + 1) mod 4 = j mod 4.
Proof.
  intro j. replace (j + 3 + 1) with (j + 1 * 4) by lia. apply Nat.Div0.mod_add.
Qed.

Lemma seq_plus : forall a n, seq a n = map (fun j => j + a) (seq 0 n).
Proof.
  induction a as [| a IH]; intro n.
  - rewrite <- (map_id (seq 0 n)) at 1. apply map_ext. intro j. lia.
  - rewrite <- seq_shift, IH, map_map. apply map_ext. intro j. lia.
Qed.

Lemma firstn_seq_prefix : forall a n m, firstn n (seq a (n + m)) = seq a n.
Proof.
  intros a n m. rewrite seq_app, firstn_app, length_seq, Nat.sub_diag.
  rewrite firstn_O, app_nil_r. apply firstn_ge_length. now rewrite length_seq.
Qed.

Lemma assign_stride_from_repeat :
  forall (X : Type) (v z : X) (i step n pos : nat),
    assign_stride_from pos i step v (repeat z n)
    = map (fun j => if (i <=? j) && ((j - i) mod step =? 0) then v else z) (seq pos n).
Proof.
  intros X v z i step. induction n as [| n IH]; intro pos; [reflexivity |].
  cbn [repeat assign_stride_from seq map]. f_equal. apply IH.
Qed.

Lemma assign_stride_4 : forall (X : Type) (v z : X) (i n : nat),
    i < 4 ->
    assign_stride i 4 v (repeat z n)
    = map (fun j => if j mod 4 =? i then v else z) (seq 0 n).
Proof.
  intros X v z i n Hi. unfold assign_stride. rewrite assign_stride_from_repeat.
  apply map_ext. intro j. now rewrite stride_mod.
Qed.

Lemma rotate_row : forall i T,
    i < 4 -> 4 <= T ->
    py_slice (Some 1%Z) (Some 4%Z)
             (map (fun j => if j mod 4 =? i then rone else rzero) (seq 0 T))
    ++ py_slice None (Some (-3)%Z)
                (map (fun j => if j mod 4 =? i then rone else rzero) (seq 0 T))
    = map (indicator i) (seq 0 T).
Proof.
  intros i T Hi HT.
  destruct T as [| [| [| [| T']]]]; try lia.
  set (g := fun j => if j mod 4 =? i then rone else rzero).
  change 1%Z with (Z.of_nat 1). change 4%Z with (Z.of_nat 4).
  rewrite py_slice_nat.
  assert (E2 : py_slice None (Some (-3)%Z) (map g (seq 0 (4 + T')))
               = map g (seq 0 (1 + T'))).
  { unfold py_slice, clamp_index. rewrite length_map, length_seq.
    change (-3 <? 0)%Z with true. cbv iota.
    replace (Z.to_nat (Z.max (-3 + Z.of_nat (4 + T')) 0 - 0)) with (1 + T') by lia.
    cbn [Z.to_nat skipn]. rewrite firstn_map.
    replace (4 + T') with ((1 + T') + 3) by lia. now rewrite firstn_seq_prefix. }
  change (Datatypes.S (Datatypes.S (Datatypes.S (Datatypes.S T')))) with (4 + T').
  rewrite E2.
  cbn [seq map app skipn firstn length Nat.sub Nat.add].
  unfold indicator, g.
  do 4 (apply f_equal2; [reflexivity |]).
  rewrite (seq_plus 1 T'), (seq_plus 4 T'), !map_map.
  apply map_ext. intro j.
  replace (j + 4 + 1) with (j + 1 + 1 * 4) by lia.
  now rewrite Nat.Div0.mod_add.
Qed.

Lemma seasonal_rows_pattern : forall T,
    4 <= T -> seasonal_rows T = Ok (seasonal_pattern T).
Proof.
  intros T HT. unfold seasonal_rows.
  change (4 - 1)%Z with 3%Z. unfold np_zeros.
  destruct (Z.ltb_spec (Z.of_nat T) 0) as [E | _]; [lia |].
  change (3 <? 0)%Z with false. cbn [orb]. rewrite Nat2Z.id.
  change (Z.to_nat 3) with 3. change (Z.to_nat 4) with 4.
  cbn [bind repeat seq for_each assign_nth nth].
  unfold hstack. cbn [shape0 cols_slice map length Nat.eqb zip_with].
  rewrite !assign_stride_4 by lia.
  rewrite !rotate_row by lia.
  unfold seasonal_pattern, mmap. cbn [bind map]. now rewrite !map_map.
Qed.

Lemma length_seasonal_pattern : forall T, length (seasonal_pattern T) = 3.
Proof. reflexivity. Qed.

Lemma rect_seasonal_pattern : forall T, rect T (seasonal_pattern T).
Proof.
  intro T. unfold seasonal_pattern. repeat constructor; now rewrite length_map, length_seq.
Qed.
End Seasonal.

(* ================================================================== *)
(** * The builder returns, and what it returns *)

Section BuilderFacts.
Context {S : Scalar}.
Local Open Scope string_scope.
Local Open Scope list_scope.

Lemma bind_ret : forall (X Y : Type) (a : X) (k : X -> res Y), bind (Ok a) k = k a.
Proof. reflexivity. Qed.

Lemma for_each_invariant :
  forall (X St : Type) (P : St -> Prop) (body : X -> St -> res St) (l : list X) (s : St),
    P s ->
    (forall a s, In a l -> P s -> exists s', body a s = Ok s' /\ P s') ->
    exists s', for_each l body s = Ok s' /\ P s'.
Proof.
  intros X St P body. induction l as [| a l IH]; intros s Hs Hbody.
  - exists s. now split.
  - destruct (Hbody a s (or_introl eq_refl) Hs) as (s1 & E1 & P1).
    destruct (IH s1 P1) as (s2 & E2 & P2).
    { intros b t Hb Ht. apply Hbody; [now right | assumption]. }
    exists s2. split; [| assumption]. simpl. rewrite E1. exact E2.
Qed.

Lemma length_diff1 : forall v : vector, length (diff1 v) = length v - 1.
Proof.
  induction v as [| a [| b v] IH]; try reflexivity.
  change (diff1 (a :: b :: v)) with (rsub b a :: diff1 (b :: v)).
  cbn [length] in *. rewrite IH. lia.
Qed.

Lemma rect_np_diff : forall (n : nat) (M : matrix), rect n M -> rect (n - 1) (np_diff M).
Proof.
  intros n M H. unfold np_diff, rect in *. apply Forall_map.
  eapply Forall_impl; [| exact H]. intros row Hr. cbv beta in Hr.
  now rewrite length_diff1, Hr.
Qed.

Lemma length_concat_rect : forall (c : nat) (M : matrix),
    rect c M -> length (concat M) = length M * c.
Proof.
  intros c M H. induction H as [| row M Hr HM IH]; [reflexivity |].
  cbn [concat length]. rewrite length_app, IH, Hr. lia.
Qed.

(** [l[a:-1]] for [0 <= a]. *)
Lemma length_py_slice_to_last : forall (X : Type) (l : list X) (a : nat),
    length (py_slice (Some (Z.of_nat a)) (Some (-1)%Z) l) = length l - 1 - a.
Proof.
  intros X l a. unfold py_slice, clamp_index.
  destruct (Z.ltb_spec (Z.of_nat a) 0) as [E | _]; [lia |].
  change (-1 <? 0)%Z with true. cbv iota.
  rewrite length_firstn, length_skipn. lia.
Qed.

(** The window of [lags] differences that ends at column [j]. *)
Lemma length_py_slice_rev_window : forall (X : Type) (l : list X) (j lags : nat),
    1 <= lags -> j + lags <= length l ->
    length (py_slice_rev (Z.of_nat j + (Z.of_nat lags + 1) - 2)
                         (if (Z.of_nat j - 1 <? 0)%Z then None
                          else Some (Z.of_nat j - 1)%Z) l)
    = lags.
Proof.
  intros X l j lags Hl Hj. unfold py_slice_rev, clamp_index_rev.
  destruct (Z.ltb_spec (Z.of_nat j + (Z.of_nat lags + 1) - 2) 0) as [E | _]; [lia |].
  rewrite length_rev, length_firstn, length_skipn.
  destruct (Z.ltb_spec (Z.of_nat j - 1) 0) as [E | E].
  - lia.
  - destruct (Z.ltb_spec (Z.of_nat j - 1) 0) as [E' | _]; lia.
Qed.

Lemma length_assign_col_rows : forall (j : nat) (v : vector) (M M' : matrix) (w : nat),
    assign_col j v M = Ok M' -> rect w M -> length M' = length M /\ rect w M'.
Proof.
  intros j v M M' w H Hr. unfold assign_col, shape0 in H.
  destruct (Nat.eqb_spec (length v) (length M)) as [E | E]; [| discriminate].
  injection H as <-. split.
  - rewrite length_zip_with. lia.
  - clear E. revert v. induction Hr as [| row M Hrow HM IH]; intros [| x v]; simpl;
      try constructor.
    + now rewrite length_assign_nth.
    + apply IH.
Qed.

Lemma shape1_y_1_T : forall (y : matrix) (K N lags : nat),
    1 <= K -> length y = K -> rect N y ->
    shape1 (cols_slice (Some (Z.of_nat lags + 1)%Z) None y) = N - lags - 1.
Proof.
  intros y K N lags HK Hy Hrect.
  destruct y as [| row y']; [simpl in Hy; lia |].
  inversion Hrect as [| ? ? Hrow _]. cbn [cols_slice map shape1].
  rewrite py_slice_from by lia. rewrite length_skipn. lia.
Qed.

Lemma rect_y_min1 : forall (y : matrix) (N lags : nat),
    rect N y ->
    rect (N - lags - 1)
         (cols_slice (Some (Z.of_nat lags + 1 - 1)%Z) (Some (-1)%Z) y).
Proof.
  intros y N lags Hrect.
  unfold cols_slice, rect in *. apply Forall_map.
  eapply Forall_impl; [| exact Hrect]. intros row Hr. cbv beta in Hr.
  replace (Z.of_nat lags + 1 - 1)%Z with (Z.of_nat lags) by lia.
  rewrite length_py_slice_to_last. lia.
Qed.

Lemma lagged_differences_ok : forall (y : matrix) (K N lags j : nat),
    1 <= K -> length y = K -> rect N y -> 1 <= lags -> j < N - lags - 1 ->
    exists v, lagged_differences (np_diff y) (Z.of_nat K) (Z.of_nat lags + 1) j = Ok v
              /\ length v = lags * K.
Proof.
  intros y K N lags j HK Hy Hrect Hlags Hj.
  unfold lagged_differences, transpose_reshape.
  set (W := cols_slice_rev _ _ (np_diff y)).
  assert (HW : rect lags W).
  { unfold W, cols_slice_rev, rect. apply Forall_map.
    pose proof (@rect_np_diff N y Hrect) as Hd. unfold rect in Hd.
    eapply Forall_impl; [| exact Hd]. intros row Hr. cbv beta in Hr.
    apply length_py_slice_rev_window; [assumption |]. lia. }
  assert (HWl : length W = K).
  { unfold W, cols_slice_rev, np_diff. now rewrite !length_map. }
  assert (HW1 : shape1 W = lags).
  { apply shape1_rect; [assumption |]. intro E. rewrite E in HWl. simpl in HWl. lia. }
  assert (Hflat : length (concat (transpose W)) = lags * K).
  { rewrite (@length_concat_rect (length W) (transpose W) (rect_transpose W)).
    now rewrite length_transpose, HW1, HWl. }
  rewrite Hflat.
  destruct (Z.eqb_spec (Z.of_nat (lags * K)) (Z.of_nat K * (Z.of_nat lags + 1 - 1)))
    as [_ | E].
  - eexists. split; [reflexivity | assumption].
  - exfalso. apply E. lia.
Qed.

(** The rows of lagged differences: the loop over the columns returns. *)
Lemma lag_loop_ok : forall (y : matrix) (K N lags : nat),
    1 <= K -> length y = K -> rect N y -> 1 <= lags ->
    exists lagged : matrix,
      (delta_x <- np_zeros (Z.of_nat lags * Z.of_nat K) (Z.of_nat (N - lags - 1)) ;;
       for_each (seq 0 (N - lags - 1))
         (fun j dx =>
            v <- lagged_differences (np_diff y) (Z.of_nat K) (Z.of_nat lags + 1) j ;;
            assign_col j v dx)
         delta_x) = Ok lagged
      /\ length lagged = lags * K /\ rect (N - lags - 1) lagged.
Proof.
  intros y K N lags HK Hy Hrect Hlags.
  rewrite <- Nat2Z.inj_mul, np_zeros_nat. cbn [bind].
  apply for_each_invariant
    with (P := fun dx : matrix => length dx = lags * K /\ rect (N - lags - 1) dx).
  - split; [apply repeat_length |].
    apply Forall_forall. intros row Hin. apply repeat_spec in Hin. subst row.
    apply repeat_length.
  - intros j dx Hj [Hl Hr]. apply in_seq in Hj.
    destruct (@lagged_differences_ok y K N lags j HK Hy Hrect Hlags) as (v & Ev & Hv);
      [lia |].
    rewrite Ev. cbn [bind].
    assert (Ea : assign_col j v dx
                 = Ok (zip_with (fun row x => assign_nth j x row) dx v)).
    { unfold assign_col, shape0. rewrite Hv, Hl, Nat.eqb_refl. reflexivity. }
    eexists. split; [exact Ea |].
    destruct (@length_assign_col_rows j v dx _ (N - lags - 1) Ea Hr) as [H1 H2].
    split; [congruence | assumption].
Qed.

Lemma vstack_ok : forall (w : nat) (A B : matrix),
    A <> [] -> rect w A -> rect w B -> vstack A B = Ok (A ++ B).
Proof.
  intros w A B HA HrA HrB. unfold vstack, shape0.
  destruct B as [| rb B]; [now rewrite orb_true_r |].
  rewrite (@shape1_rect S w A HrA HA), (@shape1_rect S w (rb :: B) HrB) by discriminate.
  now rewrite Nat.eqb_refl, !orb_true_r.
Qed.

Lemma rect_app : forall (w : nat) (A B : matrix), rect w A -> rect w B -> rect w (A ++ B).
Proof. intros w A B HA HB. unfold rect in *. apply Forall_app. now split. Qed.

Lemma rect_single : forall (w : nat) (v : vector), length v = w -> rect w [v].
Proof. intros w v H. unfold rect. now repeat constructor. Qed.

Lemma length_arange_plus_1 : forall T, length (arange_plus_1 T) = T.
Proof. intro T. unfold arange_plus_1. now rewrite length_map, length_seq. Qed.

(** For a series of [K >= 1] variables and [N] observations, [lags >= 1]
    and an effective sample of [T = N - lags - 1] columns, with [T >= 4]
    when seasonal terms are requested, the builder returns; the
    differenced-regressor matrix is the [K * lags] rows of lagged
    differences followed by the rows of the deterministic terms. *)
Lemma endog_matrices_ok :
  forall (y : matrix) (K N lags : nat),
    1 <= K -> length y = K -> rect N y -> 1 <= lags -> lags + 2 <= N ->
    let T := N - lags - 1 in
    let p := (Z.of_nat lags + 1)%Z in
    exists lagged : matrix,
      length lagged = lags * K /\ rect T lagged
      /\ forall deterministic,
          (str_in "s" deterministic = true -> 4 <= T) ->
          _endog_matrices y (Z.of_nat lags) deterministic
          = Ok (cols_slice (Some p) None y,
                cols_slice (Some (p - 1)%Z) None (np_diff y),
                cols_slice (Some (p - 1)%Z) (Some (-1)%Z) y ++ cc_rows deterministic T,
                lagged ++ co_rows deterministic T ++ s_rows deterministic T
                       ++ lt_rows deterministic T).
Proof.
  intros y K N lags HK Hy Hrect Hlags HN T p.
  destruct (@lag_loop_ok y K N lags HK Hy Hrect Hlags) as (lagged & Eloop & Hl & Hr).
  fold T in Eloop, Hr. fold p in Eloop.
  exists lagged. split; [assumption |]. split; [assumption |].
  intros deterministic Hs.
  assert (Hne : lagged <> []).
  { intro E. rewrite E in Hl. simpl in Hl. nia. }
  assert (Hym : cols_slice (Some (p - 1)%Z) (Some (-1)%Z) y <> []).
  { intro E. apply (f_equal (@length _)) in E. rewrite length_cols_slice, Hy in E.
    simpl in E. lia. }
  unfold _endog_matrices. cbv zeta.
  rewrite (@shape1_y_1_T y K N lags HK Hy Hrect). fold T. fold p.
  unfold shape0. rewrite Hy.
  (* the constant inside the cointegration relation *)
  assert (E1 : (if str_in "cc" deterministic
                then vstack (cols_slice (Some (p - 1)%Z) (Some (-1)%Z) y) [np_ones T]
                else Ok (cols_slice (Some (p - 1)%Z) (Some (-1)%Z) y))
               = Ok (cols_slice (Some (p - 1)%Z) (Some (-1)%Z) y
                       ++ cc_rows deterministic T)).
  { unfold cc_rows. destruct (str_in "cc" deterministic).
    - apply vstack_ok with (w := T); [assumption | |].
      + apply (@rect_y_min1 y N lags Hrect).
      + apply rect_single, repeat_length.
    - now rewrite app_nil_r. }
  unfold matrix, vector in *. rewrite E1, bind_ret. cbv beta.
  (* the lagged differences *)
  destruct (np_zeros (Z.of_nat lags * Z.of_nat K) (Z.of_nat T)) as [z | e] eqn:Ez;
    [| discriminate Eloop].
  rewrite bind_ret in Eloop. rewrite bind_ret. cbv beta.
  rewrite Eloop, bind_ret. cbv beta.
  (* the constant outside the cointegration relation *)
  assert (E2 : (if str_in "co" deterministic then vstack lagged [np_ones T] else Ok lagged)
               = Ok (lagged ++ co_rows deterministic T)).
  { unfold co_rows. destruct (str_in "co" deterministic).
    - apply vstack_ok with (w := T); [assumption | assumption |].
      apply rect_single, repeat_length.
    - now rewrite app_nil_r. }
  unfold matrix, vector in *. rewrite E2, bind_ret. cbv beta.
  assert (Hco : rect T (lagged ++ co_rows deterministic T)).
  { apply rect_app; [assumption |]. unfold co_rows.
    destruct (str_in "co" deterministic); [apply rect_single, repeat_length | constructor]. }
  assert (Hne2 : lagged ++ co_rows deterministic T <> []).
  { intro E. apply app_eq_nil in E. now destruct E. }
  (* the seasonal terms *)
  assert (E3 : (if str_in "s" deterministic
                then seasons <- seasonal_rows T ;;
                     vstack (lagged ++ co_rows deterministic T) seasons
                else Ok (lagged ++ co_rows deterministic T))
               = Ok ((lagged ++ co_rows deterministic T) ++ s_rows deterministic T)).
  { unfold s_rows. destruct (str_in "s" deterministic).
    - rewrite seasonal_rows_pattern by (now apply Hs). rewrite bind_ret.
      apply vstack_ok with (w := T); [assumption | assumption |].
      apply rect_seasonal_pattern.
    - now rewrite app_nil_r. }
  unfold matrix, vector in *. rewrite E3, bind_ret. cbv beta.
  assert (Hs3 : rect T ((lagged ++ co_rows deterministic T) ++ s_rows deterministic T)).
  { apply rect_app; [assumption |]. unfold s_rows.
    destruct (str_in "s" deterministic); [apply rect_seasonal_pattern | constructor]. }
  assert (Hne3 : (lagged ++ co_rows deterministic T) ++ s_rows deterministic T <> []).
  { intro E. apply app_eq_nil in E. now destruct E. }
  (* the linear trend *)
  assert (E4 : (if str_in "lt" deterministic
                then vstack ((lagged ++ co_rows deterministic T) ++ s_rows deterministic T)
                            [arange_plus_1 T]
                else Ok ((lagged ++ co_rows deterministic T) ++ s_rows deterministic T))
               = Ok (((lagged ++ co_rows deterministic T) ++ s_rows deterministic T)
                       ++ lt_rows deterministic T)).
  { unfold lt_rows. destruct (str_in "lt" deterministic).
    - apply vstack_ok with (w := T); [assumption | assumption |].
      apply rect_single, length_arange_plus_1.
    - now rewrite app_nil_r. }
  unfold matrix, vector in *. rewrite E4, bind_ret. cbv beta. now rewrite <- !app_assoc.
Qed.
End BuilderFacts.

(* ================================================================== *)
(** * The seasonal rows in exact arithmetic *)

Section SeasonalClaim.
Local Open Scope string_scope.
Local Open Scope list_scope.
Import Sample.

Lemma skipn_seq_plus : forall j a m, skipn j (seq a (j + m)) = seq (a + j) m.
Proof.
  intros j a m. rewrite seq_app, skipn_app, length_seq, Nat.sub_diag.
  rewrite skipn_ge_length by (rewrite length_seq; lia). reflexivity.
Qed.

Lemma window_of_map_seq : forall (X : Type) (g : nat -> X) (j T : nat),
    j + 4 <= T -> firstn 4 (skipn j (map g (seq 0 T))) = map g (seq j 4).
Proof.
  intros X g j T H. rewrite skipn_map, firstn_map. f_equal.
  replace T with (j + (4 + (T - j - 4))) by lia.
  rewrite skipn_seq_plus. exact (firstn_seq_prefix j 4 (T - j - 4)).
Qed.

Lemma seasonal_pattern_row : forall (i T : nat),
    i < 3 ->
    nth i (@seasonal_pattern QScalar T) [] = map (seasonal_entry i) (seq 0 T).
Proof.
  intros i T Hi. unfold seasonal_pattern.
  destruct i as [| [| [| i]]]; try lia; cbn [nth map];
    apply map_ext; intro j; unfold seasonal_entry, indicator;
    match goal with |- context [if ?c then _ else _] => destruct c end; reflexivity.
Qed.

Lemma seasonal_window_sum : forall i j,
    i < 3 -> @rsum QScalar (map (seasonal_entry i) (seq j 4)) = 0%Q.
Proof.
  intros i j Hi. cbn [seq map]. unfold seasonal_entry.
  replace (Datatypes.S j + 1) with (j + 2) by lia.
  replace (Datatypes.S (Datatypes.S j) + 1) with (j + 3) by lia.
  replace (Datatypes.S (Datatypes.S (Datatypes.S j)) + 1) with (j + 4) by lia.
  rewrite <- (Nat.Div0.add_mod_idemp_l j 1 4), <- (Nat.Div0.add_mod_idemp_l j 2 4),
    <- (Nat.Div0.add_mod_idemp_l j 3 4), <- (Nat.Div0.add_mod_idemp_l j 4 4).
  pose proof (Nat.mod_upper_bound j 4 ltac:(lia)) as Hm.
  destruct (j mod 4) as [| [| [| [| m]]]]; try lia;
    destruct i as [| [| [| i]]]; try lia; vm_compute; reflexivity.
Qed.

(** C8, as amended.  For a series of [K >= 1] variables with [N]
    observations each, a lag count [lags >= 1] and at least four
    effective observations ([T = N - lags - 1 >= 4]), requesting seasonal
    terms makes the builder return the same matrices as without them
    except that exactly three rows are inserted into the
    differenced-regressor matrix (after the lagged differences and the
    constant, before the trend).  Row [i] of the three holds [3/4] in the
    columns [j] with [(j + 1) mod 4 = i] and [-1/4] elsewhere: the
    period-4 indicator, rotated by one position and centred by [1/4].
    Each of these rows sums to zero over any four consecutive columns. *)
Theorem seasonal_terms_append_three_rows :
  forall (y : @matrix QScalar) (K N lags : nat) (det det0 : string),
    1 <= K -> length y = K -> @rect QScalar N y -> 1 <= lags -> lags + 5 <= N ->
    str_in "s" det = true -> str_in "s" det0 = false ->
    str_in "cc" det0 = str_in "cc" det ->
    str_in "co" det0 = str_in "co" det ->
    str_in "lt" det0 = str_in "lt" det ->
    let T := N - lags - 1 in
    exists (y_1_T delta_y_1_T y_min1 base trend seasons : @matrix QScalar),
      @_endog_matrices QScalar y (Z.of_nat lags) det0
      = Ok (y_1_T, delta_y_1_T, y_min1, base ++ trend)
      /\ @_endog_matrices QScalar y (Z.of_nat lags) det
         = Ok (y_1_T, delta_y_1_T, y_min1, base ++ seasons ++ trend)
      /\ length seasons = 3
      /\ (forall i, i < 3 -> nth i seasons [] = map (seasonal_entry i) (seq 0 T))
      /\ (forall i j, i < 3 -> j + 4 <= T ->
                      @rsum QScalar (firstn 4 (skipn j (nth i seasons []))) = 0%Q).
Proof.
  intros y K N lags det det0 HK Hy Hrect Hlags HN Hs Hs0 Hcc Hco Hlt T.
  destruct (@endog_matrices_ok QScalar y K N lags HK Hy Hrect Hlags ltac:(lia))
    as (lagged & Hl & Hr & Hb).
  fold T in Hr, Hb.
  pose proof (Hb det ltac:(intros _; unfold T; lia)) as E.
  pose proof (Hb det0 ltac:(intro H; congruence)) as E0.
  unfold cc_rows, co_rows, s_rows, lt_rows in E, E0.
  rewrite Hs in E. rewrite Hs0, Hcc, Hco, Hlt in E0. cbn [app] in E0.
  rewrite app_assoc in E, E0.
  do 6 eexists. split; [exact E0 |]. split; [exact E |].
  split; [reflexivity |]. split.
  - intros i Hi. now apply seasonal_pattern_row.
  - intros i j Hi Hj. rewrite seasonal_pattern_row by assumption.
    rewrite window_of_map_seq by assumption. now apply seasonal_window_sum.
Qed.
End SeasonalClaim.

Lemma seasonal_terms_append_three_rows_witness :
  exists base trend seasons : @matrix Sample.QScalar,
    (exists y1 dy ym,
        @_endog_matrices Sample.QScalar (VECM.y Sample.model8) 1 "s"
        = Ok (y1, dy, ym, (base ++ seasons ++ trend)%list))
    /\ length seasons = 3.
Proof.
  destruct (@seasonal_terms_append_three_rows (VECM.y Sample.model8) 2 8 1 "s" "")
    as (y1 & dy & ym & base & trend & seasons & _ & E & H3 & _);
    try reflexivity; try lia.
  - repeat constructor.
  - exists base, trend, seasons. split; [| exact H3]. exists y1, dy, ym. exact E.
Defined.

(** C8 as stated fails for short samples: with four lags on the eight
    observations of the sample series only three columns remain, and
    the builder, which returns without seasonal terms, raises when they
    are requested.  With no lag at all the builder raises whatever the
    deterministic terms (the first column cannot be reshaped). *)
Lemma seasonal_terms_short_sample :
  is_ok (@_endog_matrices Sample.QScalar (VECM.y Sample.model8) 4 "") = true
  /\ is_ok (@_endog_matrices Sample.QScalar (VECM.y Sample.model8) 4 "s") = false
  /\ is_ok (@_endog_matrices Sample.QScalar (VECM.y Sample.model8) 0 "s") = false.
Proof. repeat split; vm_compute; reflexivity. Qed.

Lemma var_repr_level_VAR_witness :
  exists A : list (@matrix Sample.QScalar),
    @VECMResults.var_repr Sample.QScalar RunVar.est_p3 = Ok A /\ length A = 2 + 1.
Proof.
  destruct (@var_repr_level_VAR Sample.QScalar RunVar.est_p3 2 1 2)
    as (Pi & A & _ & E & Hl & _);
    try reflexivity; try lia; try (repeat constructor).
  exists A. split; [exact E | exact Hl].
Defined.

(** The three matrices of [RunVar.est_p3]:
    [Pi + I + gamma[:, :2]], [gamma[:, 2:4] - gamma[:, :2]], [-gamma[:, 2:]]. *)
Example var_repr_est_p3 :
  RunVar.var_matrices (@VECMResults.var_repr Sample.QScalar RunVar.est_p3)
  = [ [[3 # 2; 3]; [21 # 4; 13 # 2]];
      [[2; 2]; [2; 2]];
      [[-3; -4]; [-7; -8]] ]%Q.
Proof. vm_compute. reflexivity. Qed.

(* ================================================================== *)
(** * The normalisation of the maximum-likelihood estimate *)

Section MLFacts.
Context {S : Scalar} {L : LinAlg}.
Hypothesis shaped : ShapedLinAlg L.

Lemma dot_rows : forall A B C : matrix, dot A B = Ok C -> length C = length A.
Proof. intros A B C H. now destruct (dot_shape _ _ H). Qed.

Lemma r_matrices_rows : forall T (dx dy ym r0 r1 : matrix),
    _r_matrices T dx dy ym = Ok (r0, r1) ->
    length r0 = length dy /\ length r1 = length ym.
Proof.
  intros T dx dy ym r0 r1 H. unfold _r_matrices in H. inv_bind H.
  injection H as <- <-. split; eapply dot_rows; eassumption.
Qed.

Lemma moment_rows : forall T (A B M : matrix),
    moment T A B = Ok M -> length M = length A.
Proof.
  intros T A B M H. unfold moment in H. inv_bind H. injection H as <-.
  rewrite length_mmap. eapply dot_rows; eassumption.
Qed.

Lemma chain_dot_snoc : forall (A : matrix) (Bs : list matrix) (B : matrix),
    chain_dot A (Bs ++ [B]) = (X <- chain_dot A Bs ;; dot X B).
Proof.
  intros A Bs B. unfold chain_dot. now rewrite fold_left_app.
Qed.

Lemma chain_dot_rows : forall (Bs : list matrix) (A C : matrix),
    chain_dot A Bs = Ok C -> length C = length A.
Proof.
  induction Bs as [| B Bs IH] using rev_ind; intros A C H.
  - unfold chain_dot in H. simpl in H. now injection H as <-.
  - rewrite chain_dot_snoc in H. inv_bind H.
    apply dot_rows in H. rewrite H. now apply IH.
Qed.

Lemma chain_dot_cons : forall (A B : matrix) (Bs : list matrix),
    chain_dot A (B :: Bs) = (X <- dot A B ;; chain_dot X Bs).
Proof.
  intros A B Bs. unfold chain_dot. cbn [fold_left bind].
  destruct (dot A B) as [X | e]; [reflexivity |].
  cbn [bind]. induction Bs as [| B' Bs IH]; [reflexivity | exact IH].
Qed.

Lemma chain_dot_first : forall (A B C : matrix) (Bs : list matrix),
    chain_dot A (B :: Bs) = Ok C -> rect (length B) A.
Proof.
  intros A B C Bs H. rewrite chain_dot_cons in H. inv_bind H.
  now destruct (dot_inv _ _ E).
Qed.

Lemma mat_sqrt_rows : forall M Sq : matrix,
    mat_sqrt M = Ok Sq -> length Sq = length M.
Proof.
  intros M Sq H. unfold mat_sqrt in H. inv_bind H.
  apply dot_rows in H. cbn [bind] in E0. apply dot_rows in E0.
  rewrite H, E0. eapply (@svd_shape S L shaped); eassumption.
Qed.

(** The inverse square root and the eigenvectors that [_sij] returns are
    square, of the size of [y_min1]. *)
Lemma sij_shapes : forall (dx dy ym s00 s01 s10 s11 s11_ v : matrix) (lambd : vector),
    _sij dx dy ym = Ok (s00, s01, s10, s11, s11_, lambd, v) ->
    1 <= length ym ->
    length s11_ = length ym /\ rect (length ym) s11_
    /\ length v = length ym /\ rect (length ym) v.
Proof.
  intros dx dy ym s00 s01 s10 s11 s11_ v lambd H Hym.
  unfold _sij in H. inv_bind H. injection H as <- <- <- <- <- <- <-.
  repeat match goal with
         | H : _r_matrices _ _ _ _ = Ok _ |- _ => apply r_matrices_rows in H; destruct H
         | H : moment _ _ _ = Ok _ |- _ => apply moment_rows in H
         | H : mat_sqrt _ = Ok _ |- _ => apply mat_sqrt_rows in H
         | H : inv _ = Ok _ |- _ =>
             apply (@inv_shape S L shaped) in H; destruct H as [H _]
         | H : eig _ = Ok _ |- _ => apply (@eig_vectors S L shaped) in H; destruct H
         end.
  match goal with
  | H : chain_dot _ (_ :: _) = Ok _ |- _ =>
      pose proof H as Hw; apply chain_dot_first in Hw; apply chain_dot_rows in H
  end.
  repeat split; try congruence;
    match goal with
    | Hr : rect (length ?a) ?b |- rect _ ?b =>
        replace (length ym) with (length a) by congruence; exact Hr
    end.
Qed.
End MLFacts.

Section MLClaim.
Context {S : Scalar} {L : LinAlg}.
Local Open Scope string_scope.
Local Open Scope list_scope.

Lemma endog_matrices_y_min1_rows :
  forall (y : matrix) lags det (y1 dy ym dx : matrix),
    _endog_matrices y lags det = Ok (y1, dy, ym, dx) -> length y <= length ym.
Proof.
  intros y lags det y1 dy ym dx H. unfold _endog_matrices in H. inv_bind H.
  injection H as _ _ <- _.
  destruct (str_in "cc" det).
  - unfold vstack in E.
    destruct (_ || _); [| discriminate]. injection E as <-.
    rewrite length_app, length_cols_slice. lia.
  - injection E as <-. rewrite length_cols_slice. lia.
Qed.

Lemma cols_slice_to_full : forall (w : nat) (M : matrix),
    rect w M -> cols_slice None (Some (Z.of_nat w)) M = M.
Proof.
  intros w M H. unfold cols_slice. rewrite <- (map_id M) at 2.
  apply map_ext_in. intros row Hin. unfold rect in H. rewrite Forall_forall in H.
  rewrite py_slice_to by lia. apply firstn_ge_length. rewrite (H row Hin). lia.
Qed.

(** C2, as amended.  For every series, lag count, deterministic
    specification and rank [r] with [1 <= r <= K], when the library
    routines return arrays of their documented shapes, the leading
    [r x r] block of the [beta] that the maximum-likelihood estimator
    returns (its first [r] rows) is the product [np.dot(B, inv(B))] of
    the leading [r x r] block [B] of the unnormalised matrix
    [(v[:, :r].T.dot(s11_)).T] with the inverse the library returned for
    [B].  The block is the identity matrix whenever that product is;
    nothing in the code makes it so when [inv] and [dot] round. *)
Theorem ml_beta_leading_block :
  forall (self : VECM.t) (diff_lags : Z) (deterministic : string) (r : Z)
         (est : VECMResults.t),
    ShapedLinAlg L ->
    (1 <= r <= Z.of_nat (length (VECM.y self)))%Z ->
    VECM._estimate_vecm_ml self diff_lags deterministic r = Ok (VECM.Results est) ->
    exists (y_1_T delta_y_1_T y_min1 delta_x s00 s01 s10 s11 s11_ v vs X : matrix)
           (lambd : vector),
      _endog_matrices (VECM.y self) diff_lags deterministic
      = Ok (y_1_T, delta_y_1_T, y_min1, delta_x)
      /\ _sij delta_x delta_y_1_T y_min1 = Ok (s00, s01, s10, s11, s11_, lambd, v)
      /\ dot (transpose (cols_slice None (Some r) v)) s11_ = Ok vs
      /\ let B := rows_slice None (Some r) (transpose vs) in
         let lead := rows_slice None (Some r) (VECMResults.beta est) in
         (length B = Z.to_nat r /\ rect (Z.to_nat r) B)
         /\ inv B = Ok X
         /\ dot B X = Ok lead
         /\ (length lead = Z.to_nat r /\ rect (Z.to_nat r) lead)
         /\ cols_slice None (Some r) lead = lead
         /\ (dot B X = Ok (identity (Z.to_nat r)) -> lead = identity (Z.to_nat r)).
Proof.
  intros self diff_lags deterministic r est shaped Hr H.
  unfold VECM._estimate_vecm_ml in H. inv_bind H.
  injection H as <-.
  pose proof (endog_matrices_y_min1_rows _ _ _ E) as Hym.
  destruct (@sij_shapes S L shaped _ _ _ _ _ _ _ _ _ _ E0 ltac:(lia))
    as (Hs1 & Hs2 & Hv1 & Hv2).
  set (n := length m0) in *.
  set (k := Z.to_nat r).
  assert (Hk : 1 <= k <= n) by (unfold k; lia).
  assert (HVr : rect k (cols_slice None (Some r) m3)).
  { unfold k. apply rect_cols_slice_to with (w := n); [assumption | lia]. }
  assert (HVr1 : shape1 (cols_slice None (Some r) m3) = k).
  { apply shape1_rect; [assumption |]. intro E'.
    apply (f_equal (@length _)) in E'. rewrite length_cols_slice, Hv1 in E'.
    simpl in E'. lia. }
  destruct (dot_shape _ _ E1) as [Hx1 Hx2].
  rewrite length_transpose, HVr1 in Hx1.
  assert (Hm4 : shape1 m4 = n).
  { apply shape1_rect; [assumption |]. intro E'. rewrite E' in Hs1. simpl in Hs1. lia. }
  rewrite Hm4 in Hx2.
  assert (Hx3 : shape1 x = n).
  { apply shape1_rect; [assumption |]. intro E'. rewrite E' in Hx1. simpl in Hx1. lia. }
  assert (Hlead : rows_slice None (Some r) (transpose x) = firstn k (transpose x)).
  { unfold rows_slice. apply py_slice_to. lia. }
  assert (Hleadl : length (firstn k (transpose x)) = k).
  { rewrite length_firstn, length_transpose, Hx3. lia. }
  assert (Hleadr : rect k (firstn k (transpose x))).
  { apply Forall_firstn_rows. rewrite <- Hx1. apply rect_transpose. }
  pose proof (@dot_firstn S k _ _ _ E3) as Hcut.
  (* the beta of the container *)
  unfold VECMResults.__init__, np_vsplit, np_hsplit in E20.
  cbn [VECMResults.matrices_supplied VECMResults.is_not_None bind VECMResults.attr_of]
    in E20.
  injection E20 as <-. cbn [VECMResults.beta].
  assert (Hrows : rows_slice None (Some r)
                             (rows_slice (Some 0%Z)
                                         (Some (Z.of_nat (shape0 (VECM.y self)))) x1)
                  = firstn k x1).
  { unfold rows_slice. rewrite py_slice_to by lia.
    rewrite py_slice_range by lia. cbn [Z.to_nat skipn].
    rewrite firstn_firstn, Nat.sub_0_r.
    replace (Nat.min (Z.to_nat r) (Z.to_nat (Z.of_nat (shape0 (VECM.y self)))))
      with k by (unfold k, shape0; lia).
    reflexivity. }
  destruct (@inv_shape S L shaped _ _ E2) as [_ HX1].
  rewrite Hlead, Hleadl in HX1.
  destruct (dot_shape _ _ Hcut) as [Hl1 Hl2].
  rewrite Hleadl in Hl1. rewrite HX1 in Hl2.
  exists m1, m2, m0, m, m7, m8, m6, m5, m4, m3, x, x0, v.
  split; [exact E |]. split; [exact E0 |]. split; [exact E1 |].
  cbv zeta. rewrite Hrows, Hlead.
  split; [split; assumption |].
  split; [rewrite <- Hlead; exact E2 |].
  split; [exact Hcut |].
  split; [split; assumption |].
  split.
  - replace r with (Z.of_nat k) by (unfold k; lia).
    now apply cols_slice_to_full.
  - intro Hid. rewrite Hid in Hcut. now injection Hcut as <-.
Qed.
End MLClaim.

(** The sample routines keep the promises of [ExactLinAlg]. *)
Section SampleExact.
Import Sample.

Lemma q_eqb_eq : forall a b : Q, q_eqb a b = true -> a = b.
Proof.
  intros [an ad] [bn bd] H. unfold q_eqb in H. cbn [Qnum Qden] in H.
  apply andb_true_iff in H. destruct H as [Hn Hd].
  apply Z.eqb_eq in Hn. apply Pos.eqb_eq in Hd. now subst.
Qed.

Lemma list_eqb_eq : forall (X : Type) (eqb : X -> X -> bool),
    (forall a b, eqb a b = true -> a = b) ->
    forall l m, list_eqb eqb l m = true -> l = m.
Proof.
  intros X eqb Heq. induction l as [| x l IH]; intros [| y m] H; simpl in H;
    try reflexivity; try discriminate.
  apply andb_true_iff in H. destruct H as [Hx Hl].
  f_equal; [now apply Heq | now apply IH].
Qed.

Lemma matrix_eqb_eq : forall M N, matrix_eqb M N = true -> M = N.
Proof.
  intros M N. unfold matrix_eqb. apply list_eqb_eq. apply list_eqb_eq. exact q_eqb_eq.
Qed.

Lemma q_inv_spec : forall (M X : @matrix QScalar),
    q_inv M = Ok X ->
    @dot QScalar M X = Ok (@identity QScalar (length M)) /\ length X = length M.
Proof.
  intros M X H. unfold q_inv in H.
  destruct (negb (@rectb QScalar (length M) M)); [discriminate |].
  destruct (gauss_jordan _ _ _) as [rows |]; [| discriminate].
  destruct (@dot QScalar M (map (skipn (length M)) rows)) as [P | e] eqn:EP;
    [| discriminate].
  destruct (matrix_eqb P (@identity QScalar (length M))
            && (length (map (skipn (length M)) rows) =? length M)%nat) eqn:Ec;
    [| discriminate].
  injection H as <-. apply andb_true_iff in Ec. destruct Ec as [E1 E2].
  apply matrix_eqb_eq in E1. apply Nat.eqb_eq in E2. subst P. now split.
Qed.

Lemma QLinAlg_exact : @ExactLinAlg QScalar QLinAlg.
Proof.
  constructor.
  - intros M X H. now apply q_inv_spec.
  - intros M X H. now apply q_inv_spec.
  - intros M u s v H. cbn [svd QLinAlg] in H. unfold q_svd in H.
    destruct (is_diagonal M); [| discriminate]. injection H as <- _ _.
    apply (@length_identity QScalar).
  - intros M lambd v H. cbn [eig QLinAlg] in H. unfold q_eig in H.
    destruct (is_diagonal M); [| discriminate]. injection H as _ <-.
    split; [apply (@length_identity QScalar) | apply (@rect_identity QScalar)].
Qed.
End SampleExact.

(* ================================================================== *)
(** * The log-likelihood *)

Section LlfFacts.
Context {S : Scalar} {L : LinAlg}.

(** [llf] evaluates the closed form on the first [r] eigenvalues, in the
    order in which [eig] returned them. *)
Lemma llf_first_r :
  forall (self : VECMResults.t) (dx dy ym s00 s01 s10 s11 s11_ v : matrix)
         (lambd : vector) (log_2pi d log_det : R),
    (0 <= VECMResults.r self)%Z ->
    VECMResults.delta_x self = Some dx ->
    VECMResults.delta_y_1_T self = Some dy ->
    VECMResults.y_min1 self = Some ym ->
    _sij dx dy ym = Ok (s00, s01, s10, s11, s11_, lambd, v) ->
    math_log (rmul (rofZ 2) rpi) = Ok log_2pi ->
    det s00 = Ok d ->
    math_log d = Ok log_det ->
    VECMResults.llf self
    = Ok (llf_closed_form (VECMResults.K self) (VECMResults.T self) log_2pi log_det
            (firstn (Z.to_nat (VECMResults.r self)) lambd)).
Proof.
  intros self dx dy ym s00 s01 s10 s11 s11_ v lambd log_2pi d log_det
         Hr Hdx Hdy Hym Hsij Hlog Hdet Hld.
  unfold VECMResults.llf. rewrite Hdx, Hdy, Hym. cbn [VECMResults.attr_of bind].
  rewrite Hsij. cbn [bind]. rewrite Hlog. cbn [bind]. rewrite Hdet. cbn [bind].
  rewrite Hld. cbn [bind].
  rewrite py_slice_to by assumption. rewrite firstn_map. reflexivity.
Qed.
End LlfFacts.

(** C5 (the code departs from the claim).  For the estimate
    [fit(1, "ml", "", 1)] on the sample series the eigenvalues come back
    as [49/114, 1681/1746], the smaller first.  With [r = 1] the
    log-likelihood is the closed form on [49/114], the first eigenvalue,
    and differs from the closed form on [1681/1746], the largest. *)
Theorem llf_uses_first_not_largest :
  fst (@VECM.fit Sample.QScalar Sample.QLinAlg Sample.model8 (Some 1%Z) "ml" "" (Some 1%Z))
  = Ok (VECM.Results Run.est8)
  /\ RunLlf.eigenvalues Run.est8 = Some [49 # 114; 1681 # 1746]%Q
  /\ (Qabs (49 # 114) < Qabs (1681 # 1746))%Q
  /\ @VECMResults.llf Sample.QScalar Sample.QLinAlg Run.est8
     = Ok (@llf_closed_form Sample.QScalar 2 6 RunLlf.log_2pi RunLlf.log_det_s00
             [49 # 114]%Q)
  /\ @VECMResults.llf Sample.QScalar Sample.QLinAlg Run.est8
     <> Ok (@llf_closed_form Sample.QScalar 2 6 RunLlf.log_2pi RunLlf.log_det_s00
              [1681 # 1746]%Q).
Proof.
  split; [exact fit_ml_est8 |].
  split; [vm_compute; reflexivity |].
  split; [vm_compute; reflexivity |].
  split; [vm_compute; reflexivity |].
  intro H.
  assert (E : @VECMResults.llf Sample.QScalar Sample.QLinAlg Run.est8
              = Ok (@llf_closed_form Sample.QScalar 2 6 RunLlf.log_2pi RunLlf.log_det_s00
                      [49 # 114]%Q)) by (vm_compute; reflexivity).
  rewrite E in H. vm_compute in H. discriminate H.
Qed.

Section LsTrend.
Context {S : Scalar} {L : LinAlg}.
Local Open Scope string_scope.
Local Open Scope list_scope.

(** With a linear trend among the deterministic terms the least-squares
    estimator never returns: the split of the coefficient matrix puts
    one column too many into [pi_hat], so that either
    [pi_hat.dot(y_min1)] or [gamma_hat.dot(delta_x)] has mismatched
    shapes. *)
Lemma ls_linear_trend_never_returns :
  forall (self : VECM.t) (K N lags : nat) (det : string) (v : VECM.fitted),
    1 <= K -> length (VECM.y self) = K -> rect N (VECM.y self) ->
    1 <= lags -> lags + 2 <= N ->
    (str_in "s" det = true -> 4 <= N - lags - 1) ->
    str_in "lt" det = true ->
    VECM._estimate_vecm_ls self (Z.of_nat lags) det <> Ok v.
Proof.
  intros self K N lags det v HK Hy Hrect Hlags HN Hs Hlt H.
  destruct (@endog_matrices_ok S (VECM.y self) K N lags HK Hy Hrect Hlags HN)
    as (lagged & Hl & Hr & Hb).
  specialize (Hb det Hs).
  unfold VECM._estimate_vecm_ls in H. rewrite Hb in H. cbn [bind] in H.
  apply bind_Ok in H. destruct H as ([[pi_hat gamma_hat] sigma] & E & _).
  unfold VECM._ls_pi_gamma, np_hsplit in E. cbv beta iota zeta in E.
  rewrite Hlt in E.
  set (dy := cols_slice (Some (Z.of_nat lags + 1 - 1)%Z) None (np_diff (VECM.y self)))
    in *.
  set (ym := cols_slice (Some (Z.of_nat lags + 1 - 1)%Z) (Some (-1)%Z) (VECM.y self)
             ++ cc_rows det (N - lags - 1)) in *.
  set (dx := lagged ++ co_rows det (N - lags - 1) ++ s_rows det (N - lags - 1)
             ++ lt_rows det (N - lags - 1)) in *.
  assert (Hdy : shape0 dy = K).
  { unfold dy, shape0, np_diff. now rewrite length_cols_slice, length_map. }
  set (pc := ((if str_in "cc" det then Z.of_nat (shape0 dy) + 1 else Z.of_nat (shape0 dy))
              + 1)%Z) in *.
  assert (Hym : Z.of_nat (length ym) = (pc - 1)%Z).
  { unfold ym, pc, cc_rows. rewrite length_app, length_cols_slice, Hy, Hdy.
    destruct (str_in "cc" det); cbn [length]; lia. }
  assert (Hdx : 1 <= length dx).
  { unfold dx, lt_rows. rewrite Hlt, !length_app. cbn [length]. lia. }
  inv_bind E. clear E.
  (* the coefficient matrix has K >= 1 rows *)
  assert (Hx3 : length x3 = K).
  { rewrite (dot_rows _ _ E4). unfold hstack in E2.
    destruct (shape0 x =? shape0 x0)%nat; [| discriminate]. injection E2 as <-.
    rewrite length_zip_with, (dot_rows _ _ E0), (dot_rows _ _ E1).
    fold (shape0 dy). lia. }
  destruct x3 as [| row x3]; [simpl in Hx3; lia |].
  (* its first row cannot serve both products *)
  destruct (dot_inv _ _ E5) as [H5 _]. destruct (dot_inv _ _ E7) as [H7 _].
  cbn [cols_slice map] in H5, H7.
  inversion H5 as [| ? ? H5r _]. inversion H7 as [| ? ? H7r _].
  assert (Hpc : (0 <= pc)%Z) by lia.
  rewrite py_slice_range in H5r, H7r by lia.
  rewrite length_firstn, length_skipn in H5r, H7r.
  cbn [Z.to_nat] in H5r. lia.
Qed.
End LsTrend.

(* ================================================================== *)
(** * The layout of the builder's matrices *)

Section BuilderLayout.
Context {S : Scalar}.
Local Open Scope string_scope.
Local Open Scope list_scope.

(** The builder returns, and the shapes of what it returns. *)
Lemma builder_shapes :
  forall (y : matrix) (K N lags : nat) (deterministic : string),
    1 <= K -> length y = K -> rect N y -> 1 <= lags -> lags + 2 <= N ->
    (str_in "s" deterministic = true -> 4 <= N - lags - 1) ->
    let T := N - lags - 1 in
    exists y_1_T delta_y_1_T y_min1 delta_x : matrix,
      _endog_matrices y (Z.of_nat lags) deterministic
      = Ok (y_1_T, delta_y_1_T, y_min1, delta_x)
      /\ (length y_1_T = K /\ rect T y_1_T)
      /\ (length delta_y_1_T = K /\ rect T delta_y_1_T)
      /\ (length y_min1 = K + Nat.b2n (str_in "cc" deterministic) /\ rect T y_min1)
      /\ (length delta_x = lags * K + Nat.b2n (str_in "co" deterministic)
                           + 3 * Nat.b2n (str_in "s" deterministic)
                           + Nat.b2n (str_in "lt" deterministic)
          /\ rect T delta_x).
Proof.
  intros y K N lags det HK Hy Hrect Hlags HN Hs T.
  destruct (@endog_matrices_ok S y K N lags HK Hy Hrect Hlags HN)
    as (lagged & Hl & Hr & Hb).
  specialize (Hb det Hs). fold T in Hr, Hb.
  do 4 eexists. split; [exact Hb |].
  split; [| split; [| split]].
  - split; [now rewrite length_cols_slice |].
    replace T with (N - Z.to_nat (Z.of_nat lags + 1)) by (unfold T; lia).
    apply rect_cols_slice_from; [assumption | lia].
  - split; [unfold np_diff; now rewrite length_cols_slice, length_map |].
    replace T with (N - 1 - Z.to_nat (Z.of_nat lags + 1 - 1)) by (unfold T; lia).
    apply rect_cols_slice_from; [now apply rect_np_diff | lia].
  - unfold cc_rows. split.
    + rewrite length_app, length_cols_slice, Hy.
      destruct (str_in "cc" det); reflexivity.
    + apply rect_app; [apply (@rect_y_min1 S y N lags Hrect) |].
      destruct (str_in "cc" det); [apply rect_single, repeat_length | constructor].
  - unfold co_rows, s_rows, lt_rows. split.
    + rewrite !length_app, Hl.
      destruct (str_in "co" det), (str_in "s" det), (str_in "lt" det);
        cbn [length Nat.b2n seasonal_pattern map]; lia.
    + repeat apply rect_app; try assumption.
      * destruct (str_in "co" det); [apply rect_single, repeat_length | constructor].
      * destruct (str_in "s" det); [apply rect_seasonal_pattern | constructor].
      * destruct (str_in "lt" det); [apply rect_single, length_arange_plus_1 | constructor].
Qed.

(** X1.  The shapes of the four matrices.  For a series of [K >= 1] variables
    and [N] observations, [lags >= 1] and [T = N - lags - 1 >= 1] sample
    columns ([T >= 4] with seasonal terms), the builder returns [y_1_T]
    and [delta_y_1_T] of shape [K x T], [y_min1] with one more row when
    the constant lies inside the cointegration relation, and [delta_x]
    with [K * lags] rows plus one for the constant outside, three for
    the seasons and one for the trend; all have [T] columns. *)
Theorem endog_matrices_shapes :
  forall (y : matrix) (K N lags : nat) (deterministic : string),
    1 <= K -> length y = K -> rect N y -> 1 <= lags -> lags + 2 <= N ->
    (str_in "s" deterministic = true -> 4 <= N - lags - 1) ->
    let T := N - lags - 1 in
    exists y_1_T delta_y_1_T y_min1 delta_x : matrix,
      _endog_matrices y (Z.of_nat lags) deterministic
      = Ok (y_1_T, delta_y_1_T, y_min1, delta_x)
      /\ (length y_1_T = K /\ rect T y_1_T)
      /\ (length delta_y_1_T = K /\ rect T delta_y_1_T)
      /\ (length y_min1 = K + Nat.b2n (str_in "cc" deterministic) /\ rect T y_min1)
      /\ (length delta_x = lags * K + Nat.b2n (str_in "co" deterministic)
                           + 3 * Nat.b2n (str_in "s" deterministic)
                           + Nat.b2n (str_in "lt" deterministic)
          /\ rect T delta_x).
Proof.
  intros y K N lags deterministic HK Hy Hrect Hlags HN Hs.
  exact (@builder_shapes y K N lags deterministic HK Hy Hrect Hlags HN Hs).
Qed.

(** X2.  The rows of the deterministic terms.  The constant inside the
    cointegration relation is a last row of ones of [y_min1] and leaves
    [delta_x] alone; the constant outside is the row of ones right below
    the [K * lags] rows of lagged differences of [delta_x]; the linear
    trend is the last row of [delta_x] and reads [1, 2, ..., T]. *)
Theorem endog_matrices_deterministic_rows :
  forall (y : matrix) (K N lags : nat) (deterministic : string),
    1 <= K -> length y = K -> rect N y -> 1 <= lags -> lags + 2 <= N ->
    (str_in "s" deterministic = true -> 4 <= N - lags - 1) ->
    let T := N - lags - 1 in
    exists y_1_T delta_y_1_T y_min1 delta_x : matrix,
      _endog_matrices y (Z.of_nat lags) deterministic
      = Ok (y_1_T, delta_y_1_T, y_min1, delta_x)
      /\ firstn K y_min1 = cols_slice (Some (Z.of_nat lags)) (Some (-1)%Z) y
      /\ (if str_in "cc" deterministic
          then length y_min1 = K + 1 /\ nth K y_min1 [] = np_ones T
          else length y_min1 = K)
      /\ (str_in "co" deterministic = true -> nth (lags * K) delta_x [] = np_ones T)
      /\ (str_in "lt" deterministic = true ->
          last delta_x [] = map (fun j => rofZ (Z.of_nat j + 1)) (seq 0 T)).
Proof.
  intros y K N lags det HK Hy Hrect Hlags HN Hs T.
  destruct (@endog_matrices_ok S y K N lags HK Hy Hrect Hlags HN)
    as (lagged & Hl & Hr & Hb).
  specialize (Hb det Hs). fold T in Hr, Hb.
  replace (Z.of_nat lags + 1 - 1)%Z with (Z.of_nat lags) in Hb by lia.
  do 4 eexists. split; [exact Hb |].
  assert (Hym : length (cols_slice (Some (Z.of_nat lags)) (Some (-1)%Z) y) = K)
    by now rewrite length_cols_slice.
  split; [| split; [| split]].
  - rewrite firstn_app, Hym, Nat.sub_diag, firstn_O, app_nil_r.
    apply firstn_ge_length. lia.
  - unfold cc_rows. destruct (str_in "cc" det).
    + split; [rewrite length_app, Hym; reflexivity |].
      rewrite app_nth2 by lia. now rewrite Hym, Nat.sub_diag.
    + now rewrite app_nil_r.
  - intro Hco. unfold co_rows. rewrite Hco.
    rewrite app_nth2 by lia. now rewrite Hl, Nat.sub_diag.
  - intro Hlt. unfold lt_rows. rewrite Hlt.
    rewrite !app_assoc. apply last_last.
Qed.
End BuilderLayout.

Lemma endog_matrices_shapes_witness :
  exists y1 dy ym dx : @matrix Sample.QScalar,
    @_endog_matrices Sample.QScalar (VECM.y Sample.model8) 1 "cclt"
    = Ok (y1, dy, ym, dx)
    /\ length ym = 3 /\ length dx = 3 /\ @rect Sample.QScalar 6 dx.
Proof.
  destruct (@endog_matrices_shapes Sample.QScalar (VECM.y Sample.model8) 2 8 1 "cclt")
    as (y1 & dy & ym & dx & E & _ & _ & [Hym _] & [Hdx Hr]);
    try reflexivity; try lia; try (repeat constructor).
  exists y1, dy, ym, dx. repeat split; assumption.
Defined.

Lemma endog_matrices_deterministic_rows_witness :
  exists y1 dy ym dx : @matrix Sample.QScalar,
    @_endog_matrices Sample.QScalar (VECM.y Sample.model8) 1 "colt"
    = Ok (y1, dy, ym, dx)
    /\ nth 2 dx [] = [1; 1; 1; 1; 1; 1]%Q
    /\ last dx [] = [1; 2; 3; 4; 5; 6]%Q.
Proof.
  destruct (@endog_matrices_deterministic_rows Sample.QScalar (VECM.y Sample.model8)
              2 8 1 "colt")
    as (y1 & dy & ym & dx & E & _ & _ & Hco & Hlt);
    try reflexivity; try lia; try (repeat constructor).
  exists y1, dy, ym, dx. split; [exact E |]. split.
  - exact (Hco eq_refl).
  - exact (Hlt eq_refl).
Defined.

(* ================================================================== *)
(** * The entries of the builder's matrices *)

Section BuilderEntries.
Context {S : Scalar}.
Local Open Scope string_scope.
Local Open Scope list_scope.

Lemma diff1_zip : forall v : vector, diff1 v = zip_with rsub (tl v) v.
Proof.
  induction v as [| a [| b v] IH]; try reflexivity.
  change (diff1 (a :: b :: v)) with (rsub b a :: diff1 (b :: v)).
  rewrite IH. reflexivity.
Qed.

Lemma skipn_zip_with : forall (X Y Z : Type) (f : X -> Y -> Z) (k : nat) l m,
    skipn k (zip_with f l m) = zip_with f (skipn k l) (skipn k m).
Proof.
  intros X Y Z f. induction k as [| k IH]; intros l m; [reflexivity |].
  destruct l as [| x l]; [reflexivity |].
  destruct m as [| y m]; [now destruct (skipn (Datatypes.S k) (x :: l)) |].
  apply IH.
Qed.

Lemma zip_with_firstn_r : forall (X Y Z : Type) (f : X -> Y -> Z) (n : nat) l m,
    length l <= n -> zip_with f l (firstn n m) = zip_with f l m.
Proof.
  intros X Y Z f. induction n as [| n IH]; intros l m H.
  - destruct l; [reflexivity | simpl in H; lia].
  - destruct l as [| x l]; [reflexivity |]. destruct m as [| y m]; [reflexivity |].
    simpl. f_equal. apply IH. simpl in H. lia.
Qed.

(** [l[a:-1]] for [0 <= a]. *)
Lemma py_slice_to_last : forall (X : Type) (l : list X) (a : nat),
    py_slice (Some (Z.of_nat a)) (Some (-1)%Z) l
    = firstn (length l - 1 - a) (skipn a l).
Proof.
  intros X l a. unfold py_slice, clamp_index.
  destruct (Z.ltb_spec (Z.of_nat a) 0) as [E | _]; [lia |].
  change (-1 <? 0)%Z with true. cbv iota.
  destruct (Nat.le_gt_cases a (length l)) as [Hle | Hgt].
  - f_equal; [lia | f_equal; lia].
  - rewrite !skipn_all2 by lia. now rewrite !firstn_nil.
Qed.

(** One row of [y[:, p:] - y[:, p-1:-1]] and of [np.diff(y)[:, p-1:]]. *)
Lemma first_differences_row : forall (lags : nat) (row : vector),
    zip_with rsub (py_slice (Some (Z.of_nat lags + 1)%Z) None row)
                  (py_slice (Some (Z.of_nat lags)) (Some (-1)%Z) row)
    = py_slice (Some (Z.of_nat lags)) None (diff1 row).
Proof.
  intros lags row.
  rewrite !py_slice_from by lia. rewrite py_slice_to_last.
  rewrite zip_with_firstn_r by (rewrite length_skipn; lia).
  rewrite diff1_zip, skipn_zip_with.
  replace (Z.to_nat (Z.of_nat lags + 1)) with (Datatypes.S lags) by lia.
  rewrite Nat2Z.id.
  replace (skipn lags (tl row)) with (skipn (Datatypes.S lags) row); [reflexivity |].
  destruct row as [| a row]; [now rewrite !skipn_nil |]. reflexivity.
Qed.

(** X3.  The differences are those of the two level matrices: the builder's
    [delta_y_1_T] is [y_1_T] minus the first [K] rows of [y_min1] (the
    rows of [y_min1] that hold data), entry by entry. *)
Theorem endog_matrices_first_differences :
  forall (y : matrix) (K N lags : nat) (deterministic : string)
         (y_1_T delta_y_1_T y_min1 delta_x : matrix),
    length y = K -> rect N y ->
    _endog_matrices y (Z.of_nat lags) deterministic
    = Ok (y_1_T, delta_y_1_T, y_min1, delta_x) ->
    msub y_1_T (rows_slice None (Some (Z.of_nat K)) y_min1) = Ok delta_y_1_T.
Proof.
  intros y K N lags det y1 dy ym dx Hy Hrect H.
  unfold _endog_matrices in H. inv_bind H. injection H as <- <- <- _.
  replace (Z.of_nat lags + 1 - 1)%Z with (Z.of_nat lags) in * by lia.
  set (top := cols_slice (Some (Z.of_nat lags)) (Some (-1)%Z) y) in *.
  assert (Htop : rows_slice None (Some (Z.of_nat K)) x = top).
  { assert (Hl : length top = K) by (unfold top; now rewrite length_cols_slice).
    assert (Hx : exists extra, x = top ++ extra).
    { destruct (str_in "cc" det).
      - unfold vstack in E. destruct (_ || _); [| discriminate].
        injection E as <-. eauto.
      - injection E as <-. exists []. now rewrite app_nil_r. }
    destruct Hx as (extra & ->). unfold rows_slice.
    rewrite py_slice_to by lia. rewrite Nat2Z.id.
    rewrite firstn_app, Hl, Nat.sub_diag, firstn_O, app_nil_r.
    apply firstn_ge_length. lia. }
  rewrite Htop. unfold msub.
  rewrite elementwise_same_shape with (c := N - Z.to_nat (Z.of_nat lags + 1)).
  - f_equal. unfold top, cols_slice, np_diff. rewrite map_map.
    clear. induction y as [| row y IH]; [reflexivity |].
    cbn [map zip_with]. rewrite IH. f_equal. apply first_differences_row.
  - unfold top. now rewrite !length_cols_slice.
  - unfold cols_slice, rect in *. apply Forall_map.
    eapply Forall_impl; [| exact Hrect]. intros row Hr. cbv beta in Hr.
    rewrite py_slice_from by lia. rewrite length_skipn. lia.
  - unfold top, cols_slice, rect in *. apply Forall_map.
    eapply Forall_impl; [| exact Hrect]. intros row Hr. cbv beta in Hr.
    rewrite py_slice_to_last, length_firstn, length_skipn. lia.
Qed.
End BuilderEntries.

Lemma endog_matrices_first_differences_witness :
  @msub Sample.QScalar
    [[2; 0; 1; 1; 2; -1]; [-1; 0; 2; -1; -2; 1]]%Q
    (@rows_slice Sample.QScalar None (Some 2%Z)
       [[-1; 2; 0; 1; 1; 2]; [-1; -1; 0; 2; -1; -2]; [1; 1; 1; 1; 1; 1]]%Q)
  = Ok [[3; -2; 1; 0; 1; -3]; [0; 1; 2; -3; -1; 3]]%Q.
Proof.
  apply (@endog_matrices_first_differences Sample.QScalar (VECM.y Sample.model8)
           2 8 1 "cc" _ _ _ [[1; 3; -2; 1; 0; 1]; [1; 0; 1; 2; -3; -1]]%Q).
  - reflexivity.
  - repeat constructor.
  - vm_compute. reflexivity.
Defined.

Section LaggedEntries.
Context {S : Scalar}.
Local Open Scope string_scope.
Local Open Scope list_scope.

(** A loop over [range(a, a + n)] with an invariant that depends on the
    number of iterations done. *)
Lemma for_each_seq_invariant :
  forall (St : Type) (P : nat -> St -> Prop) (body : nat -> St -> res St)
         (n a : nat) (s : St),
    P a s ->
    (forall j s, a <= j < a + n -> P j s ->
                 exists s', body j s = Ok s' /\ P (Datatypes.S j) s') ->
    exists s', for_each (seq a n) body s = Ok s' /\ P (a + n) s'.
Proof.
  intros St P body. induction n as [| n IH]; intros a s Hs Hbody.
  - exists s. rewrite Nat.add_0_r. now split.
  - destruct (Hbody a s ltac:(lia) Hs) as (s1 & E1 & P1).
    destruct (IH (Datatypes.S a) s1 P1) as (s2 & E2 & P2).
    { intros j t Hj Ht. apply Hbody; [lia | assumption]. }
    exists s2. split.
    + cbn [seq for_each]. rewrite E1. exact E2.
    + now replace (a + Datatypes.S n) with (Datatypes.S a + n) by lia.
Qed.

Lemma nth_zip_with : forall (X Y Z : Type) (f : X -> Y -> Z) l m (q : nat) dx dy dz,
    q < length l -> q < length m ->
    nth q (zip_with f l m) dz = f (nth q l dx) (nth q m dy).
Proof.
  intros X Y Z f. induction l as [| x l IH]; intros m q dx dy dz Hl Hm.
  - simpl in Hl. lia.
  - destruct m as [| y m]; [simpl in Hm; lia |].
    destruct q as [| q]; [reflexivity |].
    simpl. apply IH; simpl in *; lia.
Qed.

Lemma nth_map_seq : forall (X : Type) (f : nat -> X) (n k : nat) (d : X),
    k < n -> nth k (map f (seq 0 n)) d = f k.
Proof.
  intros X f n k d H.
  rewrite (nth_indep _ d (f 0)) by (now rewrite length_map, length_seq).
  now rewrite map_nth, seq_nth.
Qed.

Lemma nth_concat_rect : forall (c : nat) (M : matrix) (k i : nat) (d : R),
    rect c M -> k < length M -> i < c ->
    nth (k * c + i) (concat M) d = nth i (nth k M []) d.
Proof.
  intros c M k i d H. revert k. induction H as [| row M Hrow HM IH]; intros k Hk Hi.
  - simpl in Hk. lia.
  - cbn [concat]. destruct k as [| k].
    + cbn [Nat.mul Nat.add nth]. apply app_nth1. lia.
    + rewrite app_nth2 by (rewrite Hrow; simpl; lia).
      replace (Datatypes.S k * c + i - length row) with (k * c + i)
        by (rewrite Hrow; simpl; lia).
      cbn [nth]. apply IH; [simpl in Hk; lia | assumption].
Qed.

Lemma nth_col : forall (k i : nat) (M : matrix),
    nth i (col k M) rzero = nth k (nth i M []) rzero.
Proof.
  intros k i M. unfold col. revert i.
  induction M as [| row M IH]; intros [| i]; cbn [map nth]; try apply IH; try reflexivity.
  - now destruct k.
  - now destruct k.
Qed.

(** The window [l[j+lags-1 : j-1 : -1]] read backwards. *)
Lemma nth_py_slice_rev_window : forall (X : Type) (l : list X) (j lags k : nat) (d : X),
    k < lags -> j + lags <= length l ->
    nth k (py_slice_rev (Z.of_nat j + (Z.of_nat lags + 1) - 2)
                        (if (Z.of_nat j - 1 <? 0)%Z then None
                         else Some (Z.of_nat j - 1)%Z) l) d
    = nth (j + lags - 1 - k) l d.
Proof.
  intros X l j lags k d Hk Hj. unfold py_slice_rev, clamp_index_rev.
  destruct (Z.ltb_spec (Z.of_nat j + (Z.of_nat lags + 1) - 2) 0) as [E | _]; [lia |].
  set (e := match (if (Z.of_nat j - 1 <? 0)%Z then None else Some (Z.of_nat j - 1)%Z) with
            | Some i => if (i <? 0)%Z
                        then if (i + Z.of_nat (length l) <? 0)%Z then (-1)%Z
                             else (i + Z.of_nat (length l))%Z
                        else Z.min i (Z.of_nat (length l) - 1)
            | None => (-1)%Z
            end).
  assert (He : e = (Z.of_nat j - 1)%Z).
  { unfold e. destruct (Z.ltb_spec (Z.of_nat j - 1) 0) as [E | E]; [lia |].
    destruct (Z.ltb_spec (Z.of_nat j - 1) 0) as [E' | _]; lia. }
  rewrite He.
  replace (Z.to_nat (Z.min (Z.of_nat j + (Z.of_nat lags + 1) - 2)
                           (Z.of_nat (length l) - 1) - (Z.of_nat j - 1))) with lags by lia.
  replace (Z.to_nat (Z.of_nat j - 1 + 1)) with j by lia.
  assert (Hw : length (firstn lags (skipn j l)) = lags).
  { rewrite length_firstn, length_skipn. lia. }
  rewrite rev_nth by lia. rewrite Hw.
  rewrite nth_firstn.
  destruct (Nat.ltb_spec (lags - Datatypes.S k) lags) as [_ | E]; [| lia].
  rewrite nth_skipn. f_equal. lia.
Qed.

(** The entries of column [j] of the lagged differences: block [k]
    holds column [j + lags - 1 - k] of [np.diff(y)]. *)
Lemma lagged_differences_entries : forall (y : matrix) (K N lags j : nat) (v : vector),
    1 <= K -> length y = K -> rect N y -> 1 <= lags -> j < N - lags - 1 ->
    lagged_differences (np_diff y) (Z.of_nat K) (Z.of_nat lags + 1) j = Ok v ->
    length v = lags * K
    /\ forall k i, k < lags -> i < K ->
         nth (k * K + i) v rzero
         = nth (j + lags - 1 - k) (nth i (np_diff y) []) rzero.
Proof.
  intros y K N lags j v HK Hy Hrect Hlags Hj H.
  destruct (@lagged_differences_ok S y K N lags j HK Hy Hrect Hlags Hj) as (v' & Ev & Hv).
  rewrite H in Ev. injection Ev as <-. split; [exact Hv |].
  intros k i Hk Hi.
  unfold lagged_differences, transpose_reshape in H.
  set (W := cols_slice_rev _ _ (np_diff y)) in H.
  destruct (_ =? _)%Z; [| discriminate]. injection H as <-.
  pose proof (@rect_np_diff S N y Hrect) as Hd. unfold rect in Hd.
  assert (HW : rect lags W).
  { unfold W, cols_slice_rev, rect. apply Forall_map.
    eapply Forall_impl; [| exact Hd]. intros row Hr. cbv beta in Hr.
    apply length_py_slice_rev_window; [assumption |]. lia. }
  assert (HWl : length W = K).
  { unfold W, cols_slice_rev, np_diff. now rewrite !length_map. }
  assert (HW1 : shape1 W = lags).
  { apply shape1_rect; [assumption |]. intro E. rewrite E in HWl. simpl in HWl. lia. }
  pose proof (rect_transpose W) as Ht. rewrite HWl in Ht.
  rewrite (@nth_concat_rect K (transpose W) k i rzero Ht)
    by (try rewrite length_transpose, HW1; assumption).
  unfold transpose. rewrite HW1, nth_map_seq by assumption.
  rewrite nth_col. unfold W, cols_slice_rev.
  set (a := (Z.of_nat j + (Z.of_nat lags + 1) - 2)%Z).
  set (b := if (Z.of_nat j - 1 <? 0)%Z then None else Some (Z.of_nat j - 1)%Z).
  assert (Hnil : py_slice_rev a b (@nil R) = []).
  { unfold py_slice_rev. now rewrite skipn_nil, firstn_nil. }
  rewrite <- Hnil at 1. rewrite (map_nth (py_slice_rev a b)).
  unfold a, b. apply nth_py_slice_rev_window; [assumption |].
  assert (Hin : length (nth i (np_diff y) []) = N - 1).
  { rewrite Forall_forall in Hd. apply Hd, nth_In.
    unfold np_diff. rewrite length_map. unfold matrix, vector in *.
    rewrite Hy. exact Hi. }
  rewrite Hin. lia.
Qed.
End LaggedEntries.

Section LaggedBlock.
Context {S : Scalar}.
Local Open Scope string_scope.
Local Open Scope list_scope.

Lemma nth_diff1 : forall (v : vector) (m : nat),
    m + 1 < length v ->
    nth m (diff1 v) rzero = rsub (nth (m + 1) v rzero) (nth m v rzero).
Proof.
  induction v as [| a [| b v] IH]; intros m H; try (simpl in H; lia).
  change (diff1 (a :: b :: v)) with (rsub b a :: diff1 (b :: v)).
  destruct m as [| m]; [reflexivity |].
  replace (Datatypes.S m + 1) with (Datatypes.S (m + 1)) by lia.
  cbn [nth]. apply IH. simpl in *. lia.
Qed.

Lemma vstack_inv : forall A B C : matrix, vstack A B = Ok C -> C = A ++ B.
Proof.
  intros A B C H. unfold vstack in H.
  destruct (_ || _); [now injection H as <- | discriminate].
Qed.

(** The loop that fills the rows of lagged differences, and the entries
    it leaves. *)
Lemma lag_loop_entries : forall (y : matrix) (K N lags : nat) (lagged : matrix),
    1 <= K -> length y = K -> rect N y -> 1 <= lags ->
    for_each (seq 0 (N - lags - 1))
      (fun j dx =>
         v <- lagged_differences (np_diff y) (Z.of_nat K) (Z.of_nat lags + 1) j ;;
         assign_col j v dx)
      (repeat (repeat rzero (N - lags - 1)) (lags * K)) = Ok lagged ->
    length lagged = lags * K
    /\ forall k i j, k < lags -> i < K -> j < N - lags - 1 ->
         nth j (nth (k * K + i) lagged []) rzero
         = nth (j + lags - 1 - k) (nth i (np_diff y) []) rzero.
Proof.
  intros y K N lags lagged HK Hy Hrect Hlags H.
  set (T := N - lags - 1) in *.
  set (P := fun (n : nat) (dx : matrix) =>
              length dx = lags * K /\ rect T dx
              /\ forall k i j, k < lags -> i < K -> j < n ->
                   nth j (nth (k * K + i) dx []) rzero
                   = nth (j + lags - 1 - k) (nth i (np_diff y) []) rzero).
  destruct (@for_each_seq_invariant matrix P
              (fun j dx =>
                 v <- lagged_differences (np_diff y) (Z.of_nat K) (Z.of_nat lags + 1) j ;;
                 assign_col j v dx)
              T 0 (repeat (repeat rzero T) (lags * K)))
    as (s' & Es & Hl & _ & Hent).
  - unfold P. split; [apply repeat_length |]. split; [| intros; lia].
    apply Forall_forall. intros row Hin. apply repeat_spec in Hin. subst row.
    apply repeat_length.
  - intros j dx Hj (Hl & Hr & Hent).
    destruct (@lagged_differences_ok S y K N lags j HK Hy Hrect Hlags) as (v & Ev & Hv);
      [unfold T in Hj; lia |].
    destruct (@lagged_differences_entries S y K N lags j v HK Hy Hrect Hlags
                ltac:(unfold T in Hj; lia) Ev) as [_ Hve].
    rewrite Ev. cbn [bind].
    assert (Ea : assign_col j v dx
                 = Ok (zip_with (fun row x => assign_nth j x row) dx v)).
    { unfold assign_col, shape0. rewrite Hv, Hl, Nat.eqb_refl. reflexivity. }
    eexists. split; [exact Ea |].
    destruct (@length_assign_col_rows S j v dx _ T Ea Hr) as [H1 H2].
    unfold P. split; [congruence |]. split; [assumption |].
    intros k i j' Hk Hi Hj'.
    assert (Hq : k * K + i < lags * K) by nia.
    rewrite (@nth_zip_with _ _ _ (fun row x => assign_nth j x row) dx v
               (k * K + i) [] rzero []) by lia.
    destruct (Nat.eq_dec j' j) as [-> | Hne].
    + rewrite nth_assign_nth_eq; [now apply Hve |].
      unfold rect in Hr. rewrite Forall_forall in Hr.
      rewrite (Hr (nth (k * K + i) dx [])) by (apply nth_In; lia). lia.
    + rewrite nth_assign_nth_neq by congruence. apply Hent; [assumption .. | lia].
  - rewrite H in Es. injection Es as <-. split; [exact Hl |].
    intros k i j Hk Hi Hj. apply Hent; [assumption .. | lia].
Qed.

(** X4.  The rows of lagged differences.  For [k < lags] the rows
    [k*K ... k*K + K-1] of [delta_x] hold the differences lagged [k + 1]
    times: the entry in row [k*K + i] and column [j] is the difference
    of variable [i] between the observations [j + lags - k] and
    [j + lags - k - 1] of the series, column [j] being the observation
    [j + lags + 1]. *)
Theorem endog_matrices_lagged_differences :
  forall (y : matrix) (K N lags : nat) (deterministic : string)
         (y_1_T delta_y_1_T y_min1 delta_x : matrix),
    1 <= K -> length y = K -> rect N y -> 1 <= lags ->
    _endog_matrices y (Z.of_nat lags) deterministic
    = Ok (y_1_T, delta_y_1_T, y_min1, delta_x) ->
    forall k i j, k < lags -> i < K -> j < N - lags - 1 ->
      nth j (nth (k * K + i) delta_x []) rzero
      = rsub (nth (j + lags - k) (nth i y []) rzero)
             (nth (j + lags - k - 1) (nth i y []) rzero).
Proof.
  intros y K N lags det y1 dy ym dx HK Hy Hrect Hlags H k i j Hk Hi Hj.
  unfold _endog_matrices in H. cbv zeta in H.
  rewrite (@shape1_y_1_T S y K N lags HK Hy Hrect) in H.
  unfold shape0 in H. rewrite Hy in H.
  rewrite <- Nat2Z.inj_mul, np_zeros_nat in H.
  inv_bind H. injection H as _ _ _ <-. injection E0 as <-.
  destruct (@lag_loop_entries y K N lags x1 HK Hy Hrect Hlags E1) as [Hl Hent].
  assert (Hx : exists extra, x4 = x1 ++ extra).
  { assert (H2 : exists e2, x2 = x1 ++ e2).
    { destruct (str_in "co" det).
      - apply vstack_inv in E2. eauto.
      - injection E2 as <-. exists []. now rewrite app_nil_r. }
    destruct H2 as (e2 & ->).
    assert (H3 : exists e3, x3 = x1 ++ e3).
    { destruct (str_in "s" det).
      - inv_bind E3. apply vstack_inv in E3. subst x3. rewrite <- app_assoc. eauto.
      - injection E3 as <-. eauto. }
    destruct H3 as (e3 & ->).
    destruct (str_in "lt" det).
    - apply vstack_inv in E4. subst x4. rewrite <- app_assoc. eauto.
    - injection E4 as <-. eauto. }
  destruct Hx as (extra & ->).
  assert (Hq : k * K + i < lags * K) by nia.
  rewrite app_nth1 by lia.
  rewrite Hent by assumption.
  assert (Hrow : nth i (np_diff y) [] = diff1 (nth i y [])).
  { unfold np_diff. change (@nil R) with (diff1 []) at 1. apply map_nth. }
  rewrite Hrow.
  assert (Hlen : length (nth i y []) = N).
  { unfold rect in Hrect. rewrite Forall_forall in Hrect. apply Hrect, nth_In.
    unfold matrix, vector in *. rewrite Hy. exact Hi. }
  rewrite nth_diff1 by lia.
  f_equal; f_equal; lia.
Qed.
End LaggedBlock.

Lemma endog_matrices_lagged_differences_witness :
  nth 1 (nth (0 * 2 + 0) [[1; 3; -2; 1; 0; 1]; [1; 0; 1; 2; -3; -1]]%Q []) 0%Q
  = @rsub Sample.QScalar
      (nth (1 + 1 - 0) (nth 0 (VECM.y Sample.model8) []) 0%Q)
      (nth (1 + 1 - 0 - 1) (nth 0 (VECM.y Sample.model8) []) 0%Q).
Proof.
  apply (@endog_matrices_lagged_differences Sample.QScalar (VECM.y Sample.model8)
           2 8 1 "" [[2; 0; 1; 1; 2; -1]; [-1; 0; 2; -1; -2; 1]]%Q
           [[3; -2; 1; 0; 1; -3]; [0; 1; 2; -3; -1; 3]]%Q
           [[-1; 2; 0; 1; 1; 2]; [-1; -1; 0; 2; -1; -2]]%Q
           [[1; 3; -2; 1; 0; 1]; [1; 0; 1; 2; -3; -1]]%Q); try lia.
  - reflexivity.
  - repeat constructor.
  - vm_compute. reflexivity.
Defined.

(* ================================================================== *)
(** * Where the builder raises *)

Section BuilderEdges.
Context {S : Scalar}.
Local Open Scope string_scope.
Local Open Scope list_scope.

(** [l[-1::-1]] is [l] read backwards. *)
Lemma py_slice_rev_all : forall (X : Type) (l : list X),
    py_slice_rev (-1) None l = rev l.
Proof.
  intros X l. unfold py_slice_rev, clamp_index_rev.
  change (-1 <? 0)%Z with true. cbv iota.
  destruct l as [| x l]; [reflexivity |].
  destruct (Z.ltb_spec (-1 + Z.of_nat (length (x :: l))) 0) as [E | _];
    [cbn [length] in E; lia |].
  change (Z.to_nat (-1 + 1)) with 0. cbn [skipn].
  f_equal. apply firstn_ge_length. lia.
Qed.

Lemma seasonal_rows_short : forall T,
    1 <= T <= 3 ->
    exists M : matrix, seasonal_rows T = Ok M /\ length M = 3 /\ shape1 M = T - 1.
Proof.
  intros T HT.
  assert (HT' : T = 1 \/ T = 2 \/ T = 3) by lia.
  destruct HT' as [-> | [-> | ->]]; eexists; (split; [vm_compute; reflexivity |]);
    split; reflexivity.
Qed.

(** With [diff_lags = 0] the first column of [delta_x] cannot be filled. *)
Lemma no_lag_reshape_fails :
  forall (y : matrix) (K N : nat) (deterministic : string),
    1 <= K -> length y = K -> rect N y -> 2 <= N ->
    _endog_matrices y 0 deterministic = Raise (ValueError "cannot reshape array").
Proof.
  intros y K N det HK Hy Hrect HN.
  unfold _endog_matrices. cbv zeta.
  change (0 + 1)%Z with (Z.of_nat 0 + 1)%Z.
  rewrite (@shape1_y_1_T S y K N 0 HK Hy Hrect).
  assert (E1 : exists ym,
             (if str_in "cc" det
              then vstack (cols_slice (Some (Z.of_nat 0 + 1 - 1)%Z) (Some (-1)%Z) y)
                          [np_ones (N - 0 - 1)]
              else Ok (cols_slice (Some (Z.of_nat 0 + 1 - 1)%Z) (Some (-1)%Z) y))
             = Ok ym).
  { destruct (str_in "cc" det); [| eauto].
    eexists. apply vstack_ok with (w := N - 0 - 1).
    - intro E. apply (f_equal (@length _)) in E. rewrite length_cols_slice in E.
      unfold matrix, vector in *. rewrite Hy in E. simpl in E. lia.
    - apply (@rect_y_min1 S y N 0 Hrect).
    - apply rect_single, repeat_length. }
  destruct E1 as (ym & E1). unfold matrix, vector in *. rewrite E1, bind_ret. cbv beta.
  change (Z.of_nat 0) with 0%Z. rewrite Z.mul_0_l.
  unfold np_zeros at 1.
  destruct (Z.ltb_spec (Z.of_nat (N - 0 - 1)) 0) as [E | _]; [lia |].
  change (0 <? 0)%Z with false. cbn [orb Z.to_nat repeat].
  rewrite bind_ret. cbv beta.
  destruct (N - 0 - 1) as [| T'] eqn:ET; [lia |].
  cbn [seq for_each].
  assert (Ev : lagged_differences (np_diff y) (Z.of_nat (shape0 y)) (0 + 1) 0
               = Raise (ValueError "cannot reshape array")).
  { unfold lagged_differences, transpose_reshape. cbn [Z.of_nat].
    change (0 + (0 + 1) - 2)%Z with (-1)%Z.
    change (0 - 1 <? 0)%Z with true. cbv iota.
    set (W := cols_slice_rev (-1) None (np_diff y)).
    assert (HW : rect (N - 1) W).
    { unfold W, cols_slice_rev. apply Forall_map.
      pose proof (@rect_np_diff S N y Hrect) as Hd.
      eapply Forall_impl; [| exact Hd]. intros row Hr. cbv beta in Hr.
      now rewrite py_slice_rev_all, length_rev. }
    assert (HWl : length W = K).
    { unfold W, cols_slice_rev, np_diff. rewrite !length_map. exact Hy. }
    assert (HW1 : shape1 W = N - 1).
    { apply shape1_rect; [assumption |]. intro E. rewrite E in HWl. simpl in HWl. lia. }
    rewrite (@length_concat_rect S (length W) (transpose W) (rect_transpose W)).
    rewrite length_transpose, HW1, HWl.
    destruct (Z.eqb_spec (Z.of_nat ((N - 1) * K)) (Z.of_nat (shape0 y) * (0 + 1 - 1)))
      as [E | _]; [nia | reflexivity]. }
  unfold matrix, vector in *. rewrite Ev. reflexivity.
Qed.

(** X5.  Seasonal terms on fewer than four sample columns.  With [lags >= 1]
    and [T = N - lags - 1] between one and three, the rotation
    [hstack((seasons[:, 1:4], seasons[:, :-3]))] leaves [T - 1] columns,
    and stacking the seasonal rows under [delta_x] raises a
    [ValueError]. *)
Theorem endog_matrices_seasonal_short_sample :
  forall (y : matrix) (K N lags : nat) (deterministic : string),
    1 <= K -> length y = K -> rect N y -> 1 <= lags ->
    1 <= N - lags - 1 <= 3 ->
    str_in "s" deterministic = true ->
    _endog_matrices y (Z.of_nat lags) deterministic
    = Raise (ValueError "all the input array dimensions except for the concatenation axis must match exactly").
Proof.
  intros y K N lags det HK Hy Hrect Hlags HT Hs.
  destruct (@lag_loop_ok S y K N lags HK Hy Hrect Hlags) as (lagged & Eloop & Hl & Hr).
  set (T := N - lags - 1) in *. set (p := (Z.of_nat lags + 1)%Z) in *.
  assert (Hne : lagged <> []).
  { intro E. rewrite E in Hl. simpl in Hl. nia. }
  unfold _endog_matrices. cbv zeta.
  rewrite (@shape1_y_1_T S y K N lags HK Hy Hrect). fold T. fold p.
  unfold shape0. unfold matrix, vector in *. rewrite Hy.
  assert (E1 : exists ym,
             (if str_in "cc" det
              then vstack (cols_slice (Some (p - 1)%Z) (Some (-1)%Z) y) [np_ones T]
              else Ok (cols_slice (Some (p - 1)%Z) (Some (-1)%Z) y))
             = Ok ym).
  { destruct (str_in "cc" det); [| eauto].
    eexists. apply vstack_ok with (w := T).
    - intro E. apply (f_equal (@length _)) in E. rewrite length_cols_slice in E.
      unfold matrix, vector in *. rewrite Hy in E. simpl in E. lia.
    - apply (@rect_y_min1 S y N lags Hrect).
    - apply rect_single, repeat_length. }
  destruct E1 as (ym & E1). unfold matrix, vector in *. rewrite E1, bind_ret. cbv beta.
  destruct (np_zeros (Z.of_nat lags * Z.of_nat K) (Z.of_nat T)) as [z | e] eqn:Ez;
    [| discriminate Eloop].
  rewrite bind_ret in Eloop. rewrite bind_ret. cbv beta.
  rewrite Eloop, bind_ret. cbv beta.
  assert (E2 : exists dx : list (list R),
             (if str_in "co" det then vstack lagged [np_ones T] else Ok lagged) = Ok dx
             /\ dx <> [] /\ rect T dx).
  { destruct (str_in "co" det).
    - exists (lagged ++ [np_ones T]). split; [| split].
      + apply vstack_ok with (w := T); [assumption | assumption |].
        apply rect_single, repeat_length.
      + intro E. apply app_eq_nil in E. now destruct E.
      + apply rect_app; [assumption | apply rect_single, repeat_length].
    - exists lagged. now repeat split. }
  destruct E2 as (dx & E2 & Hdx & Hrdx).
  unfold matrix, vector in *. rewrite E2, bind_ret. cbv beta.
  rewrite Hs.
  destruct (seasonal_rows_short HT) as (M & EM & HM3 & HM1).
  unfold matrix, vector in *. rewrite EM, bind_ret.
  unfold vstack, shape0.
  rewrite (@shape1_rect S T dx Hrdx Hdx), HM1, HM3.
  destruct dx as [| row dx]; [congruence |]. cbn [length Nat.eqb orb].
  destruct (Nat.eqb_spec T (T - 1)) as [E | _]; [lia |]. reflexivity.
Qed.
End BuilderEdges.

Section NoLag.
Context {S : Scalar} {L : LinAlg}.
Local Open Scope string_scope.

(** X6.  Without lagged differences nothing can be estimated.  With
    [diff_lags = 0] and at least two observations the first column of
    [delta_x] is to be filled with the whole of [np.diff(y)] read
    backwards, which does not fit into its [K * 0] rows: the builder
    raises a [ValueError], whatever the deterministic terms, and so does
    [fit] for each of its three methods. *)
Theorem fit_without_lagged_differences_raises :
  forall (self : VECM.t) (K N : nat) (deterministic : string) (coint_rank : option Z),
    1 <= K -> length (VECM.y self) = K -> rect N (VECM.y self) -> 2 <= N ->
    _endog_matrices (VECM.y self) 0 deterministic
    = Raise (ValueError "cannot reshape array")
    /\ forall method, In method ["ls"; "egls"; "ml"] ->
         fst (VECM.fit self (Some 0%Z) method deterministic coint_rank)
         = Raise (ValueError "cannot reshape array").
Proof.
  intros self K N det rank HK Hy Hrect HN.
  pose proof (@no_lag_reshape_fails S (VECM.y self) K N det HK Hy Hrect HN) as E.
  split; [exact E |].
  intros method [<- | [<- | [<- | []]]]; unfold VECM.fit; cbn [String.eqb Ascii.eqb Bool.eqb fst];
    [unfold VECM._estimate_vecm_ls | unfold VECM._estimate_vecm_egls
     | unfold VECM._estimate_vecm_ml]; cbn [VECM.y]; rewrite E; reflexivity.
Qed.
End NoLag.

Lemma fit_without_lagged_differences_raises_witness :
  fst (@VECM.fit Sample.QScalar Sample.QLinAlg Sample.model8 (Some 0%Z) "ml" "co" None)
  = Raise (ValueError "cannot reshape array").
Proof.
  apply (@fit_without_lagged_differences_raises Sample.QScalar Sample.QLinAlg
           Sample.model8 2 8 "co" None); try lia; try reflexivity.
  - repeat constructor.
  - right. right. left. reflexivity.
Defined.

Lemma endog_matrices_seasonal_short_sample_witness :
  @_endog_matrices Sample.QScalar (VECM.y Sample.model8) (Z.of_nat 4) "cos"
  = Raise (ValueError "all the input array dimensions except for the concatenation axis must match exactly").
Proof.
  apply (@endog_matrices_seasonal_short_sample Sample.QScalar (VECM.y Sample.model8)
           2 8 4 "cos"); try (simpl; lia); try reflexivity.
  repeat constructor.
Defined.

(* ================================================================== *)
(** * More on [fit] and its estimators *)

Section FitMore.
Context {S : Scalar} {L : LinAlg}.
Local Open Scope string_scope.
Local Open Scope list_scope.



(** X9.  No degrees of freedom.  When the sample columns are exactly as many
    as the regressors of an equation, [T = K * p], the scale
    [1/(T - K*p)] of the residual covariance divides by zero: the
    least-squares estimator does not return, and neither does EGLS,
    which calls it. *)
Theorem ls_no_degrees_of_freedom :
  forall (self : VECM.t) (K N lags : nat) (deterministic : string) (r : Z),
    1 <= K -> length (VECM.y self) = K -> rect N (VECM.y self) ->
    N - lags - 1 = K * (lags + 1) ->
    (exists e, VECM._estimate_vecm_ls self (Z.of_nat lags) deterministic = Raise e)
    /\ (exists e, VECM._estimate_vecm_egls self (Z.of_nat lags) deterministic r
                  = Raise e).
Proof.
  intros self K N lags det r HK Hy Hrect HT.
  assert (Hno : forall y1 dy ym dx v,
             _endog_matrices (VECM.y self) (Z.of_nat lags) det = Ok (y1, dy, ym, dx) ->
             VECM._ls_pi_gamma dy ym dx (Z.of_nat lags) det <> Ok v).
  { intros y1 dy ym dx v E H.
    unfold _endog_matrices in E. inv_bind E. injection E as _ <- _ _.
    unfold VECM._ls_pi_gamma, np_hsplit in H. cbv beta iota zeta in H.
    inv_bind H.
    match goal with Hd : VECM.inv_dof _ _ _ = Ok _ |- _ => rename Hd into Hdof end.
    unfold VECM.inv_dof in Hdof.
    set (dy := cols_slice (Some (Z.of_nat lags + 1 - 1)%Z) None
                          (np_diff (VECM.y self))) in *.
    assert (H0 : shape0 dy = K).
    { unfold dy, shape0, np_diff. rewrite length_cols_slice, length_map. exact Hy. }
    assert (H1 : shape1 dy = N - lags - 1).
    { unfold dy. destruct (VECM.y self) as [| row y']; [simpl in Hy; lia |].
      inversion Hrect as [| ? ? Hrow _]. cbn [np_diff cols_slice map shape1].
      rewrite py_slice_from by lia. rewrite length_skipn, length_diff1. lia. }
    rewrite H0, H1 in Hdof.
    destruct (Z.eqb_spec (Z.of_nat (N - lags - 1) - Z.of_nat K * (Z.of_nat lags + 1)) 0)
      as [_ | Hne]; [discriminate | nia]. }
  split.
  - destruct (VECM._estimate_vecm_ls self (Z.of_nat lags) det) as [v | e] eqn:E;
      [| eauto].
    exfalso. unfold VECM._estimate_vecm_ls in E. inv_bind E.
    exact (Hno _ _ _ _ _ E0 E1).
  - destruct (VECM._estimate_vecm_egls self (Z.of_nat lags) det r) as [v | e] eqn:E;
      [| eauto].
    exfalso. unfold VECM._estimate_vecm_egls in E. inv_bind E.
    exact (Hno _ _ _ _ _ E0 E1).
Qed.

(** X10.  The arguments [fit] may be called without.  Without a lag count
    ([diff_lags=None], the default) [fit] raises a [TypeError] before it
    looks at the method, and leaves the model as it was; a rank of
    [None] stands for rank one; least squares ignores the rank. *)
Theorem fit_default_arguments :
  forall (self : VECM.t) (method deterministic : string),
    (forall coint_rank,
        VECM.fit self None method deterministic coint_rank
        = (Raise (TypeError "unsupported operand type(s) for +: 'NoneType' and 'int'"),
           self))
    /\ (forall diff_lags,
           VECM.fit self diff_lags method deterministic None
           = VECM.fit self diff_lags method deterministic (Some 1%Z))
    /\ (forall diff_lags r r',
           VECM.fit self diff_lags "ls" deterministic r
           = VECM.fit self diff_lags "ls" deterministic r').
Proof.
  intros self method det. split; [reflexivity |]. split.
  - intros [lags |]; [| reflexivity]. unfold VECM.fit.
    destruct (String.eqb method "ls"); [reflexivity |].
    destruct (String.eqb method "egls"); [reflexivity |].
    destruct (String.eqb method "ml"); reflexivity.
  - intros [lags |] r r'; reflexivity.
Qed.
End FitMore.



Lemma ls_no_degrees_of_freedom_witness :
  (exists e, @VECM._estimate_vecm_ls Sample.QScalar Sample.QLinAlg Sample6.model6 1 ""
             = Raise e)
  /\ Run.raised (@VECM._estimate_vecm_ls Sample.QScalar Sample.QLinAlg Sample6.model6 1 "")
     = Some ZeroDivisionError.
Proof.
  split; [| vm_compute; reflexivity].
  apply (@ls_no_degrees_of_freedom Sample.QScalar Sample.QLinAlg Sample6.model6
           2 6 1 ""%string 1%Z); try lia; try reflexivity.
  repeat constructor.
Defined.

(* ================================================================== *)
(** * More on the results container *)

Section ContainerMore.
Context {S : Scalar} {L : LinAlg}.
Local Open Scope string_scope.
Local Open Scope list_scope.

(** The two parts [l[0:k]] and [l[k:len(l)]] of a split make up [l],
    whatever the index [k]. *)
Lemma py_split_app : forall (X : Type) (l : list X) (k : Z),
    py_slice (Some 0%Z) (Some k) l ++ py_slice (Some k) (Some (Z.of_nat (length l))) l = l.
Proof.
  intros X l k. unfold py_slice.
  set (n := Z.of_nat (length l)).
  assert (H0 : clamp_index n 0 = 0%Z) by (unfold clamp_index; cbn; lia).
  assert (Hn : clamp_index n n = n).
  { unfold clamp_index. destruct (Z.ltb_spec n 0); lia. }
  assert (Hc : (0 <= clamp_index n k <= n)%Z).
  { unfold clamp_index. destruct (Z.ltb_spec k 0); lia. }
  rewrite H0, Hn. cbn [Z.to_nat skipn]. rewrite Z.sub_0_r.
  replace (firstn (Z.to_nat (n - clamp_index n k)) (skipn (Z.to_nat (clamp_index n k)) l))
    with (skipn (Z.to_nat (clamp_index n k)) l).
  - apply firstn_skipn.
  - symmetry. apply firstn_ge_length. rewrite length_skipn. unfold n in *. lia.
Qed.

(** X11.  Construction loses no coefficient.  The [beta] and the
    [det_coef_coint] of a container are the first [K] rows of the
    [beta] it was given and the rows below them; its [gamma] and its
    [det_coef] are the first [K * (p - 1)] columns of the [gamma] it
    was given and the columns to their right.  Stacked again they give
    the arguments back; [alpha] and [sigma_u] are stored as given. *)
Theorem init_splits_coefficients :
  forall (endog_tot : matrix) (level_var_lag_order coint_rank : Z)
         (alpha beta gamma sigma_u : matrix) (deterministic : string)
         (delta_y_1_T y_min1 delta_x : option matrix) (est : VECMResults.t),
    VECMResults.__init__ endog_tot level_var_lag_order coint_rank alpha beta gamma
      sigma_u deterministic delta_y_1_T y_min1 delta_x = Ok est ->
    VECMResults.beta est ++ VECMResults.det_coef_coint est = beta
    /\ length (VECMResults.beta est) = Nat.min (length endog_tot) (length beta)
    /\ hstack (VECMResults.gamma est) (VECMResults.det_coef est) = Ok gamma
    /\ VECMResults.alpha est = alpha
    /\ VECMResults.sigma_u est = sigma_u.
Proof.
  intros endog_tot p r alpha beta gamma sigma_u det dy ym dx est H.
  unfold VECMResults.__init__, np_vsplit, np_hsplit in H. inv_bind H.
  injection H as <-.
  cbn [VECMResults.beta VECMResults.det_coef_coint VECMResults.gamma
       VECMResults.det_coef VECMResults.alpha VECMResults.sigma_u].
  split; [apply py_split_app |]. split.
  - unfold rows_slice, shape0. rewrite py_slice_range by lia.
    cbn [Z.to_nat skipn]. rewrite Nat.sub_0_r, length_firstn. lia.
  - split; [| split; reflexivity].
    unfold hstack, cols_slice, shape0. rewrite !length_map, Nat.eqb_refl. f_equal.
    induction gamma as [| row gamma IH]; [reflexivity |].
    cbn [map zip_with]. rewrite IH. f_equal. apply py_split_app.
Qed.

(** X12.  Derived matrices supplied in part.  Without [y_min1] a supplied
    [delta_x] makes construction fail with an [AttributeError] (the
    sample size is read off [y_min1]).  A [delta_y_1_T] supplied alone
    is never stored: construction raises, or does what it does with
    nothing supplied.  With [y_min1] alone construction succeeds, and
    the container it returns raises an [AttributeError] when its
    log-likelihood or the standard errors of the cointegration matrix
    are asked for, and has no covariance matrix of the parameters. *)
Theorem init_partial_matrices :
  forall (endog_tot : matrix) (level_var_lag_order coint_rank : Z)
         (alpha beta gamma sigma_u : matrix) (deterministic : string),
    let init := VECMResults.__init__ endog_tot level_var_lag_order coint_rank
                  alpha beta gamma sigma_u deterministic in
    (forall delta_y_1_T delta_x,
        exists msg, init delta_y_1_T None (Some delta_x) = Raise (AttributeError msg))
    /\ (forall delta_y_1_T,
           (exists e, init (Some delta_y_1_T) None None = Raise e)
           \/ init (Some delta_y_1_T) None None = init None None None)
    /\ (forall y_min1,
           exists est,
             init None (Some y_min1) None = Ok est
             /\ VECMResults.T est = Z.of_nat (shape1 y_min1)
             /\ (exists msg, VECMResults.llf est = Raise (AttributeError msg))
             /\ (exists msg, VECMResults.stderr_coint est = Raise (AttributeError msg))
             /\ (exists e, VECMResults.cov_params est = Raise e)).
Proof.
  intros endog_tot p r alpha beta gamma sigma_u det init. subst init.
  unfold VECMResults.__init__, np_vsplit, np_hsplit.
  split; [| split].
  - intros dy dx. eexists. reflexivity.
  - intro dy.
    cbn [VECMResults.matrices_supplied VECMResults.is_not_None VECMResults.py_truth].
    destruct (VECMResults.array_truth dy) as [[|] | e]; cbn [bind].
    + left. eexists. reflexivity.
    + right. reflexivity.
    + left. eexists. reflexivity.
  - intro ym. eexists. split; [reflexivity |].
    split; [reflexivity |]. split; [| split].
    + eexists. reflexivity.
    + eexists. reflexivity.
    + unfold VECMResults.cov_params.
      cbn [VECMResults.y_min1 VECMResults.delta_x VECMResults.attr_of].
      repeat first
        [ solve [eexists; reflexivity]
        | match goal with
          | |- exists e, bind ?c _ = Raise e => destruct c; cbn [bind]
          end ].
Qed.

(** X13.  The standard errors, t-values and p-values of the cointegration
    matrix report zeros for its normalised block: whenever one of them
    is returned, its first [r] rows are [np.zeros((r, r))]. *)
Theorem normalised_block_reports_zeros :
  forall (self : VECMResults.t) (M : matrix),
    VECMResults.stderr_coint self = Ok M
    \/ VECMResults.tvalues_beta self = Ok M
    \/ VECMResults.pvalues_beta self = Ok M ->
    (0 <= VECMResults.r self)%Z
    /\ rows_slice None (Some (VECMResults.r self)) M
       = repeat (repeat rzero (Z.to_nat (VECMResults.r self)))
                (Z.to_nat (VECMResults.r self)).
Proof.
  intros self M H.
  assert (Hz : forall first_rows last_rows : matrix,
             np_zeros (VECMResults.r self) (VECMResults.r self) = Ok first_rows ->
             vstack first_rows last_rows = Ok M ->
             (0 <= VECMResults.r self)%Z
             /\ rows_slice None (Some (VECMResults.r self)) M
                = repeat (repeat rzero (Z.to_nat (VECMResults.r self)))
                         (Z.to_nat (VECMResults.r self))).
  { intros f l Hf Hv. unfold np_zeros in Hf.
    destruct (Z.ltb_spec (VECMResults.r self) 0) as [Hneg | Hr]; [discriminate Hf |].
    cbn [orb] in Hf. injection Hf as <-. apply vstack_inv in Hv. subst M.
    split; [exact Hr |]. unfold rows_slice. rewrite py_slice_to by assumption.
    rewrite firstn_app, repeat_length, Nat.sub_diag, firstn_O, app_nil_r.
    apply firstn_ge_length. rewrite repeat_length. lia. }
  destruct H as [H | [H | H]].
  - unfold VECMResults.stderr_coint in H. inv_bind H. eapply Hz; eassumption.
  - unfold VECMResults.tvalues_beta in H. inv_bind H. eapply Hz; eassumption.
  - unfold VECMResults.pvalues_beta in H. inv_bind H. eapply Hz; eassumption.
Qed.
End ContainerMore.

Lemma init_splits_coefficients_witness :
  (VECMResults.beta Run.est8 ++ VECMResults.det_coef_coint Run.est8)%list
  = [[1]; [0]]%Q
  /\ @hstack Sample.QScalar (VECMResults.gamma Run.est8) (VECMResults.det_coef Run.est8)
     = Ok [[1 # 12; -1 # 24]; [-17 # 48; -5 # 48]]%Q.
Proof.
  destruct (@init_splits_coefficients Sample.QScalar (VECM.y Sample.model8) 2 1
              [[-7 # 6]; [7 # 12]]%Q [[1]; [0]]%Q
              [[1 # 12; -1 # 24]; [-17 # 48; -5 # 48]]%Q
              [[65 # 36; -65 # 72]; [-65 # 72; 1003 # 288]]%Q ""%string
              (Some [[3; -2; 1; 0; 1; -3]; [0; 1; 2; -3; -1; 3]]%Q)
              (Some [[-1; 2; 0; 1; 1; 2]; [-1; -1; 0; 2; -1; -2]]%Q)
              (Some [[1; 3; -2; 1; 0; 1]; [1; 0; 1; 2; -3; -1]]%Q)
              Run.est8)
    as (Hb & _ & Hg & _).
  - reflexivity.
  - split; [exact Hb | exact Hg].
Defined.

Lemma normalised_block_reports_zeros_witness :
  @rows_slice Sample.QScalar None (Some (VECMResults.r Run.est8))
    [[0]; [46079641 # 98000000]]%Q
  = [[0]]%Q.
Proof.
  apply (@normalised_block_reports_zeros Sample.QScalar Sample.QLinAlg Run.est8
           [[0]; [46079641 # 98000000]]%Q).
  left. vm_compute. reflexivity.
Defined.

(* ================================================================== *)
(** * The standard errors of the cointegration matrix need rank one *)

Section CointRank.
Context {S : Scalar} {L : LinAlg}.
Local Open Scope string_scope.
Local Open Scope list_scope.

Lemma reshape_F_shape : forall (v : vector) (r c : nat) (M : matrix),
    reshape_F v r c = Ok M -> length M = r /\ rect c M.
Proof.
  intros v r c M H. unfold reshape_F in H.
  destruct (length v =? r * c)%nat; [| discriminate]. injection H as <-.
  split; [now rewrite length_map, length_seq |].
  apply Forall_map, Forall_forall. intros i _. now rewrite length_map, length_seq.
Qed.

Lemma length_flat_map_const : forall (X Y : Type) (f : X -> list Y) (c : nat) (l : list X),
    (forall x, In x l -> length (f x) = c) -> length (flat_map f l) = length l * c.
Proof.
  intros X Y f c. induction l as [| x l IH]; intro H; [reflexivity |].
  cbn [flat_map length]. rewrite length_app, H by now left.
  rewrite IH by (intros y Hy; apply H; now right). lia.
Qed.

Lemma length_kron : forall A B : matrix, length (kron A B) = length A * length B.
Proof.
  intros A B. unfold kron. apply length_flat_map_const.
  intros ra _. apply length_map.
Qed.

(** In exact arithmetic a returned inverse has as many rows and columns
    as its argument has rows. *)
Lemma exact_inv_shape : forall (M X : matrix),
    ExactLinAlg L -> inv M = Ok X -> length X = length M /\ shape1 X = length M.
Proof.
  intros M X exact H.
  pose proof (@inv_rows S L exact M X H) as Hl. split; [exact Hl |].
  pose proof (@inv_right S L exact M X H) as Hid.
  destruct (dot_inv _ _ Hid) as [_ E].
  destruct M as [| row M].
  - destruct X; [reflexivity | discriminate Hl].
  - pose proof (rect_identity (length (row :: M))) as Hr. rewrite E in Hr.
    cbn [map] in Hr. inversion Hr as [| ? ? Hrow _].
    rewrite length_map in Hrow. unfold matrix, vector in *.
    now rewrite length_transpose in Hrow.
Qed.

(** X14.  [stderr_coint] multiplies the inverse of a matrix of order
    [K - r + det] by a Kronecker product of order [(K - r + det) * r].
    When the inverse routine returns matrices of the shape of its
    argument, then for a container of rank two or more whose [y_min1]
    has a row for each row of [beta] and of [det_coef_coint] and more
    rows than the rank, [stderr_coint] does not return; neither do the
    standard errors, t-values and p-values of [beta], which are cut out
    of it. *)
Theorem stderr_coint_needs_rank_one :
  forall (self : VECMResults.t) (K r d : nat) (y_min1 : matrix),
    (forall M X : matrix, inv M = Ok X -> length X = length M /\ shape1 X = length M) ->
    2 <= r -> r < K + d ->
    VECMResults.K self = Z.of_nat K -> VECMResults.r self = Z.of_nat r ->
    VECMResults.alpha self <> [] -> rect r (VECMResults.alpha self) ->
    length (VECMResults.det_coef_coint self) = d ->
    VECMResults.y_min1 self = Some y_min1 -> length y_min1 = K + d ->
    (exists e, VECMResults.stderr_coint self = Raise e)
    /\ (exists e, VECMResults.stderr_beta self = Raise e)
    /\ (exists e, VECMResults.tvalues_beta self = Raise e)
    /\ (exists e, VECMResults.pvalues_beta self = Raise e).
Proof.
  intros self K r d ym Hinv Hr Hrk HselfK Hselfr Hane Har Hld Hym Hlym.
  assert (Hsc : exists e, VECMResults.stderr_coint self = Raise e).
  { destruct (VECMResults.stderr_coint self) as [sc | e] eqn:H; [| eauto].
    exfalso. unfold VECMResults.stderr_coint in H.
    rewrite Hym, HselfK, Hselfr in H. unfold shape0 in H. rewrite Hld in H.
    inv_bind H.
    repeat match goal with
           | Ha : VECMResults.attr_of (Some _) = Ok _ |- _ =>
               cbn [VECMResults.attr_of] in Ha; injection Ha as <-
           end.
    set (mm := K + d - r).
    (* the identity block and the Kronecker product *)
    match goal with
    | Hi : np_identity _ = Ok ?b |- _ =>
        replace (Z.of_nat K - Z.of_nat r + Z.of_nat d)%Z with (Z.of_nat mm) in Hi
          by (unfold mm; lia);
        rewrite np_identity_nat in Hi; injection Hi as <-
    end.
    match goal with
    | Hc : chain_dot (transpose _) _ = Ok ?asa, Hi : inv ?asa = Ok _ |- _ =>
        rename Hc into Hasa; rename Hi into Hasai
    end.
    match goal with
    | Hp : dot ?mat1 (kron _ _) = Ok _, Hm : inv _ = Ok ?mat1 |- _ =>
        rename Hp into Hprod; rename Hm into Hmat1
    end.
    match goal with
    | Hrr : dot ?r12 (transpose ?r12) = Ok _ |- _ => rename Hrr into Hgram
    end.
    match goal with
    | Hrm : _r_matrices _ _ _ _ = Ok _ |- _ => rename Hrm into Hrm'
    end.
    apply chain_dot_rows in Hasa. apply Hinv in Hasai. destruct Hasai as [Hasai _].
    destruct (dot_inv _ _ Hprod) as [Hrect _].
    destruct (Hinv _ _ Hmat1) as [Hml Hm1].
    pose proof (dot_rows _ _ Hgram) as Hrrl.
    apply r_matrices_rows in Hrm'. destruct Hrm' as [_ Hr1].
    unfold rows_slice in Hrrl. rewrite py_slice_from in Hrrl by lia.
    rewrite length_skipn, Hr1, Hlym, Nat2Z.id in Hrrl. fold mm in Hrrl.
    match type of Hmat1 with
    | inv ?rr = Ok ?mat1 =>
        destruct mat1 as [| row mat1]; [simpl in Hml; unfold mm in *; lia |]
    end.
    rewrite length_kron, length_identity, Hasai, Hasa, length_transpose in Hrect.
    rewrite (@shape1_rect S r _ Har Hane) in Hrect.
    inversion Hrect as [| ? ? Hrow _]. cbn [shape1] in Hm1.
    unfold mm in *. nia. }
  split; [exact Hsc |].
  assert (Hsb : exists e, VECMResults.stderr_beta self = Raise e).
  { destruct Hsc as (e & E). unfold VECMResults.stderr_beta. rewrite E. cbn [bind]. eauto. }
  assert (Htb : exists e, VECMResults.tvalues_beta self = Raise e).
  { destruct Hsb as (e & E). unfold VECMResults.tvalues_beta. rewrite E.
    destruct (np_zeros _ _); cbn [bind]; eauto. }
  split; [exact Hsb |]. split; [exact Htb |].
  destruct Htb as (e & E). unfold VECMResults.pvalues_beta. rewrite E.
  destruct (np_zeros _ _); cbn [bind]; eauto.
Qed.
End CointRank.

Lemma stderr_coint_needs_rank_one_witness :
  (exists e, @VECMResults.stderr_coint Sample.QScalar Sample.QLinAlg RunCoint.est_cc
             = Raise e)
  /\ Run.raised (@VECMResults.stderr_coint Sample.QScalar Sample.QLinAlg RunCoint.est_cc)
     = Some (ValueError "shapes not aligned").
Proof.
  split; [| vm_compute; reflexivity].
  assert (Hrect : @rect Sample.QScalar 2 (VECMResults.alpha RunCoint.est_cc))
    by (repeat constructor).
  destruct (@stderr_coint_needs_rank_one Sample.QScalar Sample.QLinAlg
              RunCoint.est_cc 2 2 1
              [[-1; 2; 0; 1; 1; 2]; [-1; -1; 0; 2; -1; -2]; [1; 1; 1; 1; 1; 1]]%Q
              (fun M X => @exact_inv_shape Sample.QScalar Sample.QLinAlg M X QLinAlg_exact)
              ltac:(lia) ltac:(lia) eq_refl eq_refl
              ltac:(discriminate) Hrect eq_refl eq_refl eq_refl)
    as (Hsc & _).
  exact Hsc.
Defined.

(* ================================================================== *)
(** * The level-VAR representation needs a lagged difference *)

Section VarReprOrderOne.
Context {S : Scalar}.
Local Open Scope string_scope.
Local Open Scope list_scope.

(** X15.  For a container of VAR order [p = 1] the matrix [gamma] has no
    column, and [Pi + I + gamma[:, :K]] is not a [K x K] matrix:
    [var_repr] raises a [ValueError] instead of returning the single
    matrix [Pi + I]. *)
Theorem var_repr_order_one_raises :
  forall (self : VECMResults.t) (K r : nat),
    1 <= K -> 1 <= r ->
    VECMResults.K self = Z.of_nat K -> VECMResults.p self = 1%Z ->
    length (VECMResults.alpha self) = K -> rect r (VECMResults.alpha self) ->
    length (VECMResults.beta self) = K -> rect r (VECMResults.beta self) ->
    length (VECMResults.gamma self) = K -> rect 0 (VECMResults.gamma self) ->
    exists msg, VECMResults.var_repr self = Raise (ValueError msg).
Proof.
  intros self K r HK Hr HselfK Hp Hla Hra Hlb Hrb Hlg Hrg.
  assert (Hb1 : shape1 (VECMResults.beta self) = r).
  { apply shape1_rect; [assumption |]. intro E. rewrite E in Hlb. simpl in Hlb. lia. }
  set (Pi := map (fun row => map (fun c => vdot row c)
                                 (transpose (transpose (VECMResults.beta self))))
                 (VECMResults.alpha self)).
  assert (HPi : dot (VECMResults.alpha self) (transpose (VECMResults.beta self)) = Ok Pi).
  { apply dot_ok. now rewrite length_transpose, Hb1. }
  assert (HPil : length Pi = K) by (unfold Pi; now rewrite length_map).
  assert (HPir : rect K Pi).
  { destruct (dot_shape _ _ HPi) as [_ H]. rewrite shape1_transpose in H by lia.
    now rewrite Hlb in H. }
  set (X := zip_with (zip_with radd) Pi (identity K)).
  assert (HX : madd Pi (identity K) = Ok X).
  { apply elementwise_same_shape with (c := K);
      [now rewrite length_identity | assumption | apply rect_identity]. }
  assert (HXl : length X = K).
  { unfold X. rewrite length_zip_with, length_identity. lia. }
  assert (HXr : rect K X) by (apply rect_zip_with; [assumption | apply rect_identity]).
  assert (HX1 : shape1 X = K).
  { apply shape1_rect; [assumption |]. intro E. rewrite E in HXl. simpl in HXl. lia. }
  set (G0 := cols_slice None (Some (Z.of_nat K)) (VECMResults.gamma self)).
  assert (HG0l : length G0 = K) by (unfold G0; now rewrite length_cols_slice).
  assert (HG0r : rect 0 G0).
  { unfold G0, cols_slice. apply Forall_map.
    eapply Forall_impl; [| exact Hrg]. intros row Hrow. cbv beta in Hrow.
    apply length_zero_iff_nil in Hrow. subst row.
    unfold py_slice. now rewrite skipn_nil, firstn_nil. }
  assert (HG01 : shape1 G0 = 0).
  { apply shape1_rect; [assumption |]. intro E. rewrite E in HG0l. simpl in HG0l. lia. }
  unfold VECMResults.var_repr. rewrite HPi. cbn [bind].
  rewrite HselfK, Hp. rewrite np_zeros_nat. cbn [bind].
  change (1 <? 0)%Z with false. cbv iota. cbn [bind].
  rewrite np_identity_nat. cbn [bind]. rewrite HX. cbn [bind].
  fold G0. unfold madd, elementwise, shape0. rewrite HXl, HG0l, HX1, HG01.
  unfold bcast_len at 1. rewrite Nat.eqb_refl.
  unfold bcast_len.
  destruct (Nat.eqb_spec K 0) as [E | _]; [lia |].
  destruct (Nat.eqb_spec K 1) as [-> | HK1].
  - (* one equation: the sum has a row without entries *)
    cbn [bind]. unfold VECMResults.assign_slot.
    rewrite repeat_length, HselfK. cbn [Z.of_nat Z.to_nat Pos.to_nat].
    change (0 <? - 1)%Z with false. change (1 <=? 0)%Z with false.
    change (0 <? 0)%Z with false. cbn [orb Z.to_nat].
    destruct X as [| rx [| ? ?]]; try (simpl in HXl; lia).
    destruct G0 as [| rg [| ? ?]]; try (simpl in HG0l; lia).
    inversion HG0r as [| ? ? Hrg0 _]. apply length_zero_iff_nil in Hrg0. subst rg.
    cbn [stretch repeat zip_with shape0 shape1 length].
    destruct rx as [| a [| ? ?]]; cbn [stretch repeat zip_with length Nat.eqb orb andb];
      eexists; reflexivity.
  - destruct (Nat.eqb_spec 0 1) as [E | _]; [lia |].
    cbn [bind]. eexists. reflexivity.
Qed.
End VarReprOrderOne.

Lemma var_repr_order_one_raises_witness :
  exists msg, @VECMResults.var_repr Sample.QScalar RunOrder1.est_p1
              = Raise (ValueError msg).
Proof.
  assert (Hrect : forall w (M : @matrix Sample.QScalar),
             @rectb Sample.QScalar w M = true -> @rect Sample.QScalar w M).
  { intros w M H. now apply (@rectb_rect Sample.QScalar). }
  apply (@var_repr_order_one_raises Sample.QScalar RunOrder1.est_p1 2 1
           ltac:(lia) ltac:(lia) eq_refl eq_refl eq_refl
           (Hrect 1 (VECMResults.alpha RunOrder1.est_p1) eq_refl) eq_refl
           (Hrect 1 (VECMResults.beta RunOrder1.est_p1) eq_refl) eq_refl
           (Hrect 0 (VECMResults.gamma RunOrder1.est_p1) eq_refl)).
Defined.

(* ================================================================== *)
(** * The standard errors of [gamma] and the constant in the
      cointegration relation *)

Section GammaErrors.
Context {S : Scalar} {L : LinAlg}.
Local Open Scope string_scope.
Local Open Scope list_scope.

Lemma shape1_kron : forall A B : matrix,
    A <> [] -> B <> [] -> shape1 (kron A B) = shape1 A * shape1 B.
Proof.
  intros [| ra A] [| rb B] HA HB; try congruence.
  unfold kron. cbn [flat_map map app shape1].
  apply length_flat_map_const. intros a _. apply length_map.
Qed.

Lemma length_block_diag : forall A B : matrix,
    length (block_diag A B) = length A + length B.
Proof. intros A B. unfold block_diag. now rewrite length_app, !length_map. Qed.

Lemma shape1_block_diag : forall A B : matrix,
    A <> [] -> shape1 (block_diag A B) = shape1 A + shape1 B.
Proof.
  intros [| ra A] B HA; [congruence |].
  unfold block_diag. cbn [map app shape1]. now rewrite length_app, repeat_length.
Qed.

(** The covariance matrix of the parameters is square, of order [K]
    times the number of rows of [beta] and of the identity block: the
    rows of [det_coef_coint] have no part in it. *)
Lemma cov_params_shape :
  forall (self : VECMResults.t) (K r n : nat) (C : matrix),
    1 <= K -> 1 <= r ->
    length (VECMResults.beta self) = K -> rect r (VECMResults.beta self) ->
    length (VECMResults.sigma_u self) = K -> rect K (VECMResults.sigma_u self) ->
    np_identity (VECMResults.K self * (VECMResults.p self - 1)
                 + ((if str_in "co" (VECMResults.deterministic self) then 1 else 0)
                    + 3 * (if str_in "s" (VECMResults.deterministic self) then 1 else 0)
                    + (if str_in "lt" (VECMResults.deterministic self) then 1 else 0)))
    = Ok (identity n) ->
    VECMResults.cov_params self = Ok C ->
    length C = (K + n) * K /\ shape1 C = (K + n) * K.
Proof.
  intros self K r n C HK Hr Hlb Hrb Hls Hrs Hid H.
  unfold VECMResults.cov_params in H. cbv zeta in H.
  rewrite Hid in H. cbn [bind] in H.
  inv_bind H. injection H as <-.
  assert (Hbne : VECMResults.beta self <> []).
  { intro Enil. rewrite Enil in Hlb. simpl in Hlb. lia. }
  assert (Hsne : VECMResults.sigma_u self <> []).
  { intro Enil. rewrite Enil in Hls. simpl in Hls. lia. }
  set (b_id := block_diag (VECMResults.beta self) (identity n)) in *.
  assert (Hl : length b_id = K + n).
  { unfold b_id. now rewrite length_block_diag, length_identity, Hlb. }
  assert (H1 : 0 < shape1 b_id).
  { unfold b_id. rewrite shape1_block_diag by assumption.
    rewrite (@shape1_rect S r _ Hrb Hbne). lia. }
  match goal with
  | Hd : dot ?X (transpose b_id) = Ok ?mat1, Hd' : dot b_id _ = Ok ?X |- _ =>
      destruct (dot_shape _ _ Hd) as [Hm1 Hm2];
      apply dot_rows in Hd'; rewrite Hd', Hl in Hm1;
      rewrite shape1_transpose, Hl in Hm2 by assumption;
      assert (Hmne : mat1 <> [])
        by (intro Enil; rewrite Enil in Hm1; simpl in Hm1; lia);
      rewrite length_kron, Hm1, Hls;
      rewrite shape1_kron by assumption;
      rewrite (@shape1_rect S (K + n) mat1 Hm2 Hmne);
      rewrite (@shape1_rect S K _ Hrs Hsne)
  end.
  split; reflexivity.
Qed.

(** X16.  The standard errors of [gamma] are read off [stderr_params] from
    position [K * (K + det)] on, [det] being the number of rows of
    [det_coef_coint]; the covariance matrix has [K * (K + K*(p-1))]
    rows when no deterministic term lies outside the cointegration
    relation.  With the constant inside the cointegration relation as
    the only deterministic term the slice is therefore [K] entries
    short: the standard errors of [gamma] raise a [ValueError] when the
    covariance matrix is returned, and neither they nor the t-values
    and p-values of [gamma] ever return. *)
Theorem stderr_gamma_constant_only :
  forall (self : VECMResults.t) (K r lags d : nat),
    1 <= K -> 1 <= r -> 1 <= lags -> 1 <= d ->
    VECMResults.K self = Z.of_nat K ->
    VECMResults.p self = (Z.of_nat lags + 1)%Z ->
    str_in "co" (VECMResults.deterministic self) = false ->
    str_in "s" (VECMResults.deterministic self) = false ->
    str_in "lt" (VECMResults.deterministic self) = false ->
    length (VECMResults.alpha self) = K ->
    length (VECMResults.beta self) = K -> rect r (VECMResults.beta self) ->
    length (VECMResults.det_coef_coint self) = d ->
    length (VECMResults.gamma self) = K -> rect (K * lags) (VECMResults.gamma self) ->
    length (VECMResults.sigma_u self) = K -> rect K (VECMResults.sigma_u self) ->
    (forall C, VECMResults.cov_params self = Ok C ->
               VECMResults.stderr_gamma self = Raise (ValueError "cannot reshape array"))
    /\ (exists e, VECMResults.stderr_gamma self = Raise e)
    /\ (exists e, VECMResults.tvalues_gamma self = Raise e)
    /\ (exists e, VECMResults.pvalues_gamma self = Raise e).
Proof.
  intros self K r lags d HK Hr Hlags Hd HselfK Hp Hco Hs Hlt Hla Hlb Hrb Hld Hlg Hrg
         Hls Hrs.
  assert (Hid : np_identity
                  (VECMResults.K self * (VECMResults.p self - 1)
                   + ((if str_in "co" (VECMResults.deterministic self) then 1 else 0)
                      + 3 * (if str_in "s" (VECMResults.deterministic self) then 1 else 0)
                      + (if str_in "lt" (VECMResults.deterministic self) then 1 else 0)))
                = Ok (identity (K * lags))).
  { rewrite HselfK, Hp, Hco, Hs, Hlt.
    replace (Z.of_nat K * (Z.of_nat lags + 1 - 1) + (0 + 3 * 0 + 0))%Z
      with (Z.of_nat (K * lags)) by lia.
    apply np_identity_nat. }
  assert (Hgne : VECMResults.gamma self <> []).
  { intro E. rewrite E in Hlg. simpl in Hlg. lia. }
  assert (Hmain : forall C, VECMResults.cov_params self = Ok C ->
             VECMResults.stderr_gamma self = Raise (ValueError "cannot reshape array")).
  { intros C HC.
    destruct (@cov_params_shape self K r (K * lags) C HK Hr Hlb Hrb Hls Hrs Hid HC)
      as [HC0 HC1].
    unfold VECMResults.stderr_gamma, VECMResults.stderr_params. rewrite HC. cbn [bind].
    unfold shape0, msize. rewrite Hla, Hlb, Hld, Hlg.
    rewrite (@length_concat_rect S (K * lags) _ Hrg), Hlg.
    rewrite (@shape1_rect S (K * lags) _ Hrg Hgne).
    unfold reshape_F.
    rewrite py_slice_range by lia.
    rewrite length_firstn, length_skipn, length_map.
    unfold diag_of_matrix. rewrite length_map, length_seq. unfold shape0.
    rewrite HC0, HC1.
    destruct (Nat.eqb_spec
                (Nat.min (Z.to_nat (Z.of_nat (K * (K + d)) + Z.of_nat (K * (K * lags)))
                          - Z.to_nat (Z.of_nat (K * (K + d))))
                         (Nat.min ((K + K * lags) * K) ((K + K * lags) * K)
                          - Z.to_nat (Z.of_nat (K * (K + d)))))
                (K * (K * lags))) as [E | _]; [nia | reflexivity]. }
  split; [exact Hmain |].
  assert (Hsg : exists e, VECMResults.stderr_gamma self = Raise e).
  { destruct (VECMResults.cov_params self) as [C | e] eqn:HC.
    - rewrite (Hmain C eq_refl). eauto.
    - unfold VECMResults.stderr_gamma, VECMResults.stderr_params.
      rewrite HC. cbn [bind]. eauto. }
  assert (Htg : exists e, VECMResults.tvalues_gamma self = Raise e).
  { destruct Hsg as (e & E). unfold VECMResults.tvalues_gamma. rewrite E. cbn [bind].
    eauto. }
  split; [exact Hsg |]. split; [exact Htg |].
  destruct Htg as (e & E). unfold VECMResults.pvalues_gamma. rewrite E. cbn [bind]. eauto.
Qed.
End GammaErrors.

Lemma stderr_gamma_constant_only_witness :
  (exists e, @VECMResults.stderr_gamma Sample.QScalar Sample.QLinAlg RunCoint.est_cc
             = Raise e)
  /\ Run.raised (@VECMResults.stderr_gamma Sample.QScalar Sample.QLinAlg RunCoint.est_cc)
     = Some (ValueError "cannot reshape array").
Proof.
  split; [| vm_compute; reflexivity].
  assert (Hrect : forall w (M : @matrix Sample.QScalar),
             @rectb Sample.QScalar w M = true -> @rect Sample.QScalar w M).
  { intros w M H. now apply (@rectb_rect Sample.QScalar). }
  destruct (@stderr_gamma_constant_only Sample.QScalar Sample.QLinAlg RunCoint.est_cc
              2 2 1 1 ltac:(lia) ltac:(lia) ltac:(lia) ltac:(lia)
              eq_refl eq_refl eq_refl eq_refl eq_refl eq_refl eq_refl
              (Hrect 2 (VECMResults.beta RunCoint.est_cc) eq_refl) eq_refl eq_refl
              (Hrect 2 (VECMResults.gamma RunCoint.est_cc) eq_refl) eq_refl
              (Hrect 2 (VECMResults.sigma_u RunCoint.est_cc) eq_refl))
    as (_ & Hsg & _).
  exact Hsg.
Defined.

Section CovarianceOrder.
Context {S : Scalar} {L : LinAlg}.
Local Open Scope string_scope.
Local Open Scope list_scope.

Lemma rect_kron : forall (a b : nat) (A B : matrix),
    rect a A -> rect b B -> rect (a * b) (kron A B).
Proof.
  intros a b A B HA HB. unfold kron, rect in *.
  rewrite Forall_forall in *. intros row Hin.
  apply in_flat_map in Hin. destruct Hin as (ra & Hra & Hin).
  apply in_map_iff in Hin. destruct Hin as (rb & <- & Hrb).
  rewrite (@length_flat_map_const _ _ (fun x => map (rmul x) rb) b ra)
    by (intros; rewrite length_map; now apply HB).
  now rewrite (HA ra Hra).
Qed.

(** X17.  The order of the covariance matrix of the parameters.  For a
    container with [K] equations, [p - 1 = lags] lagged differences, a
    [beta] of [K] rows and a [K x K] matrix [sigma_u], whenever
    [cov_params] returns a matrix it is square, of order
    [K * (K + K*lags + num_det)], where [num_det] counts the
    deterministic terms outside the cointegration relation (one for the
    constant, three for the seasons, one for the trend); the rows of
    [det_coef_coint] do not count.  [stderr_params] has as many
    entries. *)
Theorem cov_params_order :
  forall (self : VECMResults.t) (K r lags : nat) (C : matrix),
    1 <= K -> 1 <= r ->
    VECMResults.K self = Z.of_nat K ->
    VECMResults.p self = (Z.of_nat lags + 1)%Z ->
    length (VECMResults.beta self) = K -> rect r (VECMResults.beta self) ->
    length (VECMResults.sigma_u self) = K -> rect K (VECMResults.sigma_u self) ->
    VECMResults.cov_params self = Ok C ->
    let dt := VECMResults.deterministic self in
    let d := (K + (K * lags + (Nat.b2n (str_in "co" dt) + 3 * Nat.b2n (str_in "s" dt)
                               + Nat.b2n (str_in "lt" dt)))) * K in
    length C = d /\ rect d C
    /\ exists sp, VECMResults.stderr_params self = Ok sp /\ length sp = d.
Proof.
  intros self K r lags C HK Hr HselfK Hp Hlb Hrb Hls Hrs H dt d.
  set (n := K * lags + (Nat.b2n (str_in "co" dt) + 3 * Nat.b2n (str_in "s" dt)
                        + Nat.b2n (str_in "lt" dt))) in *.
  assert (Hid : np_identity
                  (VECMResults.K self * (VECMResults.p self - 1)
                   + ((if str_in "co" (VECMResults.deterministic self) then 1 else 0)
                      + 3 * (if str_in "s" (VECMResults.deterministic self) then 1 else 0)
                      + (if str_in "lt" (VECMResults.deterministic self) then 1 else 0)))
                = Ok (identity n)).
  { rewrite HselfK, Hp. fold dt.
    replace (Z.of_nat K * (Z.of_nat lags + 1 - 1)
             + ((if str_in "co" dt then 1 else 0) + 3 * (if str_in "s" dt then 1 else 0)
                + (if str_in "lt" dt then 1 else 0)))%Z
      with (Z.of_nat n).
    - apply np_identity_nat.
    - unfold n. destruct (str_in "co" dt), (str_in "s" dt), (str_in "lt" dt);
        cbn [Nat.b2n]; lia. }
  destruct (@cov_params_shape S L self K r n C HK Hr Hlb Hrb Hls Hrs Hid H) as [HC0 HC1].
  assert (HCr : rect d C).
  { pose proof H as H'. unfold VECMResults.cov_params in H'. cbv zeta in H'.
    rewrite Hid in H'. cbn [bind] in H'. inv_bind H'. injection H' as <-.
    match goal with
    | Hd : dot ?X (transpose ?b) = Ok ?mat1 |- rect _ (kron ?mat1 _) =>
        destruct (dot_shape _ _ Hd) as [_ Hm2];
        assert (Hb1 : 0 < shape1 b)
    end.
    { rewrite shape1_block_diag
        by (intro Enil; rewrite Enil in Hlb; simpl in Hlb; lia).
      rewrite (@shape1_rect S r _ Hrb)
        by (intro Enil; rewrite Enil in Hlb; simpl in Hlb; lia).
      lia. }
    rewrite shape1_transpose, length_block_diag, length_identity, Hlb in Hm2 by assumption.
    unfold d. now apply rect_kron. }
  split; [exact HC0 |]. split; [exact HCr |].
  unfold VECMResults.stderr_params. rewrite H. cbn [bind].
  eexists. split; [reflexivity |].
  rewrite length_map. unfold diag_of_matrix. rewrite length_map, length_seq.
  unfold shape0. rewrite HC0, HC1. apply Nat.min_id.
Qed.
End CovarianceOrder.

Lemma cov_params_order_witness :
  exists C : @matrix Sample.QScalar,
    @VECMResults.cov_params Sample.QScalar Sample.QLinAlg Run.est8 = Ok C
    /\ length C = 8 /\ @rect Sample.QScalar 8 C.
Proof.
  assert (Hok : is_ok (@VECMResults.cov_params Sample.QScalar Sample.QLinAlg Run.est8)
                = true) by (vm_compute; reflexivity).
  destruct (@VECMResults.cov_params Sample.QScalar Sample.QLinAlg Run.est8)
    as [C | e] eqn:E; [| discriminate Hok].
  exists C. split; [reflexivity |].
  destruct (@cov_params_order Sample.QScalar Sample.QLinAlg Run.est8 2 1 1 C
              ltac:(lia) ltac:(lia) eq_refl eq_refl eq_refl ltac:(repeat constructor)
              eq_refl ltac:(repeat constructor) E) as (Hl & Hr & _).
  split; [exact Hl | exact Hr].
Defined.

(* ================================================================== *)
(** * Symmetry of the moment matrices and of the residual covariance

    The products [A.dot(B.T)] and [B.dot(A.T)] multiply the same pairs
    of entries and add them in the same order; they are transposes of
    each other as soon as the multiplication of scalars is commutative,
    as floating-point multiplication is. *)

Section Symmetry.
Context {S : Scalar}.
Hypothesis rmul_comm : forall a b : R, rmul a b = rmul b a.
Local Open Scope list_scope.

Lemma zip_with_comm : forall (u v : vector), zip_with rmul u v = zip_with rmul v u.
Proof.
  induction u as [| a u IH]; intros [| b v]; try reflexivity.
  cbn [zip_with]. now rewrite IH, rmul_comm.
Qed.

Lemma vdot_comm : forall u v : vector, vdot u v = vdot v u.
Proof. intros u v. unfold vdot. now rewrite zip_with_comm. Qed.

Lemma map_seq_nth : forall (X Y : Type) (h : X -> Y) (l : list X) (d : X),
    map (fun j => h (nth j l d)) (seq 0 (length l)) = map h l.
Proof.
  intros X Y h l d. apply nth_ext with (d := h d) (d' := h d).
  - now rewrite !length_map, length_seq.
  - intros n Hn. rewrite length_map, length_seq in Hn.
    rewrite (nth_indep _ (h d) ((fun j => h (nth j l d)) 0))
      by (now rewrite length_map, length_seq).
    rewrite (map_nth (fun j => h (nth j l d))), seq_nth by assumption.
    now rewrite map_nth.
Qed.

Lemma transpose_transpose : forall (w : nat) (M : matrix),
    rect w M -> 0 < w -> transpose (transpose M) = M.
Proof.
  intros w M H Hw. destruct M as [| row M]; [reflexivity |].
  assert (H1 : shape1 (row :: M) = w) by (apply shape1_rect; [assumption | discriminate]).
  unfold transpose at 1. rewrite shape1_transpose by lia.
  rewrite <- (map_id (row :: M)) at 2.
  rewrite <- (@map_seq_nth _ _ (fun r : list R => r) (row :: M) []).
  apply map_ext_in. intros i Hi. apply in_seq in Hi.
  unfold transpose. rewrite H1.
  unfold col at 1. rewrite map_map.
  assert (Hl : length (nth i (row :: M) []) = w).
  { unfold rect in H. rewrite Forall_forall in H. apply H, nth_In. lia. }
  transitivity (map (fun j => nth j (nth i (row :: M) []) rzero) (seq 0 w)).
  - apply map_ext. intro j. apply nth_col.
  - rewrite <- Hl at 1.
    rewrite (@map_seq_nth _ _ (fun x : R => x) (nth i (row :: M) []) rzero).
    apply map_id.
Qed.

(** The transpose of a table of values [g ra rb]. *)
Lemma transpose_table : forall (g : vector -> vector -> R) (A B : matrix),
    A <> [] ->
    transpose (map (fun ra => map (fun rb => g ra rb) B) A)
    = map (fun rb => map (fun ra => g ra rb) A) B.
Proof.
  intros g A B HA. unfold transpose.
  assert (H1 : shape1 (map (fun ra => map (fun rb => g ra rb) B) A) = length B).
  { destruct A as [| ra A]; [congruence |]. cbn [map shape1]. apply length_map. }
  rewrite H1.
  rewrite <- (@map_seq_nth _ _ (fun rb => map (fun ra => g ra rb) A) B []).
  apply map_ext_in. intros j Hj. apply in_seq in Hj.
  unfold col. rewrite map_map. apply map_ext. intro ra.
  rewrite (nth_indep _ rzero (g ra [])) by (rewrite length_map; lia).
  apply (map_nth (g ra)).
Qed.

(** [A.dot(B.T)] and [B.dot(A.T)], each entry passed through [f]. *)
Lemma gram_transpose : forall (f : R -> R) (w : nat) (A B M N : matrix),
    0 < w -> A <> [] -> rect w A -> rect w B ->
    dot A (transpose B) = Ok M -> dot B (transpose A) = Ok N ->
    transpose (mmap f M) = mmap f N.
Proof.
  intros f w A B M N Hw HA HrA HrB HM HN.
  destruct (dot_inv _ _ HM) as [_ ->]. destruct (dot_inv _ _ HN) as [_ ->].
  rewrite (transpose_transpose HrA Hw), (transpose_transpose HrB Hw).
  unfold mmap. rewrite !map_map.
  rewrite (map_ext (fun ra => map f (map (fun c => vdot ra c) B))
                   (fun ra => map (fun rb => f (vdot ra rb)) B))
    by (intro; apply map_map).
  rewrite (map_ext (fun rb => map f (map (fun c => vdot rb c) A))
                   (fun rb => map (fun ra => f (vdot ra rb)) A))
    by (intro rb; rewrite map_map; apply map_ext; intro ra; now rewrite vdot_comm).
  now apply (transpose_table (fun ra rb => f (vdot ra rb))).
Qed.
End Symmetry.

Section MomentShapes.
Context {S : Scalar} {L : LinAlg}.
Local Open Scope string_scope.
Local Open Scope list_scope.

(** [_r_matrices] returns matrices of the shapes of [delta_y_1_T] and
    [y_min1]. *)
Lemma r_matrices_shape : forall (T : nat) (dx dy ym r0 r1 : matrix),
    dx <> [] -> rect T dx ->
    _r_matrices T dx dy ym = Ok (r0, r1) ->
    length r0 = length dy /\ rect T r0 /\ length r1 = length ym /\ rect T r1.
Proof.
  intros T dx dy ym r0 r1 Hne Hdx H.
  unfold _r_matrices in H. inv_bind H. injection H as <- <-.
  assert (H1 : shape1 dx = T) by (now apply shape1_rect).
  match goal with
  | Hp : dot ?p1 dx = Ok ?proj, Hp1 : dot (transpose dx) _ = Ok ?p1,
    Hm : msub (identity T) ?proj = Ok ?m |- _ =>
      destruct (dot_shape _ _ Hp) as [Hpl Hpr];
      apply dot_rows in Hp1; rewrite Hp1, length_transpose, H1 in Hpl;
      rewrite H1 in Hpr;
      unfold msub in Hm;
      rewrite (@elementwise_same_shape S rsub T (identity T) proj) in Hm
        by (try rewrite length_identity; try apply rect_identity; congruence);
      injection Hm as <-
  end.
  set (m := zip_with (zip_with rsub) (identity T) x2) in *.
  assert (Hmr : rect T m) by (apply rect_zip_with; [apply rect_identity | assumption]).
  assert (Hml : length m = T).
  { unfold m. rewrite length_zip_with, length_identity. lia. }
  assert (Hm1 : shape1 m = T).
  { destruct T as [| T'].
    - destruct m; [reflexivity | discriminate Hml].
    - apply shape1_rect; [assumption |]. intro E'. rewrite E' in Hml. discriminate Hml. }
  repeat match goal with
         | Hd : dot _ m = Ok _ |- _ =>
             let Ha := fresh "Ha" in let Hb := fresh "Hb" in
             destruct (dot_shape _ _ Hd) as [Ha Hb]; rewrite Hm1 in Hb; clear Hd
         end.
  repeat split; assumption.
Qed.
End MomentShapes.

Section MomentSymmetry.
Context {S : Scalar} {L : LinAlg}.
Hypothesis rmul_comm : forall a b : R, rmul a b = rmul b a.
Local Open Scope string_scope.
Local Open Scope list_scope.

(** [Ri.dot(Rj.T)/T] and [Rj.dot(Ri.T)/T] *)
Lemma moment_transpose : forall (T w : nat) (A B M N : matrix),
    0 < w -> A <> [] -> B <> [] -> rect w A -> rect w B ->
    moment T A B = Ok M -> moment T B A = Ok N ->
    transpose M = N /\ length M = length A /\ rect (length B) M.
Proof.
  intros T w A B M N Hw HA HB HrA HrB HM HN.
  unfold moment in HM, HN. inv_bind HM. inv_bind HN.
  injection HM as <-. injection HN as <-.
  split; [apply (@gram_transpose S rmul_comm _ w A B x x0); assumption |].
  destruct (dot_shape _ _ E) as [Hl Hr].
  rewrite shape1_transpose in Hr
    by (rewrite (@shape1_rect S w B HrB HB); assumption).
  split; [now rewrite length_mmap | now apply rect_mmap].
Qed.

(** X18.  The moment matrices of [_sij].  For [delta_x], [delta_y_1_T] and
    [y_min1] with [T >= 1] columns, whenever [_sij] returns: [s00] is
    [K x K], [s01] is [K x K1], [s10] is [K1 x K] and [s11] is
    [K1 x K1], where [K] and [K1] are the numbers of rows of
    [delta_y_1_T] and of [y_min1]; [s00] and [s11] are symmetric and
    [s10] is the transpose of [s01]. *)
Theorem sij_moment_matrices :
  forall (T : nat) (dx dy ym s00 s01 s10 s11 s11_ v : matrix) (lambd : vector),
    1 <= T -> dx <> [] -> dy <> [] -> ym <> [] ->
    rect T dx -> rect T dy -> rect T ym ->
    _sij dx dy ym = Ok (s00, s01, s10, s11, s11_, lambd, v) ->
    (transpose s01 = s10 /\ transpose s00 = s00 /\ transpose s11 = s11)
    /\ (length s00 = length dy /\ rect (length dy) s00)
    /\ (length s01 = length dy /\ rect (length ym) s01)
    /\ (length s10 = length ym /\ rect (length dy) s10)
    /\ (length s11 = length ym /\ rect (length ym) s11).
Proof.
  intros T dx dy ym s00 s01 s10 s11 s11_ v lambd HT Hdx Hdy Hym Hrdx Hrdy Hrym H.
  unfold _sij in H. rewrite (@shape1_rect S T ym Hrym Hym) in H.
  inv_bind H. injection H as <- <- <- <- _ _ _.
  match goal with
  | Hr : _r_matrices _ _ _ _ = Ok (?r0, ?r1) |- _ =>
      destruct (@r_matrices_shape S L T dx dy ym r0 r1 Hdx Hrdx Hr)
        as (Hl0 & Hr0 & Hl1 & Hr1);
      assert (Hne0 : r0 <> [])
        by (intro Enil; rewrite Enil in Hl0; destruct dy; [congruence | discriminate]);
      assert (Hne1 : r1 <> [])
        by (intro Enil; rewrite Enil in Hl1; destruct ym; [congruence | discriminate])
  end.
  match goal with
  | H00 : moment T ?r0 ?r0 = Ok ?a, H01 : moment T ?r0 ?r1 = Ok ?b,
    H10 : moment T ?r1 ?r0 = Ok ?c, H11 : moment T ?r1 ?r1 = Ok ?d |- _ =>
      destruct (@moment_transpose T T r0 r0 a a HT Hne0 Hne0 Hr0 Hr0 H00 H00)
        as (Ht00 & Hl00 & Hr00);
      destruct (@moment_transpose T T r0 r1 b c HT Hne0 Hne1 Hr0 Hr1 H01 H10)
        as (Ht01 & Hl01 & Hr01);
      destruct (@moment_transpose T T r1 r0 c b HT Hne1 Hne0 Hr1 Hr0 H10 H01)
        as (_ & Hl10 & Hr10);
      destruct (@moment_transpose T T r1 r1 d d HT Hne1 Hne1 Hr1 Hr1 H11 H11)
        as (Ht11 & Hl11 & Hr11)
  end.
  rewrite Hl0, Hl1 in *.
  repeat split; assumption.
Qed.


Lemma sub_same_shape : forall (w : nat) (A B C : matrix),
    length A = length B -> rect w A -> rect w B ->
    msub A B = Ok C -> length C = length A /\ rect w C.
Proof.
  intros w A B C Hl HA HB H. unfold msub in H.
  rewrite (@elementwise_same_shape S rsub w A B Hl HA HB) in H. injection H as <-.
  split; [rewrite length_zip_with; lia | now apply rect_zip_with].
Qed.


End MomentSymmetry.


Lemma qmul_comm : forall a b : Q, Sample.qmul a b = Sample.qmul b a.
Proof.
  intros a b. unfold Sample.qmul. apply Qred_complete, Qmult_comm.
Qed.

Lemma sij_moment_matrices_witness :
  exists (s00 s01 s10 s11 s11_ v : @matrix Sample.QScalar)
         (lambd : @vector Sample.QScalar),
    @_sij Sample.QScalar Sample.QLinAlg
      [[1; 3; -2; 1; 0; 1]; [1; 0; 1; 2; -3; -1]]%Q
      [[3; -2; 1; 0; 1; -3]; [0; 1; 2; -3; -1; 3]]%Q
      [[-1; 2; 0; 1; 1; 2]; [-1; -1; 0; 2; -1; -2]]%Q
    = Ok (s00, s01, s10, s11, s11_, lambd, v)
    /\ @transpose Sample.QScalar s01 = s10.
Proof.
  set (dx := [[1; 3; -2; 1; 0; 1]; [1; 0; 1; 2; -3; -1]]%Q : @matrix Sample.QScalar).
  set (dy := [[3; -2; 1; 0; 1; -3]; [0; 1; 2; -3; -1; 3]]%Q : @matrix Sample.QScalar).
  set (ym := [[-1; 2; 0; 1; 1; 2]; [-1; -1; 0; 2; -1; -2]]%Q : @matrix Sample.QScalar).
  assert (Hdx : @rect Sample.QScalar 6 dx) by (repeat constructor).
  assert (Hdy : @rect Sample.QScalar 6 dy) by (repeat constructor).
  assert (Hym : @rect Sample.QScalar 6 ym) by (repeat constructor).
  assert (Hok : is_ok (@_sij Sample.QScalar Sample.QLinAlg dx dy ym) = true)
    by (vm_compute; reflexivity).
  destruct (@_sij Sample.QScalar Sample.QLinAlg dx dy ym)
    as [[[[[[[s00 s01] s10] s11] s11_] lambd] v] | e] eqn:E; [| discriminate Hok].
  exists s00, s01, s10, s11, s11_, v, lambd. split; [reflexivity |].
  destruct (@sij_moment_matrices Sample.QScalar Sample.QLinAlg qmul_comm 6
              dx dy ym s00 s01 s10 s11 s11_ v lambd
              ltac:(lia) ltac:(discriminate) ltac:(discriminate) ltac:(discriminate)
              Hdx Hdy Hym E) as ((H & _) & _).
  exact H.
Defined.

(* ================================================================== *)
(** * The shapes of the estimates *)

Section EstimateShapes.
Context {S : Scalar} {L : LinAlg}.
Local Open Scope string_scope.
Local Open Scope list_scope.

(** Exact routines return the shapes of [ShapedLinAlg]. *)
Lemma exact_shaped : ExactLinAlg L -> ShapedLinAlg L.
Proof.
  intro exact. split.
  - intros M X H. now apply exact_inv_shape.
  - intros M u v s H. eapply (@svd_rows S L exact); eassumption.
  - intros M v lambd H. eapply (@eig_shape S L exact); eassumption.
Qed.

Lemma moment_shape : forall (T w : nat) (A B M : matrix),
    0 < w -> B <> [] -> rect w B ->
    moment T A B = Ok M -> length M = length A /\ rect (length B) M.
Proof.
  intros T w A B M Hw HB HrB H. unfold moment in H. inv_bind H. injection H as <-.
  destruct (dot_shape _ _ E) as [Hl Hr].
  rewrite shape1_transpose in Hr by (rewrite (@shape1_rect S w B HrB HB); assumption).
  split; [now rewrite length_mmap | now apply rect_mmap].
Qed.

Lemma mat_sqrt_rows_shaped : forall M Sq : matrix,
    ShapedLinAlg L -> mat_sqrt M = Ok Sq -> length Sq = length M.
Proof.
  intros M Sq shaped H. unfold mat_sqrt in H. inv_bind H.
  apply dot_rows in H. cbn [bind] in E0. apply dot_rows in E0.
  rewrite H, E0. eapply (@svd_shape S L shaped); eassumption.
Qed.

(** The shapes of what [_sij] returns. *)
Lemma sij_all_shapes :
  forall (T : nat) (dx dy ym s00 s01 s10 s11 s11_ v : matrix) (lambd : vector),
    ShapedLinAlg L ->
    1 <= T -> dx <> [] -> dy <> [] -> ym <> [] ->
    rect T dx -> rect T dy -> rect T ym ->
    _sij dx dy ym = Ok (s00, s01, s10, s11, s11_, lambd, v) ->
    (length s01 = length dy /\ rect (length ym) s01)
    /\ (length s11 = length ym /\ rect (length ym) s11)
    /\ (length s11_ = length ym /\ rect (length ym) s11_)
    /\ (length v = length ym /\ rect (length ym) v).
Proof.
  intros T dx dy ym s00 s01 s10 s11 s11_ v lambd shaped HT Hdx Hdy Hym Hrdx Hrdy Hrym H.
  unfold _sij in H. rewrite (@shape1_rect S T ym Hrym Hym) in H.
  inv_bind H. injection H as <- <- <- <- <- <- <-.
  match goal with
  | Hr : _r_matrices _ _ _ _ = Ok (?r0, ?r1) |- _ =>
      destruct (@r_matrices_shape S L T dx dy ym r0 r1 Hdx Hrdx Hr)
        as (Hl0 & Hr0 & Hl1 & Hr1);
      assert (Hne0 : r0 <> [])
        by (intro Enil; rewrite Enil in Hl0; destruct dy; [congruence | discriminate]);
      assert (Hne1 : r1 <> [])
        by (intro Enil; rewrite Enil in Hl1; destruct ym; [congruence | discriminate])
  end.
  match goal with
  | H01 : moment T ?r0 ?r1 = Ok ?b, H10 : moment T ?r1 ?r0 = Ok ?c,
    H11 : moment T ?r1 ?r1 = Ok ?d |- _ =>
      destruct (@moment_shape T T r0 r1 b HT Hne1 Hr1 H01) as [Hl01 Hr01];
      destruct (@moment_shape T T r1 r0 c HT Hne0 Hr0 H10) as [Hl10 _];
      destruct (@moment_shape T T r1 r1 d HT Hne1 Hr1 H11) as [Hl11 Hr11]
  end.
  rewrite Hl0, Hl1 in *.
  pose proof (@mat_sqrt_rows_shaped _ _ shaped E4) as Hq.
  destruct (@inv_shape S L shaped _ _ E5) as [Hil _].
  pose proof (@chain_dot_first S _ _ _ _ E7) as Hw.
  pose proof (@chain_dot_rows S _ _ _ E7) as Hc.
  destruct (@eig_vectors S L shaped _ _ _ E8) as [Hvl Hvr].
  repeat split; try assumption; congruence.
Qed.

(** X20.  The shapes of a maximum-likelihood estimate.  For a series of
    [K >= 1] variables, [lags >= 1], at least one sample column and a
    rank [1 <= r <= K], when the linear-algebra routines return arrays
    of their documented shapes the container that [fit] returns for
    ["ml"] holds [alpha] and [beta] of shape [K x r], [gamma] of shape
    [K x K*lags], [sigma_u] of shape [K x K], a [det_coef_coint] with
    one row of [r] entries when the constant lies inside the
    cointegration relation and none otherwise, and a [det_coef] with
    [K] rows and a column for each deterministic term outside it (one
    for the constant, three for the seasons, one for the trend); its
    [T] is the number of sample columns. *)
Theorem fit_ml_shapes :
  forall (self self' : VECM.t) (K N lags : nat) (deterministic : string) (r : Z)
         (est : VECMResults.t),
    ShapedLinAlg L ->
    1 <= K -> length (VECM.y self) = K -> rect N (VECM.y self) ->
    1 <= lags -> lags + 2 <= N ->
    (str_in "s" deterministic = true -> 4 <= N - lags - 1) ->
    (1 <= r <= Z.of_nat K)%Z ->
    VECM.fit self (Some (Z.of_nat lags)) "ml" deterministic (Some r)
    = (Ok (VECM.Results est), self') ->
    (length (VECMResults.alpha est) = K /\ rect (Z.to_nat r) (VECMResults.alpha est))
    /\ (length (VECMResults.beta est) = K /\ rect (Z.to_nat r) (VECMResults.beta est))
    /\ (length (VECMResults.det_coef_coint est) = Nat.b2n (str_in "cc" deterministic)
        /\ rect (Z.to_nat r) (VECMResults.det_coef_coint est))
    /\ (length (VECMResults.gamma est) = K /\ rect (K * lags) (VECMResults.gamma est))
    /\ (length (VECMResults.det_coef est) = K
        /\ rect (Nat.b2n (str_in "co" deterministic)
                 + 3 * Nat.b2n (str_in "s" deterministic)
                 + Nat.b2n (str_in "lt" deterministic)) (VECMResults.det_coef est))
    /\ (length (VECMResults.sigma_u est) = K /\ rect K (VECMResults.sigma_u est))
    /\ VECMResults.T est = Z.of_nat (N - lags - 1).
Proof.
  intros self self' K N lags det r est shaped HK Hy Hrect Hlags HN Hs Hr H.
  destruct (@builder_shapes S (VECM.y self) K N lags det HK Hy Hrect Hlags HN Hs)
    as (y1 & dy & ym & dx & Eb & _ & [Hdyl Hdyr] & [Hyml Hymr] & [Hdxl Hdxr]).
  set (T := N - lags - 1) in *.
  set (K1 := K + Nat.b2n (str_in "cc" det)) in *.
  set (n := lags * K + Nat.b2n (str_in "co" det) + 3 * Nat.b2n (str_in "s" det)
            + Nat.b2n (str_in "lt" det)) in *.
  set (rz := Z.to_nat r).
  assert (Hrz : 1 <= rz <= K) by (unfold rz; lia).
  assert (HT : 0 < T) by (unfold T; lia).
  assert (Hymne : ym <> []).
  { intro Enil. rewrite Enil in Hyml. simpl in Hyml. unfold K1 in *. lia. }
  assert (Hdxne : dx <> []).
  { intro Enil. rewrite Enil in Hdxl. simpl in Hdxl. unfold n in *. nia. }
  assert (Hdyne : dy <> []).
  { intro Enil. rewrite Enil in Hdyl. simpl in Hdyl. lia. }
  assert (Hym1 : shape1 ym = T) by (now apply shape1_rect).
  assert (Hdx1 : shape1 dx = T) by (now apply shape1_rect).
  unfold VECM.fit in H. cbn [String.eqb Ascii.eqb Bool.eqb] in H.
  injection H as H _.
  unfold VECM._estimate_vecm_ml in H. cbn [VECM.p VECM.y] in H.
  rewrite Eb in H. cbn [bind] in H.
  inv_bind H. injection H as <-.
  match goal with
  | Hi : VECMResults.__init__ _ _ _ _ _ _ _ _ _ _ _ = Ok _ |- _ =>
      unfold VECMResults.__init__, np_vsplit, np_hsplit in Hi;
      cbn [VECMResults.matrices_supplied VECMResults.is_not_None bind
           VECMResults.attr_of] in Hi;
      injection Hi as <-
  end.
  cbn [VECMResults.alpha VECMResults.beta VECMResults.det_coef_coint VECMResults.gamma
       VECMResults.det_coef VECMResults.sigma_u VECMResults.T].
  destruct (@sij_all_shapes T dx dy ym _ _ _ _ _ _ _ shaped HT Hdxne Hdyne Hymne
              Hdxr Hdyr Hymr E)
    as ([Hs01l _] & _ & [Hsil Hsir] & [Hvl Hvr]).
  rewrite Hyml in *. rewrite Hdyl in *.
  (* the eigenvectors kept, and the unnormalised beta *)
  assert (HVr : rect rz (cols_slice None (Some r) m)).
  { apply rect_cols_slice_to with (w := K1); [assumption | unfold K1; lia]. }
  assert (HV1 : shape1 (cols_slice None (Some r) m) = rz).
  { apply shape1_rect; [assumption |]. intro Enil.
    apply (f_equal (@length _)) in Enil. rewrite length_cols_slice, Hvl in Enil.
    simpl in Enil. unfold K1 in *. lia. }
  assert (Hm01 : shape1 m0 = K1).
  { apply shape1_rect; [assumption |]. intro Enil. rewrite Enil in Hsil.
    simpl in Hsil. unfold K1 in *. lia. }
  destruct (dot_shape _ _ E0) as [Hxl Hxr].
  rewrite length_transpose, HV1 in Hxl. rewrite Hm01 in Hxr.
  assert (Hx1 : shape1 x = K1).
  { apply shape1_rect; [assumption |]. intro Enil. rewrite Enil in Hxl. simpl in Hxl. lia. }
  (* the normalisation *)
  assert (Hlead : length (rows_slice None (Some r) (transpose x)) = rz).
  { unfold rows_slice. rewrite py_slice_to by lia.
    rewrite length_firstn, length_transpose, Hx1. unfold rz, K1 in *. lia. }
  destruct (@inv_shape S L shaped _ _ E1) as [_ Hx01]. rewrite Hlead in Hx01.
  destruct (dot_shape _ _ E2) as [Hx1l Hx1r].
  rewrite length_transpose, Hx1 in Hx1l. rewrite Hx01 in Hx1r.
  assert (Hx11 : shape1 x1 = rz).
  { apply shape1_rect; [assumption |]. intro Enil. rewrite Enil in Hx1l.
    simpl in Hx1l. unfold K1 in *. lia. }
  (* alpha *)
  pose proof (dot_rows _ _ E3) as Hx2l. rewrite Hs01l in Hx2l.
  pose proof (dot_rows _ _ E4) as Hx3l. rewrite length_transpose, Hx11 in Hx3l.
  pose proof (dot_rows _ _ E5) as Hx4l. rewrite Hx3l in Hx4l.
  destruct (@inv_shape S L shaped _ _ E6) as [_ Hx51]. rewrite Hx4l in Hx51.
  destruct (dot_shape _ _ E7) as [Hx6l Hx6r]. rewrite Hx2l in Hx6l. rewrite Hx51 in Hx6r.
  (* gamma *)
  pose proof (dot_rows _ _ E8) as Hx7l. rewrite Hx6l in Hx7l.
  destruct (dot_shape _ _ E9) as [Hx8l Hx8r]. rewrite Hx7l in Hx8l. rewrite Hym1 in Hx8r.
  assert (Hl8 : length dy = length x8) by congruence.
  destruct (@sub_same_shape S T dy x8 x9 Hl8 Hdyr Hx8r E10) as [Hx9l Hx9r].
  rewrite Hdyl in Hx9l.
  pose proof (dot_rows _ _ E11) as Hx10l. rewrite Hx9l in Hx10l.
  pose proof (dot_rows _ _ E12) as Hx11l. rewrite Hdxl in Hx11l.
  destruct (@inv_shape S L shaped _ _ E13) as [_ Hx121]. rewrite Hx11l in Hx121.
  destruct (dot_shape _ _ E14) as [Hx13l Hx13r].
  rewrite Hx10l in Hx13l. rewrite Hx121 in Hx13r.
  (* sigma_u *)
  destruct (dot_shape _ _ E15) as [Hx14l Hx14r].
  rewrite Hx13l in Hx14l. rewrite Hdx1 in Hx14r.
  assert (Hl14 : length x9 = length x14) by congruence.
  destruct (@sub_same_shape S T x9 x14 x15 Hl14 Hx9r Hx14r E16) as [Hx15l Hx15r].
  rewrite Hx9l in Hx15l.
  assert (Hx151 : shape1 x15 = T).
  { apply shape1_rect; [assumption |]. intro Enil. rewrite Enil in Hx15l.
    simpl in Hx15l. lia. }
  destruct (dot_shape _ _ E17) as [Hx16l Hx16r].
  rewrite Hx15l in Hx16l. rewrite shape1_transpose, Hx15l in Hx16r by lia.
  unfold shape0. rewrite Hy.
  split; [split; assumption |].
  split.
  { unfold rows_slice. rewrite py_slice_range by lia.
    cbn [Z.to_nat skipn]. rewrite Nat.sub_0_r, Nat2Z.id. split.
    - rewrite length_firstn, Hx1l. unfold K1. lia.
    - now apply Forall_firstn_rows. }
  split.
  { unfold rows_slice. rewrite py_slice_range by lia.
    rewrite !Nat2Z.id. split.
    - rewrite length_firstn, length_skipn, Hx1l. unfold K1. lia.
    - now apply Forall_firstn_rows, Forall_skipn_rows. }
  split.
  { split; [now rewrite length_cols_slice |].
    replace (K * lags) with (Z.to_nat (Z.of_nat K * (Z.of_nat lags + 1 - 1) - 0)) by nia.
    apply rect_cols_slice_range with (w := n); [assumption | nia | unfold n; nia]. }
  split.
  { split; [now rewrite length_map |].
    apply Forall_map. eapply Forall_impl; [| exact Hx13r].
    intros row Hrow. cbv beta in Hrow.
    rewrite py_slice_range by nia.
    rewrite length_firstn, length_skipn, Hrow. unfold n. nia. }
  split.
  { split; [now rewrite length_mmap | now apply rect_mmap]. }
  now rewrite Hym1.
Qed.

(** [_block_matrix_ymin1_deltax] returns a square matrix with a row for
    each row of [y_min1] and of [delta_x]. *)
Lemma block_matrix_shape : forall (T : nat) (ym dx X : matrix),
    ShapedLinAlg L -> 0 < T -> ym <> [] -> dx <> [] -> rect T ym -> rect T dx ->
    _block_matrix_ymin1_deltax ym dx = Ok X ->
    length X = length ym + length dx /\ shape1 X = length ym + length dx.
Proof.
  intros T ym dx X shaped HT Hym Hdx Hrym Hrdx H.
  unfold _block_matrix_ymin1_deltax in H. inv_bind H.
  assert (Hym1 : shape1 ym = T) by (now apply shape1_rect).
  assert (Hdx1 : shape1 dx = T) by (now apply shape1_rect).
  destruct (dot_shape _ _ E) as [Hbl Hbr].
  rewrite shape1_transpose in Hbr by lia.
  assert (Hb1 : shape1 x = length dx).
  { apply shape1_rect; [assumption |]. intro Enil. rewrite Enil in Hbl.
    destruct ym; [congruence | discriminate]. }
  apply vstack_inv in E4. subst x4.
  unfold hstack in E1, E3.
  destruct (shape0 x0 =? shape0 x)%nat; [| discriminate]. injection E1 as <-.
  destruct (shape0 (transpose x) =? shape0 x2)%nat eqn:Eq; [| discriminate].
  injection E3 as <-.
  apply Nat.eqb_eq in Eq. unfold shape0 in Eq.
  destruct (@inv_shape S L shaped _ _ H) as [Hl H1].
  rewrite length_app, !length_zip_with in Hl, H1.
  rewrite (dot_rows _ _ E0), Hbl in Hl, H1.
  rewrite <- Eq, length_transpose, Hb1 in Hl, H1.
  split; lia.
Qed.

(** X21.  The shapes of a least-squares estimate.  Without a linear trend,
    and when the inverse routine returns matrices of the shape of its
    argument, the ["Pi_hat"] that least squares returns has [K] rows
    and [K] columns, one more with the constant inside the
    cointegration relation, and its ["Gamma_hat"] has [K] rows and a
    column for each row of [delta_x]: [K] for every lagged difference,
    one for the constant outside the cointegration relation and three
    for the seasons. *)
Theorem ls_estimate_shapes :
  forall (self : VECM.t) (K N lags : nat) (deterministic : string)
         (pi_hat gamma_hat sigma_u_hat : matrix),
    ShapedLinAlg L ->
    1 <= K -> length (VECM.y self) = K -> rect N (VECM.y self) ->
    1 <= lags -> lags + 2 <= N ->
    (str_in "s" deterministic = true -> 4 <= N - lags - 1) ->
    str_in "lt" deterministic = false ->
    VECM._estimate_vecm_ls self (Z.of_nat lags) deterministic
    = Ok (VECM.Dict [("Pi_hat", pi_hat); ("Gamma_hat", gamma_hat);
                     ("Sigma_u_hat", sigma_u_hat)]) ->
    (length pi_hat = K /\ rect (K + Nat.b2n (str_in "cc" deterministic)) pi_hat)
    /\ (length gamma_hat = K
        /\ rect (lags * K + Nat.b2n (str_in "co" deterministic)
                 + 3 * Nat.b2n (str_in "s" deterministic)) gamma_hat).
Proof.
  intros self K N lags det pi_hat gamma_hat sigma_u_hat shaped HK Hy Hrect Hlags HN Hs
         Hlt H.
  destruct (@builder_shapes S (VECM.y self) K N lags det HK Hy Hrect Hlags HN Hs)
    as (y1 & dy & ym & dx & Eb & _ & [Hdyl Hdyr] & [Hyml Hymr] & [Hdxl Hdxr]).
  rewrite Hlt in Hdxl. cbn [Nat.b2n] in Hdxl. rewrite Nat.add_0_r in Hdxl.
  set (T := N - lags - 1) in *.
  assert (HT : 0 < T) by (unfold T; lia).
  assert (Hymne : ym <> []).
  { intro Enil. rewrite Enil in Hyml. simpl in Hyml. lia. }
  assert (Hdxne : dx <> []).
  { intro Enil. rewrite Enil in Hdxl. simpl in Hdxl. nia. }
  unfold VECM._estimate_vecm_ls in H. rewrite Eb in H. cbn [bind] in H.
  inv_bind H. injection H as <- <- _.
  unfold VECM._ls_pi_gamma, np_hsplit in E. cbv beta iota zeta in E. rewrite Hlt in E.
  inv_bind E. injection E as <- <- _.
  destruct (@block_matrix_shape T ym dx x2 shaped HT Hymne Hdxne Hymr Hdxr E3)
    as [_ Hx21].
  destruct (dot_shape _ _ E4) as [Hx3l Hx3r]. rewrite Hx21, Hyml, Hdxl in Hx3r.
  assert (Hl3 : length x3 = K).
  { rewrite Hx3l. unfold hstack in E2.
    destruct (shape0 x =? shape0 x0)%nat; [| discriminate]. injection E2 as <-.
    rewrite length_zip_with, (dot_rows _ _ E0), (dot_rows _ _ E1). lia. }
  unfold shape0. rewrite Hdyl.
  set (pc := if str_in "cc" det then (Z.of_nat K + 1)%Z else Z.of_nat K).
  assert (Hpc : pc = Z.of_nat (K + Nat.b2n (str_in "cc" det))).
  { unfold pc. destruct (str_in "cc" det); cbn [Nat.b2n]; lia. }
  rewrite Hpc. split; split.
  - now rewrite length_cols_slice.
  - replace (K + Nat.b2n (str_in "cc" det))
      with (Z.to_nat (Z.of_nat (K + Nat.b2n (str_in "cc" det)) - 0)) at 1 by lia.
    eapply rect_cols_slice_range; [exact Hx3r | lia | lia].
  - now rewrite length_map.
  - apply Forall_map. eapply Forall_impl; [| exact Hx3r].
    intros row Hrow. cbv beta in Hrow.
    rewrite py_slice_range by lia.
    rewrite length_firstn, length_skipn, Hrow. lia.
Qed.
End EstimateShapes.

Lemma fit_ml_shapes_witness :
  (length (VECMResults.alpha Run.est8) = 2
   /\ @rect Sample.QScalar (Z.to_nat 1) (VECMResults.alpha Run.est8))
  /\ (length (VECMResults.gamma Run.est8) = 2
      /\ @rect Sample.QScalar (2 * 1) (VECMResults.gamma Run.est8)).
Proof.
  destruct (@fit_ml_shapes Sample.QScalar Sample.QLinAlg Sample.model8
              {| VECM.y := VECM.y Sample.model8; VECM.neqs := VECM.neqs Sample.model8;
                 VECM.p := Some 2%Z |}
              2 8 1 ""%string 1%Z Run.est8
              (@exact_shaped Sample.QScalar Sample.QLinAlg QLinAlg_exact)
              ltac:(lia) eq_refl ltac:(repeat constructor) ltac:(lia) ltac:(lia)
              ltac:(intro H; discriminate H) ltac:(lia) eq_refl)
    as (Ha & _ & _ & Hg & _).
  split; [exact Ha | exact Hg].
Defined.

Lemma ls_estimate_shapes_witness :
  length [[-7 # 6; 0]; [7 # 12; -41 # 24]]%Q = 2
  /\ @rect Sample.QScalar (2 + Nat.b2n (str_in "cc" ""))
       [[-7 # 6; 0]; [7 # 12; -41 # 24]]%Q.
Proof.
  assert (Hok : Run.dict_entry "Pi_hat"
                  (@VECM._estimate_vecm_ls Sample.QScalar Sample.QLinAlg
                     Sample.model8 1 "")
                = Some [[-7 # 6; 0]; [7 # 12; -41 # 24]]%Q) by (vm_compute; reflexivity).
  destruct (@VECM._estimate_vecm_ls Sample.QScalar Sample.QLinAlg Sample.model8 1 "")
    as [v | e] eqn:E; [| discriminate Hok].
  destruct (@ls_returns_dict Sample.QScalar Sample.QLinAlg Sample.model8 1%Z ""%string
              v E) as (pi_hat & gamma_hat & sigma_u_hat & ->).
  cbn in Hok. injection Hok as ->.
  destruct (@ls_estimate_shapes Sample.QScalar Sample.QLinAlg Sample.model8 2 8 1
              ""%string _ gamma_hat sigma_u_hat
              (@exact_shaped Sample.QScalar Sample.QLinAlg QLinAlg_exact)
              ltac:(lia) eq_refl ltac:(repeat constructor) ltac:(lia) ltac:(lia)
              ltac:(intro H; discriminate H) eq_refl E) as (Hp & _).
  exact Hp.
Defined.

(* ================================================================== *)
(** * The normalisation at work *)

(** On the sample series with its first variable doubled the leading
    block of the unnormalised matrix is [1/2]; in rational arithmetic
    its product with the inverse [2] is the first row of [beta]. *)
Lemma ml_beta_leading_block_witness :
  (1 <= 1 <= Z.of_nat (length (VECM.y RunNorm.model8_doubled)))%Z
  /\ exists (est : @VECMResults.t Sample.QScalar) (X : @matrix Sample.QScalar),
       @VECM._estimate_vecm_ml Sample.QScalar Sample.QLinAlg RunNorm.model8_doubled
         1 ""%string 1 = Ok (VECM.Results est)
       /\ @inv Sample.QScalar Sample.QLinAlg [[1 # 2]]%Q = Ok X
       /\ @dot Sample.QScalar [[1 # 2]]%Q X
          = Ok (@rows_slice Sample.QScalar None (Some 1%Z) (VECMResults.beta est)).
Proof.
  split; [vm_compute; split; discriminate |].
  assert (Hok : Run.is_results
                  (@VECM._estimate_vecm_ml Sample.QScalar Sample.QLinAlg
                     RunNorm.model8_doubled 1 ""%string 1) = true)
    by (vm_compute; reflexivity).
  destruct (@VECM._estimate_vecm_ml Sample.QScalar Sample.QLinAlg
              RunNorm.model8_doubled 1 ""%string 1) as [[items | est] | e] eqn:E;
    try discriminate Hok.
  destruct (@ml_beta_leading_block Sample.QScalar Sample.QLinAlg
              RunNorm.model8_doubled 1%Z ""%string 1%Z est
              (@exact_shaped Sample.QScalar Sample.QLinAlg QLinAlg_exact)
              ltac:(vm_compute; split; discriminate) E)
    as (y1 & dy & ym & dx & s00 & s01 & s10 & s11 & s11_ & v & vs & X & lambd
        & Hb & Hs & Hd & HB).
  cbv zeta in HB. destruct HB as (_ & Hinv & Hdot & _).
  vm_compute in Hb. injection Hb as <- <- <- <-.
  vm_compute in Hs. injection Hs as <- <- <- <- <- <- <-.
  vm_compute in Hd. injection Hd as <-.
  exists est, X. split; [reflexivity |]. split; [exact Hinv | exact Hdot].
Defined.

(** C2 as stated fails in binary64 arithmetic.  On the series
    [Binary64.endog18] with one lagged difference and rank two, the
    two variables never move in the same columns, so every matrix the
    estimator forms is diagonal, and every entry up to the moment matrix
    [s11 = diag(1/2, 15/32)] is a small multiple of a power of two,
    computed without rounding in whatever order the sums are taken.  The
    unnormalised [beta] is [s11_], with entries [b = 1/sqrt(s11[i][i])],
    each rounded twice; the estimator returns [b * (1/b)] on the
    diagonal, which for the second variable is the binary64 number just
    below one, not one. *)
Lemma ml_beta_leading_block_rounded :
  (1 <= 2 <= Z.of_nat (length (VECM.y Binary64.model18)))%Z
  /\ Binary64.s11_of (VECM.y Binary64.model18) 1 ""%string
     = Some ([[PrimFloat.div (Binary64.f_ofZ 1) (Binary64.f_ofZ 2); PrimFloat.zero];
              [PrimFloat.zero; PrimFloat.div (Binary64.f_ofZ 15) (Binary64.f_ofZ 32)]],
             [[PrimFloat.div PrimFloat.one
                 (PrimFloat.sqrt (PrimFloat.div (Binary64.f_ofZ 1) (Binary64.f_ofZ 2)));
               PrimFloat.zero];
              [PrimFloat.zero;
               PrimFloat.div PrimFloat.one
                 (PrimFloat.sqrt (PrimFloat.div (Binary64.f_ofZ 15) (Binary64.f_ofZ 32)))]],
             [[PrimFloat.one; PrimFloat.zero]; [PrimFloat.zero; PrimFloat.one]])
  /\ Binary64.beta_of
       (fst (@VECM.fit Binary64.FScalar Binary64.FLinAlg Binary64.model18
               (Some 1%Z) "ml"%string ""%string (Some 2%Z)))
     = Some [[PrimFloat.one; PrimFloat.zero];
             [PrimFloat.zero; PrimFloat.next_down PrimFloat.one]]
  /\ Binary64.matrix_eqb
       (@rows_slice Binary64.FScalar None (Some 2%Z)
          [[PrimFloat.one; PrimFloat.zero];
           [PrimFloat.zero; PrimFloat.next_down PrimFloat.one]])
       (@identity Binary64.FScalar 2) = false
  /\ @rows_slice Binary64.FScalar None (Some 2%Z)
       [[PrimFloat.one; PrimFloat.zero];
        [PrimFloat.zero; PrimFloat.next_down PrimFloat.one]]
     <> @identity Binary64.FScalar 2.
Proof.
  split; [vm_compute; split; discriminate |].
  split; [vm_compute; reflexivity |].
  split; [vm_compute; reflexivity |].
  split; [vm_compute; reflexivity |].
  intro H.
  apply (f_equal (fun M => Binary64.matrix_eqb M (@identity Binary64.FScalar 2))) in H.
  vm_compute in H. discriminate H.
Qed.

(* ================================================================== *)
(** * The names and the sections of the JMulTi reference files *)

Section JMulTiFacts.
Local Open Scope string_scope.
Local Open Scope list_scope.

Lemma string_of_list_ascii_app : forall l m : list ascii,
    string_of_list_ascii (l ++ m)
    = (string_of_list_ascii l ++ string_of_list_ascii m)%string.
Proof.
  induction l as [| c l IH]; intro m; [reflexivity |].
  cbn [app string_of_list_ascii String.append]. now rewrite IH.
Qed.

Lemma string_length_app : forall s t : string,
    String.length (s ++ t)%string = String.length s + String.length t.
Proof.
  induction s as [| c s IH]; intro t; [reflexivity |].
  cbn [String.append String.length]. now rewrite IH.
Qed.

Lemma string_app_assoc : forall s t u : string,
    ((s ++ t) ++ u)%string = (s ++ (t ++ u))%string.
Proof.
  induction s as [| c s IH]; intros t u; [reflexivity |].
  cbn [String.append]. now rewrite IH.
Qed.

(** [s[:2] + s[2:]] is [s]. *)
Lemma str_slice_split : forall s : string,
    (JMulTi.str_slice None (Some 2%Z) s ++ JMulTi.str_slice (Some 2%Z) None s)%string = s.
Proof.
  intro s. unfold JMulTi.str_slice.
  rewrite py_slice_to, py_slice_from by lia.
  rewrite <- string_of_list_ascii_app, firstn_skipn.
  apply string_of_list_ascii_of_string.
Qed.

Lemma str_in_head : forall (c : ascii) (x : string),
    str_in (String c "") (String c x) = true.
Proof.
  intros c x. rewrite str_in_cons.
  assert (H : String.prefix (String c "") (String c x) = true).
  { cbn [String.prefix]. destruct (ascii_dec c c) as [_ | Hne]; [| congruence].
    now destruct x. }
  now rewrite H.
Qed.

Lemma dt_s_tup_to_string_season_aux : forall (dt : string) (n : Z),
    (0 < n)%Z ->
    str_in "s" (JMulTi.dt_s_tup_to_string (dt, n)) = true.
Proof.
  intros dt n Hn.
  unfold JMulTi.dt_s_tup_to_string. cbn [fst snd].
  destruct (Z.gtb_spec n 0) as [_ | E]; [| lia].
  destruct (str_in "co" dt || str_in "ci" dt || str_in "nc" dt).
  - rewrite string_app_assoc. apply str_in_app_r. apply str_in_head.
  - apply str_in_head.
Qed.

(** X22.  The name of a reference file.  Without seasons the deterministic
    terms are the name.  With seasons exactly one ["s"] is inserted,
    after at most two characters: the name contains ["s"], is one
    character longer, and is the terms again once the inserted ["s"] is
    taken out; the ["s"] comes first unless the terms contain ["co"],
    ["ci"] or ["nc"]. *)
Theorem dt_s_tup_to_string_inserts_season :
  forall (dt_string : string) (seasons : Z),
    ((seasons <= 0)%Z -> JMulTi.dt_s_tup_to_string (dt_string, seasons) = dt_string)
    /\ ((0 < seasons)%Z ->
        str_in "s" (JMulTi.dt_s_tup_to_string (dt_string, seasons)) = true
        /\ String.length (JMulTi.dt_s_tup_to_string (dt_string, seasons))
           = Datatypes.S (String.length dt_string)
        /\ (exists pre post : string,
               dt_string = (pre ++ post)%string
               /\ JMulTi.dt_s_tup_to_string (dt_string, seasons)
                  = (pre ++ "s" ++ post)%string
               /\ String.length pre <= 2)
        /\ (str_in "co" dt_string = false -> str_in "ci" dt_string = false ->
            str_in "nc" dt_string = false ->
            JMulTi.dt_s_tup_to_string (dt_string, seasons) = ("s" ++ dt_string)%string)).
Proof.
  intros dt n. unfold JMulTi.dt_s_tup_to_string. cbn [fst snd]. split.
  - intro Hn. destruct (Z.gtb_spec n 0) as [E | _]; [lia | reflexivity].
  - intro Hn. destruct (Z.gtb_spec n 0) as [_ | E]; [| lia].
    assert (Hex : exists pre post : string,
               dt = (pre ++ post)%string
               /\ (if str_in "co" dt || str_in "ci" dt || str_in "nc" dt
                   then ((JMulTi.str_slice None (Some 2%Z) dt ++ "s")
                           ++ JMulTi.str_slice (Some 2%Z) None dt)%string
                   else ("s" ++ dt)%string) = (pre ++ "s" ++ post)%string
               /\ String.length pre <= 2).
    { destruct (str_in "co" dt || str_in "ci" dt || str_in "nc" dt).
      - exists (JMulTi.str_slice None (Some 2%Z) dt), (JMulTi.str_slice (Some 2%Z) None dt).
        split; [symmetry; apply str_slice_split |].
        split; [apply string_app_assoc |].
        unfold JMulTi.str_slice. rewrite py_slice_to by lia.
        change (Z.to_nat 2) with 2.
        destruct (list_ascii_of_string dt) as [| a [| b l]]; cbn; lia.
      - exists "", dt. repeat split. cbn. lia. }
    destruct Hex as (pre & post & Hdt & Hres & Hpre).
    split; [| split; [| split]].
    + rewrite Hres. apply str_in_app_r. apply str_in_head.
    + rewrite Hres, Hdt, !string_length_app. cbn [String.length]. lia.
    + exists pre, post. now repeat split.
    + intros Hco Hci Hnc. now rewrite Hco, Hci, Hnc.
Qed.

(** X23.  The sections read from a reference file.  The lists of section
    headers and of result keys are set up without an error and stay
    aligned: they have the same length, and a header stands at the
    position of a key only if it did so in the full lists.  The keys
    ["Gamma"], ["alpha"], ["beta"], ["Legend"] and ["VAR A"] are always
    there; ["C"] is there exactly when the name contains ["co"], ["lo"]
    or ["s"].  For a model with seasons, whose name contains ["s"], the
    full lists are used. *)
Theorem section_lists_aligned :
  forall dt_string : string,
    exists headers keys : list string,
      JMulTi.section_lists dt_string = Ok (headers, keys)
      /\ length headers = length keys
      /\ incl (combine headers keys)
              [("Lagged endogenous term", "Gamma"); ("Deterministic term", "C");
               ("Loading coefficients", "alpha");
               ("Estimated cointegration relation", "beta"); ("Legend", "Legend");
               ("Lagged endogenous term", "VAR A");
               ("Deterministic term", "VAR deterministic")]
      /\ incl ["Gamma"; "alpha"; "beta"; "Legend"; "VAR A"] keys
      /\ (In "C" keys <->
          str_in "co" dt_string || str_in "lo" dt_string || str_in "s" dt_string = true)
      /\ (forall (dt : string) (seasons : Z),
             (0 < seasons)%Z ->
             dt_string = JMulTi.dt_s_tup_to_string (dt, seasons) ->
             length keys = 7).
Proof.
  intro dt. unfold JMulTi.section_lists.
  assert (Hseason : forall (d : string) (n : Z),
             (0 < n)%Z -> dt = JMulTi.dt_s_tup_to_string (d, n) -> str_in "s" dt = true).
  { intros d n Hn ->.
    exact (@dt_s_tup_to_string_season_aux d n Hn). }
  destruct (str_in "co" dt), (str_in "lo" dt), (str_in "s" dt) eqn:Es,
    (str_in "ci" dt), (str_in "li" dt);
    cbn [negb andb orb];
    do 2 eexists; (split; [vm_compute; reflexivity |]);
    (split; [reflexivity |]);
    (split; [intros p Hp; cbn in Hp; cbn; tauto |]);
    (split; [intros k Hk; cbn in Hk; cbn; tauto |]);
    (split; [cbn; split; intro Hc;
             [try reflexivity;
              repeat (destruct Hc as [Hc | Hc]; [discriminate Hc |]); destruct Hc
             | try discriminate Hc; tauto] |]);
    intros d n Hn Hd; try reflexivity;
    specialize (Hseason d n Hn Hd); discriminate Hseason.
Qed.
End JMulTiFacts.

Lemma dt_s_tup_to_string_inserts_season_witness :
  str_in "s" (JMulTi.dt_s_tup_to_string ("ci"%string, 4%Z)) = true
  /\ JMulTi.dt_s_tup_to_string ("lo"%string, 4%Z) = "slo"%string.
Proof.
  split.
  - destruct (dt_s_tup_to_string_inserts_season "ci" 4) as [_ H].
    destruct (H ltac:(lia)) as (Hs & _). exact Hs.
  - destruct (dt_s_tup_to_string_inserts_season "lo" 4) as [_ H].
    destruct (H ltac:(lia)) as (_ & _ & _ & Hfront).
    exact (Hfront eq_refl eq_refl eq_refl).
Defined.

Lemma section_lists_aligned_witness :
  exists headers keys : list string,
    JMulTi.section_lists (JMulTi.dt_s_tup_to_string ("ci"%string, 4%Z))
    = Ok (headers, keys)
    /\ length keys = 7.
Proof.
  destruct (section_lists_aligned (JMulTi.dt_s_tup_to_string ("ci"%string, 4%Z)))
    as (headers & keys & E & _ & _ & _ & _ & H7).
  exists headers, keys. split; [exact E |].
  apply (H7 "ci"%string 4%Z); [lia | reflexivity].
Defined.

(* ================================================================== *)
(** * The tests on [alpha] and [gamma] *)

Section EntrywiseTests.
Context {S : Scalar} {L : LinAlg}.
Local Open Scope string_scope.
Local Open Scope list_scope.

(** X24.  The t-values and p-values of [alpha] and of [gamma] are computed
    entry by entry.  For a block [alpha] (or [gamma]) with at least one
    row and [c] entries in every row, whenever its p-values are
    returned so are its standard errors and t-values; the standard
    errors have the shape of the block, the t-values are the entries of
    the block divided by their standard errors, with no broadcasting,
    and the p-values are [(1 - norm.cdf(|t|)) * 2] of each t-value. *)
Theorem alpha_gamma_tests_entrywise :
  forall (self : VECMResults.t) (c : nat) (P : matrix),
    (VECMResults.alpha self <> [] -> rect c (VECMResults.alpha self) ->
     VECMResults.pvalues_alpha self = Ok P ->
     exists se t : matrix,
       VECMResults.stderr_alpha self = Ok se
       /\ VECMResults.tvalues_alpha self = Ok t
       /\ length se = length (VECMResults.alpha self) /\ rect c se
       /\ t = zip_with (zip_with rdiv) (VECMResults.alpha self) se
       /\ P = VECMResults.two_sided t)
    /\ (VECMResults.gamma self <> [] -> rect c (VECMResults.gamma self) ->
        VECMResults.pvalues_gamma self = Ok P ->
        exists se t : matrix,
          VECMResults.stderr_gamma self = Ok se
          /\ VECMResults.tvalues_gamma self = Ok t
          /\ length se = length (VECMResults.gamma self) /\ rect c se
          /\ t = zip_with (zip_with rdiv) (VECMResults.gamma self) se
          /\ P = VECMResults.two_sided t).
Proof.
  intros self c P.
  assert (Hgen : forall (block se t : matrix) (v : vector),
             block <> [] -> rect c block ->
             reshape_F v (shape0 block) (shape1 block) = Ok se ->
             mdiv block se = Ok t ->
             length se = length block /\ rect c se
             /\ t = zip_with (zip_with rdiv) block se).
  { intros block se t v Hne Hr Hse Ht.
    destruct (reshape_F_shape _ _ _ Hse) as [Hl Hrs].
    rewrite (@shape1_rect S c block Hr Hne) in Hrs. unfold shape0 in Hl.
    unfold mdiv in Ht.
    rewrite (@elementwise_same_shape S rdiv c block se (eq_sym Hl) Hr Hrs) in Ht.
    injection Ht as <-. now repeat split. }
  split; intros Hne Hr H.
  - unfold VECMResults.pvalues_alpha in H. inv_bind H. injection H as <-.
    pose proof E as Et. unfold VECMResults.tvalues_alpha in E. inv_bind E.
    pose proof E0 as Ese. unfold VECMResults.stderr_alpha in E0. inv_bind E0.
    destruct (Hgen _ _ _ _ Hne Hr E0 E) as (Hl & Hrs & Hz).
    exists x0, x. now repeat split.
  - unfold VECMResults.pvalues_gamma in H. inv_bind H. injection H as <-.
    pose proof E as Et. unfold VECMResults.tvalues_gamma in E. inv_bind E.
    pose proof E0 as Ese. unfold VECMResults.stderr_gamma in E0. inv_bind E0.
    destruct (Hgen _ _ _ _ Hne Hr E0 E) as (Hl & Hrs & Hz).
    exists x0, x. now repeat split.
Qed.
End EntrywiseTests.

Lemma alpha_gamma_tests_entrywise_witness :
  exists se t P : @matrix Sample.QScalar,
    @VECMResults.pvalues_alpha Sample.QScalar Sample.QLinAlg Run.est8 = Ok P
    /\ @VECMResults.stderr_alpha Sample.QScalar Sample.QLinAlg Run.est8 = Ok se
    /\ t = zip_with (zip_with Sample.qdiv) (VECMResults.alpha Run.est8) se
    /\ P = @VECMResults.two_sided Sample.QScalar t.
Proof.
  assert (Hok : is_ok (@VECMResults.pvalues_alpha Sample.QScalar Sample.QLinAlg Run.est8)
                = true) by (vm_compute; reflexivity).
  destruct (@VECMResults.pvalues_alpha Sample.QScalar Sample.QLinAlg Run.est8)
    as [P | e] eqn:E; [| discriminate Hok].
  destruct (@alpha_gamma_tests_entrywise Sample.QScalar Sample.QLinAlg Run.est8 1 P)
    as [Ha _].
  destruct (Ha ltac:(discriminate) ltac:(repeat constructor) E)
    as (se & t & Ese & _ & _ & _ & Ht & HP).
  exists se, t, P. repeat split; assumption.
Defined.
